(** * blanat, submission [dauom]: a shallow embedding of [main.cpp]

    The program maps [input.txt], cuts it into byte ranges, lets a pool of
    workers parse [city,product,price] records into per-worker aggregates,
    merges the aggregates and prints the cheapest city with five products.

    Modelling choices, all taken from the source:
    - the mapped file is a [list ascii]; a cursor ([char *]) is an offset;
      a read past the end of the file yields the byte 0, as in the
      zero-filled tail of the last mapped page;
    - [long long] and [int] are [Z] with the wrap-around written out;
    - [gp_hash_table<string,int>] is a [gmap string Z]; the order in which a
      range-for visits it is an arbitrary permutation of its entries;
    - the fixed arrays of [Result] are lists of length [NUM_CITIES]; an
      access outside them is a fault ([None]);
    - the thread pool is an assignment of chunk jobs to worker slots, and
      a transition system with one step for each critical section;
    - an amount is printed as [printf] prints the [double] quotient. *)

From Stdlib Require Import ZArith Lia Ascii String.
From stdpp Require Import base decidable option list sorting gmap strings fin_maps pretty.

Local Open Scope Z_scope.

(* set_solver clears hypotheses it has already consumed *)
#[local] Set Warnings "-clear-no-such-hyp".

(** ** Machine integers *)

Definition wrap64 (z : Z) : Z := (z + 2 ^ 63) mod 2 ^ 64 - 2 ^ 63.
Definition wrap32 (z : Z) : Z := (z + 2 ^ 31) mod 2 ^ 32 - 2 ^ 31.

Definition add64 (a b : Z) : Z := wrap64 (a + b).
Definition sub64 (a b : Z) : Z := wrap64 (a - b).
Definition mul64 (a b : Z) : Z := wrap64 (a * b).

Definition in64 (z : Z) : Prop := - 2 ^ 63 <= z < 2 ^ 63.

(** [size_t] to [int], as in [id = id_map.size()]. *)
Definition to_int (n : nat) : Z := wrap32 (Z.of_nat n).

(** ** Bytes of the mapped file *)

Definition code (c : ascii) : Z := Z.of_N (N_of_ascii c).

Definition NUL : ascii := ascii_of_nat 0.
Definition LF : ascii := ascii_of_nat 10.
Definition CR : ascii := ascii_of_nat 13.
Definition COMMA : ascii := ","%char.
Definition DOT : ascii := "."%char.

Definition bytes (s : string) : list ascii := list_ascii_of_string s.

(** [*p] for [p = file_data + i]. *)
Definition peek (mem : list ascii) (i : nat) : ascii := default NUL (mem !! i).

(** [c <= '9' && c >= '0'] *)
Definition is_digit (c : ascii) : bool := (code c <=? 57) && (code c >=? 48).

(** ** Field decoder *)

(** The loop of [consume_str]; [rest] is the file from the cursor on, the
    empty list standing for the byte 0 behind the file. *)
Fixpoint consume_str_loop (rest : list ascii) (start : nat) (s : string)
  : nat * string :=
  match rest with
  | [] => (start, s)
  | c :: rest' =>
      if bool_decide (c ≠ NUL) && bool_decide (c ≠ COMMA) && bool_decide (c ≠ LF)
      then consume_str_loop rest' (S start) (s +:+ String c EmptyString)
      else (start, s)
  end.

Definition consume_str (mem : list ascii) (start : nat) (s : string)
  : nat * string :=
  let '(start, s) := consume_str_loop (drop start mem) start s in
  (S start, s).

(** The first loop of [consume_float_as_long]; it also returns the byte [c]
    on which it stopped, which the code tests afterwards. *)
Fixpoint integral_loop (rest : list ascii) (start : nat) (ans : Z)
  : nat * Z * ascii :=
  match rest with
  | [] => (start, ans, NUL)
  | c :: rest' =>
      if is_digit c
      then integral_loop rest' (S start) (sub64 (add64 (mul64 ans 10) (code c)) 48)
      else (start, ans, c)
  end.

(** The second loop, which also counts the digits in an [int]. *)
Fixpoint fraction_loop (rest : list ascii) (start : nat) (ans count : Z)
  : nat * Z * Z :=
  match rest with
  | [] => (start, ans, count)
  | c :: rest' =>
      if is_digit c
      then fraction_loop rest' (S start)
             (sub64 (add64 (mul64 ans 10) (code c)) 48) (wrap32 (count + 1))
      else (start, ans, count)
  end.

Definition consume_float_as_long (mem : list ascii) (start : nat) : nat * Z :=
  let '(start, ans, c) := integral_loop (drop start mem) start 0 in
  let start := S start in
  if bool_decide (c = DOT) then
    let '(start, ans, count) := fraction_loop (drop start mem) start ans 0 in
    let ans := if bool_decide (count = 1) then mul64 ans 10 else ans in
    let start := S start in
    let start := if bool_decide (peek mem start = LF) then S start else start in
    (start, ans)
  else (start, ans).

(** The number a digit string denotes, for stating what the decoder returns. *)
Definition digit_val (c : ascii) : Z := code c - 48.

Definition dec_value (ds : list ascii) : Z :=
  fold_left (fun a c => a * 10 + digit_val c) ds 0.

Definition all_digits (ds : list ascii) : Prop :=
  Forall (fun c => is_digit c = true) ds.

(** The bytes that stop a digit loop. *)
Definition stops (rest : list ascii) : Prop :=
  match rest with [] => True | c :: _ => is_digit c = false end.

(** ** Entity dictionary *)

(** [id = id_map[k] = id_map.size()]: the right operand of an assignment is
    sequenced before the left one, so [size()] is read before [operator[]]
    inserts the key. *)
Definition find_or_create (id_map : gmap string Z) (k : string)
  : Z * gmap string Z :=
  match id_map !! k with
  | None => let id := to_int (size id_map) in (id, <[k := id]> id_map)
  | Some id => (id, id_map)
  end.

(** Interning a sequence of keys, as a worker does over its records. *)
Definition intern_all (ks : list string) (id_map : gmap string Z) : gmap string Z :=
  foldl (fun m k => (find_or_create m k).2) id_map ks.

(** The keys of a sequence in first-seen order. *)
Fixpoint first_seen (seen : list string) (ks : list string) : list string :=
  match ks with
  | [] => seen
  | k :: ks' =>
      if bool_decide (k ∈ seen) then first_seen seen ks'
      else first_seen (seen ++ [k]) ks'
  end.

(** Identifiers are exactly [0 .. size-1], each used by one key. *)
Definition dense (m : gmap string Z) : Prop :=
  (forall k i, m !! k = Some i -> 0 <= i < Z.of_nat (size m)) /\
  (forall k1 k2 i, m !! k1 = Some i -> m !! k2 = Some i -> k1 = k2) /\
  (forall i, 0 <= i < Z.of_nat (size m) -> exists k, m !! k = Some i).

(** ** Partial aggregate *)

Definition NUM_CITIES : nat := 102.

Arguments NUM_CITIES : simpl never.

(** [(long long)4e18] *)
Definition SENTINEL : Z := 4000000000000000000.

Record Result := mkResult {
  city_cost : list Z;
  product_cost : list (list Z);
  product_id : gmap string Z;
  city_id : gmap string Z
}.

Definition new_Result : Result :=
  {| city_cost := replicate NUM_CITIES 0;
     product_cost := replicate NUM_CITIES (replicate NUM_CITIES SENTINEL);
     product_id := ∅;
     city_id := ∅ |}.

(** An [int] used as a subscript of an array of [NUM_CITIES] elements. *)
Definition index (i : Z) : option nat :=
  if decide (0 <= i < Z.of_nat NUM_CITIES) then Some (Z.to_nat i) else None.

Definition get1 (a : list Z) (i : Z) : option Z :=
  n ← index i; a !! n.

Definition set1 (a : list Z) (i : Z) (v : Z) : option (list Z) :=
  n ← index i; Some (<[n := v]> a).

Definition get2 (a : list (list Z)) (i j : Z) : option Z :=
  n ← index i; m ← index j; row ← a !! n; row !! m.

Definition set2 (a : list (list Z)) (i j : Z) (v : Z) : option (list (list Z)) :=
  n ← index i; m ← index j; row ← a !! n; Some (<[n := <[m := v]> row]> a).

Definition record : Type := string * string * Z.

(** A fold that stops at the first fault. *)
Fixpoint fold_opt {A B : Type} (f : B -> A -> option B) (b : B) (l : list A)
  : option B :=
  match l with
  | [] => Some b
  | x :: l' => b' ← f b x; fold_opt f b' l'
  end.

(** The four statements that end the loop body of [process_chunk]. *)
Definition aggregate (r : Result) (rec : record) : option Result :=
  let '(city, product, price) := rec in
  let '(cid, cities) := find_or_create (city_id r) city in
  let '(pid, products) := find_or_create (product_id r) product in
  old ← get2 (product_cost r) cid pid;
  pc ← set2 (product_cost r) cid pid (Z.min old price);
  total ← get1 (city_cost r) cid;
  cc ← set1 (city_cost r) cid (add64 total price);
  Some {| city_cost := cc; product_cost := pc;
          product_id := products; city_id := cities |}.

(** ** Processing a chunk *)

(** [rawmemchr(start, '\n')]; without a newline up to the end of the file
    the scan leaves the mapping. *)
Fixpoint rawmemchr (rest : list ascii) (start : nat) : option nat :=
  match rest with
  | [] => None
  | c :: rest' => if bool_decide (c = LF) then Some start else rawmemchr rest' (S start)
  end.

(** The first three statements of [process_chunk]. *)
Definition realign (mem : list ascii) (start : nat) : option nat :=
  start ← (if bool_decide (peek mem start ≠ LF)
           then rawmemchr (drop start mem) start
           else Some start);
  Some (S start).

(** One record at the cursor: the three decoder calls of the loop body. *)
Definition read_record (mem : list ascii) (cur : nat) : nat * record :=
  let '(cur, city) := consume_str mem cur "" in
  let '(cur, product) := consume_str mem cur "" in
  let '(cur, price) := consume_float_as_long mem cur in
  (cur, (city, product, price)).

(** [while (cur < end)]: every pass moves the cursor forward, so [end - cur]
    passes are enough. *)
Fixpoint process_chunk_loop (fuel : nat) (r : Result) (mem : list ascii)
  (cur end_ : nat) : option Result :=
  match fuel with
  | O => Some r
  | S fuel' =>
      if decide (cur < end_)%nat then
        let '(cur', rec) := read_record mem cur in
        r' ← aggregate r rec;
        process_chunk_loop fuel' r' mem cur' end_
      else Some r
  end.

Definition process_chunk (r : Result) (mem : list ascii) (start end_ : nat)
  : option Result :=
  start ← realign mem start;
  process_chunk_loop (end_ - start) r mem start end_.

(** The records a chunk reads, each with the offset at which it starts. *)
Fixpoint chunk_records_loop (fuel : nat) (mem : list ascii) (cur end_ : nat)
  : list (nat * record) :=
  match fuel with
  | O => []
  | S fuel' =>
      if decide (cur < end_)%nat then
        let '(cur', rec) := read_record mem cur in
        (cur, rec) :: chunk_records_loop fuel' mem cur' end_
      else []
  end.

Definition chunk_records (mem : list ascii) (start end_ : nat)
  : list (nat * record) :=
  match realign mem start with
  | Some start => chunk_records_loop (end_ - start) mem start end_
  | None => []
  end.

(** ** Chunk partitioner and worker pool *)

(** [1024 * 1024 * 100] *)
Definition block_size : Z := 1024 * 1024 * 100.

(** The [for] loop of [process_concurrently] from index [i] on, with [n]
    indices left: the byte ranges of the queued jobs. *)
Fixpoint chunk_jobs (n : nat) (i bs file_size chunks_count : Z) : list (Z * Z) :=
  match n with
  | O => []
  | S n' =>
      let chunk_start := i * bs in
      let chunk_end := if decide (i + 1 = chunks_count) then file_size
                       else (i + 1) * bs in
      if decide (chunk_start >= chunk_end) then []
      else (chunk_start, chunk_end) :: chunk_jobs n' (i + 1) bs file_size chunks_count
  end.

Definition jobs (bs file_size : Z) : list (Z * Z) :=
  let chunks_count := file_size / bs in
  chunk_jobs (Z.to_nat chunks_count) 0 bs file_size chunks_count.

(** The jobs worker [id] takes from the queue, in queue order, when
    [sched i] is the worker that dequeues job [i]. *)
Definition slot_jobs {A : Type} (sched : nat -> nat) (id : nat) (js : list A)
  : list A :=
  (filter (fun p => sched p.1 = id) (imap (fun i j => (i, j)) js)).*2.

(** What [ThreadPool::loop] does to [results[id]]. *)
Definition run_slot (mem : list ascii) (js : list (Z * Z)) : option Result :=
  fold_opt (fun r j => process_chunk r mem (Z.to_nat j.1) (Z.to_nat j.2))
    new_Result js.

(** [process_concurrently] for a block size [bs]: the vector of the workers'
    results. Without workers a queued job is never taken and the wait for
    the queue to drain does not end: no value. *)
Definition process_concurrently_with (bs : Z) (num_threads : nat)
  (sched : nat -> nat) (mem : list ascii) : option (list Result) :=
  let js := jobs bs (Z.of_nat (length mem)) in
  if decide (num_threads = 0%nat /\ js ≠ []) then None
  else mapM (fun id => run_slot mem (slot_jobs sched id js)) (seq 0 num_threads).

Definition process_concurrently := process_concurrently_with block_size.

(** ** Merger *)

Section Iteration.

(** The order in which a range-for visits a hash table. *)
Variable iter : gmap string Z -> list (string * Z).

Definition merge_product (r : Result) (cid ncid : Z) (mr : Result)
  (pid : string * Z) : option Result :=
  let '(npid, products) := find_or_create (product_id mr) pid.1 in
  mine ← get2 (product_cost mr) ncid npid;
  theirs ← get2 (product_cost r) cid pid.2;
  pc ← set2 (product_cost mr) ncid npid (Z.min mine theirs);
  Some {| city_cost := city_cost mr; product_cost := pc;
          product_id := products; city_id := city_id mr |}.

Definition merge_city (r : Result) (mr : Result) (cid : string * Z)
  : option Result :=
  let '(ncid, cities) := find_or_create (city_id mr) cid.1 in
  mine ← get1 (city_cost mr) ncid;
  theirs ← get1 (city_cost r) cid.2;
  cc ← set1 (city_cost mr) ncid (add64 mine theirs);
  fold_opt (merge_product r cid.2 ncid)
    {| city_cost := cc; product_cost := product_cost mr;
       product_id := product_id mr; city_id := cities |}
    (iter (product_id r)).

Definition merge_result (mr : Result) (r : Result) : option Result :=
  fold_opt (merge_city r) mr (iter (city_id r)).

Definition merge (results : list Result) : option Result :=
  fold_opt merge_result new_Result results.

(** ** Report builder *)

(** [min_city_cost], [city], [city_id] *)
Definition selection : Type := Z * string * Z.

(** The values the three variables start with. *)
Definition initial_selection : selection := (SENTINEL, EmptyString, -1).

(** A [pair<long long, string>] as the line printed for it. *)
Definition swap (p : Z * string) : string * Z := (p.2, p.1).

(** [city > cid.first] on [std::string]: bytes compared as unsigned. *)
Definition string_gt (a b : string) : bool := String.ltb b a.

Definition select_step (result : Result) (st : selection) (cid : string * Z)
  : option selection :=
  let '(min_city_cost, city, id) := st in
  c ← get1 (city_cost result) cid.2;
  if decide (min_city_cost > c) then Some (c, cid.1, cid.2)
  else if bool_decide (c = min_city_cost) && string_gt city cid.1
       then Some (min_city_cost, cid.1, cid.2)
       else Some st.

Definition select_city (result : Result) : option selection :=
  fold_opt (select_step result) initial_selection (iter (city_id result)).

(** [operator<] of [pair<long long, string>]. *)
Definition pair_lt (a b : Z * string) : Prop :=
  a.1 < b.1 \/ (a.1 = b.1 /\ String.ltb a.2 b.2 = true).

(** Its reflexive closure, the order in which [sort] leaves the vector. *)
Definition pair_le (a b : Z * string) : Prop :=
  a.1 < b.1 \/ (a.1 = b.1 /\ String.le a.2 b.2).

#[global] Instance pair_le_dec : RelDecision pair_le.
Proof. intros a b. unfold pair_le. apply _. Defined.

Definition product_entries (result : Result) (id : Z) : option (list (Z * string)) :=
  mapM (fun pid : string * Z =>
          c ← get2 (product_cost result) id pid.2; Some (c, pid.1))
       (iter (product_id result)).

(** [products.resize(5)]: cut to five, or filled with value-initialised pairs. *)
Definition resize5 (l : list (Z * string)) : list (Z * string) :=
  take 5 l ++ replicate (5 - length l) (0, EmptyString).

(** The lines [ans] prints, each as the name and the amount in hundredths. *)
Definition ans (result : Result) : option (list (string * Z)) :=
  '(min_city_cost, city, id) ← select_city result;
  products ← product_entries result id;
  Some ((city, min_city_cost) :: (swap <$> resize5 (merge_sort pair_le products))).

(** [main] from the mapped file to the printed lines. *)
Definition run_with (bs : Z) (num_threads : nat) (sched : nat -> nat)
  (mem : list ascii) : option (list (string * Z)) :=
  results ← process_concurrently_with bs num_threads sched mem;
  result ← merge results;
  ans result.

Definition run := run_with block_size.

End Iteration.

(** ** The amounts as printed

    [fprintf(f, "%s %.2f\n", ..., v / 100.0)]: the [long long] is converted to
    [double], divided by the [double] 100, and the quotient is printed with
    two decimals. Each of the three steps rounds to the nearest value it can
    hold, to the even one of two nearest. A [double] is a significand of 53
    bits times a power of 2, here a pair [(m, e)] standing for [m * 2 ^ e]. *)

(** The integer nearest to [n / d], for [d > 0]. *)
Definition round_half_even (n d : Z) : Z :=
  let q := n / d in
  let r := n mod d in
  if 2 * r <? d then q
  else if d <? 2 * r then q + 1
  else if Z.even q then q else q + 1.

(** [n / d / 2 ^ e] as a fraction. *)
Definition scale (n d e : Z) : Z * Z :=
  if 0 <=? e then (n, d * 2 ^ e) else (n * 2 ^ (- e), d).

(** The [double] nearest to [n / d], for [n >= 0] and [d > 0]: with [k] the
    exponent of the highest bit of the quotient, the significand is the
    quotient in units of [2 ^ (k - 52)]. *)
Definition to_double (n d : Z) : Z * Z :=
  let k0 := Z.log2 n - Z.log2 d in
  let '(n0, d0) := scale n d k0 in
  let k := if d0 <=? n0 then k0 else k0 - 1 in
  let e := k - 52 in
  let '(n1, d1) := scale n d e in
  (round_half_even n1 d1, e).

(** The hundredths printed for [v >= 0]. *)
Definition hundredths (v : Z) : Z :=
  let '(m, e) := to_double v 1 in
  let '(n, d) := scale m 100 (- e) in
  let '(m', e') := to_double n d in
  let '(n', d') := scale (100 * m') 1 (- e') in
  round_half_even n' d'.

(** [%.2f] of [v / 100.0] *)
Definition two_decimals (v : Z) : string :=
  let h := hundredths (Z.abs v) in
  (if decide (v < 0) then "-" else "") +:+ pretty (h / 100) +:+ "."
    +:+ pretty (h mod 100 / 10) +:+ pretty (h mod 10).

(** ["%s %.2f\n"] *)
Definition print_line (l : string * Z) : string :=
  l.1 +:+ " " +:+ two_decimals l.2 +:+ String LF EmptyString.

Definition print_report (ls : list (string * Z)) : string :=
  foldr (fun l s => print_line l +:+ s) EmptyString ls.

(** ** Views used to state the properties *)

(** The total and the minimum a [Result] holds under a name. *)
Definition city_total (r : Result) (c : string) : option Z :=
  i ← city_id r !! c; get1 (city_cost r) i.

Definition pair_min (r : Result) (c p : string) : option Z :=
  i ← city_id r !! c; j ← product_id r !! p; get2 (product_cost r) i j.

(** The same from the records themselves. *)
Definition rec_city (rec : record) : string := rec.1.1.
Definition rec_product (rec : record) : string := rec.1.2.
Definition rec_price (rec : record) : Z := rec.2.

Definition city_prices (recs : list record) (c : string) : list Z :=
  rec_price <$> filter (fun rec => rec_city rec = c) recs.

Definition pair_prices (recs : list record) (c p : string) : list Z :=
  rec_price <$> filter (fun rec => rec_city rec = c /\ rec_product rec = p) recs.

Definition sum_list (l : list Z) : Z := foldr Z.add 0 l.

Definition cities_of (recs : list record) : gset string :=
  list_to_set (rec_city <$> recs).

Definition products_of (recs : list record) : gset string :=
  list_to_set (rec_product <$> recs).

(** The records a worker reads from its jobs, and a worker run on them. *)
Definition slot_records (mem : list ascii) (js : list (Z * Z)) : list record :=
  js ≫= (fun j => (chunk_records mem (Z.to_nat j.1) (Z.to_nat j.2)).*2).

Definition worker_result (recs : list record) : option Result :=
  fold_opt aggregate new_Result recs.

(** The iteration order used to evaluate examples. *)
Definition table_order : gmap string Z -> list (string * Z) := map_to_list.

(** ** Example inputs *)

Definition nl : string := String LF EmptyString.

Definition header : string := "city,product,price" +:+ nl.

Definition round_trip_input : list ascii :=
  bytes (header +:+ "A,X,1.50" +:+ nl +:+ "A,Y,2.00" +:+ nl
           +:+ "B,X,1.00" +:+ nl +:+ "B,X,0.50" +:+ nl).

Definition header_only_input : list ascii := bytes header.

(** A dictionary holds the keys of [seen], each under its position. *)
Definition tracks (m : gmap string Z) (seen : list string) : Prop :=
  NoDup seen /\ size m = length seen /\
  forall k v, m !! k = Some v <-> 0 <= v /\ seen !! Z.to_nat v = Some k.

(** Five records; the second one starts at offset 28. *)
Definition boundary_input : list ascii :=
  bytes (header +:+ "A,X,1.00" +:+ nl +:+ "B,X,0.50" +:+ nl
           +:+ "A,Y,2.00" +:+ nl +:+ "C,X,9.00" +:+ nl +:+ "C,Y,9.00" +:+ nl).

(** What [ans] prints for an aggregate without cities. *)
Definition no_data_report : list (string * Z) :=
  (EmptyString, SENTINEL) :: replicate 5 (EmptyString, 0).

(** Each worker takes every second job. *)
Definition alternate (i : nat) : nat := (i mod 2)%nat.

(** ** Invariant of an aggregate *)

Definition dict_ok (m : gmap string Z) : Prop :=
  dense m /\ (size m <= NUM_CITIES)%nat.

(** [m'] holds the entries of [m] and new keys under new identifiers. *)
Definition extends (m m' : gmap string Z) : Prop :=
  (size m <= size m')%nat /\
  (forall k i, m !! k = Some i -> m' !! k = Some i) /\
  (forall k i, m' !! k = Some i -> m !! k = None -> Z.of_nat (size m) <= i).

(** Totals fit a [long long] and are still 0 beyond the identifiers in use. *)
Definition totals_ok (m : gmap string Z) (cc : list Z) : Prop :=
  length cc = NUM_CITIES /\
  (forall i v, cc !! i = Some v -> in64 v) /\
  (forall i v, cc !! i = Some v -> (size m <= i)%nat -> v = 0).

Definition cell (pc : list (list Z)) (i j : nat) : option Z :=
  row ← pc !! i; row !! j.

(** Minimums never exceed the initial value and still have it beyond the
    identifiers in use. *)
Definition cells_ok (mc mp : gmap string Z) (pc : list (list Z)) : Prop :=
  length pc = NUM_CITIES /\
  (forall i row, pc !! i = Some row -> length row = NUM_CITIES) /\
  (forall i j v, cell pc i j = Some v -> v <= SENTINEL) /\
  (forall i j v, cell pc i j = Some v ->
                 (size mc <= i)%nat \/ (size mp <= j)%nat -> v = SENTINEL).

Definition wf (r : Result) : Prop :=
  dict_ok (city_id r) /\ dict_ok (product_id r) /\
  totals_ok (city_id r) (city_cost r) /\
  cells_ok (city_id r) (product_id r) (product_cost r).

(** The total and the minimum under a name, with the initial value for a
    name the dictionary does not hold. *)
Definition total_view (m : gmap string Z) (cc : list Z) (c : string) : Z :=
  default 0 (i ← m !! c; get1 cc i).

Definition min_view (mc mp : gmap string Z) (pc : list (list Z)) (c p : string) : Z :=
  default SENTINEL (i ← mc !! c; j ← mp !! p; get2 pc i j).

Definition vtotal (r : Result) : string -> Z :=
  total_view (city_id r) (city_cost r).

Definition vmin (r : Result) : string -> string -> Z :=
  min_view (city_id r) (product_id r) (product_cost r).

(** The minimum of a list of prices, the initial value when it is empty. *)
Definition min_list (l : list Z) : Z := foldr Z.min SENTINEL l.

(** An aggregate holds the totals and minimums of a list of records. *)
Definition represents (r : Result) (recs : list record) : Prop :=
  wf r /\
  dom (city_id r) = cities_of recs /\
  dom (product_id r) = products_of recs /\
  (forall c, vtotal r c = wrap64 (sum_list (city_prices recs c))) /\
  (forall c p, vmin r c p = min_list (pair_prices recs c p)).

(** [(t1, c1)] comes no later than [(t2, c2)]: smaller total, or equal
    totals and a name that is not greater. *)
Definition beats (t1 : Z) (c1 : string) (t2 : Z) (c2 : string) : Prop :=
  t1 < t2 \/ (t1 = t2 /\ String.le c1 c2).

(** A city of the aggregate whose total is below the initial minimum and
    which no other city of the aggregate precedes. *)
Definition is_winner (r : Result) (w : string) : Prop :=
  is_Some (city_id r !! w) /\ vtotal r w < SENTINEL /\
  forall c, is_Some (city_id r !! c) -> beats (vtotal r w) w (vtotal r c) c.

(** The vector [ans] sorts, given the names in iteration order. *)
Definition entries_of (r : Result) (w : string) (ps : list string) : list (Z * string) :=
  (fun p => (vmin r w p, p)) <$> ps.

(** What the selection loop has established after the entries [l]. *)
Definition sel_inv (r : Result) (l : list (string * Z)) (st : selection) : Prop :=
  (st = initial_selection /\ forall e, e ∈ l -> SENTINEL <= vtotal r e.1) \/
  (exists w id, st = (vtotal r w, w, id) /\ (w, id) ∈ l /\ vtotal r w < SENTINEL /\
                forall e, e ∈ l -> beats (vtotal r w) w (vtotal r e.1) e.1).

(** The records the workers of a run read, worker by worker. *)
Definition pool_records (bs : Z) (num_threads : nat) (sched : nat -> nat)
  (mem : list ascii) : list record :=
  concat ((fun id => slot_records mem (slot_jobs sched id (jobs bs (Z.of_nat (length mem)))))
            <$> seq 0 num_threads).

(** The four records of the round-trip input. *)
Definition round_trip_records : list record :=
  [("A"%string, "X"%string, 150); ("A"%string, "Y"%string, 200);
   ("B"%string, "X"%string, 100); ("B"%string, "X"%string, 50)].

(** Two ways to hand them to workers. *)
Definition two_workers : list (list record) :=
  [[("A"%string, "X"%string, 150); ("A"%string, "Y"%string, 200)];
   [("B"%string, "X"%string, 100); ("B"%string, "X"%string, 50)]].

Definition three_workers : list (list record) :=
  [[("B"%string, "X"%string, 50)];
   [("A"%string, "Y"%string, 200); ("B"%string, "X"%string, 100)];
   [("A"%string, "X"%string, 150)]].

(** Another order of iteration over a table. *)
Definition reverse_order (m : gmap string Z) : list (string * Z) :=
  reverse (map_to_list m).

(** The aggregate of the four records of the round-trip input. *)
Definition round_trip_result : Result :=
  default new_Result (worker_result round_trip_records).

(** ** Well-formed lines, for stating what the decoder reads *)

(** The bytes on which [consume_str] stops. *)
Definition is_delim (c : ascii) : Prop := c = NUL \/ c = COMMA \/ c = LF.

Definition text (l : list ascii) : string := string_of_list_ascii l.

(** A line [city,product,int.frac] ended by a newline or by a carriage
    return and a newline. *)
Record line := mkLine {
  l_city : list ascii;
  l_product : list ascii;
  l_int : list ascii;
  l_frac : list ascii;
  l_cr : bool
}.

Definition line_end (l : line) : list ascii :=
  if l_cr l then [CR; LF] else [LF].

Definition line_bytes (l : line) : list ascii :=
  l_city l ++ COMMA :: l_product l ++ COMMA :: l_int l ++ DOT :: l_frac l
    ++ line_end l.

(** The price in hundredths the digits of a line stand for when exactly one
    digit after the dot counts as tenths. *)
Definition line_price (l : line) : Z :=
  if decide (length (l_frac l) = 1%nat) then dec_value (l_int l ++ l_frac l) * 10
  else dec_value (l_int l ++ l_frac l).

Definition line_record (l : line) : record :=
  (text (l_city l), text (l_product l), line_price l).

Definition line_ok (l : line) : Prop :=
  Forall (fun c => ¬ is_delim c) (l_city l) /\
  Forall (fun c => ¬ is_delim c) (l_product l) /\
  all_digits (l_int l) /\ all_digits (l_frac l) /\
  line_price l < 2 ^ 63 /\ Z.of_nat (length (l_frac l)) < 2 ^ 31.

(** The bytes of a sequence of lines. *)
Definition body (ls : list line) : list ascii := ls ≫= line_bytes.

(** The records of a sequence of lines, each with the offset of its first
    byte when the first line starts at offset [o]. *)
Fixpoint layout (o : nat) (ls : list line) : list (nat * record) :=
  match ls with
  | [] => []
  | l :: ls' => (o, line_record l) :: layout (o + length (line_bytes l)) ls'
  end.

(** The byte range of a job holds offset [o] behind its first byte. *)
Definition inside (j : Z * Z) (o : nat) : Prop := j.1 < Z.of_nat o < j.2.

#[global] Instance inside_dec j o : Decision (inside j o).
Proof. unfold inside. apply _. Defined.

#[global] Instance is_delim_decision c : Decision (is_delim c).
Proof. unfold is_delim. apply _. Defined.

#[global] Instance line_ok_decision l : Decision (line_ok l).
Proof. unfold line_ok, all_digits. apply _. Defined.

(** The header and the five lines of [boundary_input]. *)
Definition header_bytes : list ascii := bytes "city,product,price".

Definition plain_line (city product int frac : string) : line :=
  mkLine (bytes city) (bytes product) (bytes int) (bytes frac) false.

Definition boundary_lines : list line :=
  [plain_line "A" "X" "1" "00"; plain_line "B" "X" "0" "50";
   plain_line "A" "Y" "2" "00"; plain_line "C" "X" "9" "00";
   plain_line "C" "Y" "9" "00"].

(** ** The thread pool as a transition system *)

(** Where a worker stands in [ThreadPool::loop]: in the wait on the
    condition variable, in the call of the job it has popped, or behind
    its [return]. *)
Inductive worker : Type :=
  | Waiting
  | Running (job : Z * Z)
  | Returned.

(** Where the main thread stands in [process_concurrently]: in the [for]
    loop with the chunks still to queue, in [while (thread_pool.busy())],
    at the call of [stop], in the joins of [stop] before thread [i], or
    behind them. *)
Inductive main_pc : Type :=
  | Queueing (todo : list (Z * Z))
  | Polling
  | Stopping
  | Joining (i : nat)
  | Finished.

(** The queue [jobs] with its front first, [should_terminate], the workers
    and [results]; a job is the byte range its closure has captured, and a
    result is lost ([None]) once a job has left the arrays or the file. *)
Record pool : Type := mkPool {
  p_main : main_pc;
  p_jobs : list (Z * Z);
  p_terminate : bool;
  p_threads : list worker;
  p_results : list (option Result)
}.

(** The pool behind [ThreadPool::start], with the chunks [js] to queue. *)
Definition pool_start (num_threads : nat) (js : list (Z * Z)) : pool :=
  mkPool (Queueing js) [] false (replicate num_threads Waiting)
    (replicate num_threads (Some new_Result)).

(** One step of one thread. What a thread does while it holds
    [queue_mutex] is one step; so is the call of a job, which touches
    [results[id]] only. A worker leaves its wait when the queue is not
    empty or [should_terminate] is set, and tests the flag first. *)
Inductive pool_step (mem : list ascii) : pool -> pool -> Prop :=
  | step_queue_job j todo q t ws rs :
      pool_step mem (mkPool (Queueing (j :: todo)) q t ws rs)
        (mkPool (Queueing todo) (q ++ [j]) t ws rs)
  | step_queued q t ws rs :
      pool_step mem (mkPool (Queueing []) q t ws rs) (mkPool Polling q t ws rs)
  | step_busy j q t ws rs :
      pool_step mem (mkPool Polling (j :: q) t ws rs) (mkPool Polling (j :: q) t ws rs)
  | step_idle t ws rs :
      pool_step mem (mkPool Polling [] t ws rs) (mkPool Stopping [] t ws rs)
  | step_stop q t ws rs :
      pool_step mem (mkPool Stopping q t ws rs) (mkPool (Joining 0) q true ws rs)
  | step_join i q t ws rs :
      ws !! i = Some Returned ->
      pool_step mem (mkPool (Joining i) q t ws rs) (mkPool (Joining (S i)) q t ws rs)
  | step_joined q t ws rs :
      pool_step mem (mkPool (Joining (length ws)) q t ws rs) (mkPool Finished q t ws rs)
  | step_take id j q pc ws rs :
      ws !! id = Some Waiting ->
      pool_step mem (mkPool pc (j :: q) false ws rs)
        (mkPool pc q false (<[id := Running j]> ws) rs)
  | step_return id q pc ws rs :
      ws !! id = Some Waiting ->
      pool_step mem (mkPool pc q true ws rs)
        (mkPool pc q true (<[id := Returned]> ws) rs)
  | step_run id j q t pc ws rs r :
      ws !! id = Some (Running j) -> rs !! id = Some r ->
      pool_step mem (mkPool pc q t ws rs)
        (mkPool pc q t (<[id := Waiting]> ws)
           (<[id := r ≫= (fun r => process_chunk r mem (Z.to_nat j.1) (Z.to_nat j.2))]> rs)).

(** The states a run of the pool passes through. *)
Definition pool_reachable (mem : list ascii) (num_threads : nat) (js : list (Z * Z))
  : pool -> Prop :=
  rtc (pool_step mem) (pool_start num_threads js).

(** The worker that has taken the [i]-th job, from the list of the workers
    in the order in which they have taken jobs. *)
Definition sched_of (owner : list nat) (i : nat) : nat := default 0%nat (owner !! i).

Definition todo_of (pc : main_pc) : list (Z * Z) :=
  match pc with Queueing todo => todo | _ => [] end.

(** [results[id]] holds the jobs the worker has taken, but for the one it
    is running. *)
Definition worker_ok (mem : list ascii) (mine : list (Z * Z)) (w : worker)
    (r : option Result) : Prop :=
  match w with
  | Running j => exists before, mine = before ++ [j] /\ r = run_slot mem before
  | _ => r = run_slot mem mine
  end.

Definition main_ok (st : pool) : Prop :=
  match p_main st with
  | Queueing _ | Polling => p_terminate st = false
  | Stopping => p_terminate st = false /\ p_jobs st = []
  | Joining i => p_terminate st = true /\ p_jobs st = [] /\
                 forall id, (id < i)%nat -> p_threads st !! id = Some Returned
  | Finished => p_terminate st = true /\ p_jobs st = [] /\
                Forall (eq Returned) (p_threads st)
  end.

(** What holds in every state of a run, [owner] listing the workers in the
    order in which they have taken jobs. *)
Definition pool_inv (mem : list ascii) (num_threads : nat) (js : list (Z * Z))
    (owner : list nat) (st : pool) : Prop :=
  js = take (length owner) js ++ p_jobs st ++ todo_of (p_main st) /\
  (length owner <= length js)%nat /\
  Forall (fun id => (id < num_threads)%nat) owner /\
  length (p_threads st) = num_threads /\
  length (p_results st) = num_threads /\
  (forall id w, p_threads st !! id = Some w ->
     exists r, p_results st !! id = Some r /\
       worker_ok mem (slot_jobs (sched_of owner) id (take (length owner) js)) w r) /\
  main_ok st /\
  (p_terminate st = false -> Returned ∉ p_threads st).

(** A bound on the steps a state is away from the end of the run, not
    counting the tests of [busy] that find the queue not empty. *)
Definition worker_weight (w : worker) : nat :=
  match w with Waiting => 1 | Running _ => 2 | Returned => 0 end.

Definition main_weight (num_threads : nat) (pc : main_pc) : nat :=
  match pc with
  | Queueing todo => num_threads + 5 + 3 * length todo
  | Polling => num_threads + 4
  | Stopping => num_threads + 3
  | Joining i => num_threads - i + 1
  | Finished => 0
  end.

Definition pool_weight (st : pool) : nat :=
  main_weight (length (p_threads st)) (p_main st) + 2 * length (p_jobs st)
    + sum_list_with worker_weight (p_threads st).

(** The end of the run of one worker on the one chunk of the round-trip
    input cut in blocks of 55 bytes. *)
Definition one_worker_end : pool :=
  mkPool Finished [] true [Returned]
    [Some new_Result
       ≫= (fun r => process_chunk r round_trip_input (Z.to_nat 0) (Z.to_nat 55))].

(** ** An input with more cities than the arrays hold *)

(** 103 lines [i,X,1.00], one city each. *)
Definition many_cities_lines : list line :=
  (fun i : nat => plain_line (pretty i) "X" "1" "00") <$> seq 0 103.


Definition many_cities_records : list record := line_record <$> many_cities_lines.

(** The same records handed to two workers, 52 and 51 cities each. *)
Definition many_cities_split : list (list record) :=
  [take 52 many_cities_records; drop 52 many_cities_records].

(** * Properties *)

(** ** Machine integers *)

Lemma wrap64_id z : in64 z -> wrap64 z = z.
Proof.
  unfold in64, wrap64. intros Hz.
  rewrite Z.mod_small by lia. lia.
Qed.

Lemma wrap32_id z : - 2 ^ 31 <= z < 2 ^ 31 -> wrap32 z = z.
Proof.
  unfold wrap32. intros Hz.
  rewrite Z.mod_small by lia. lia.
Qed.

Lemma wrap64_in64 z : in64 (wrap64 z).
Proof.
  unfold in64, wrap64.
  pose proof (Z.mod_pos_bound (z + 2 ^ 63) (2 ^ 64)). lia.
Qed.

Lemma wrap64_cong z : (wrap64 z) mod 2 ^ 64 = z mod 2 ^ 64.
Proof.
  unfold wrap64.
  rewrite Zminus_mod, Zmod_mod, <- Zminus_mod.
  f_equal. lia.
Qed.

Lemma wrap64_eq_mod a b : a mod 2 ^ 64 = b mod 2 ^ 64 -> wrap64 a = wrap64 b.
Proof.
  unfold wrap64. intros H.
  rewrite (Zplus_mod a), (Zplus_mod b), H. reflexivity.
Qed.

Lemma add64_wrap_l a b : add64 (wrap64 a) b = wrap64 (a + b).
Proof.
  unfold add64. apply wrap64_eq_mod.
  rewrite Zplus_mod, wrap64_cong, <- Zplus_mod. reflexivity.
Qed.

Lemma add64_wrap_r a b : add64 a (wrap64 b) = wrap64 (a + b).
Proof.
  unfold add64. apply wrap64_eq_mod.
  rewrite (Zplus_mod a), wrap64_cong, <- Zplus_mod. reflexivity.
Qed.

Lemma add64_wrap_both a b : add64 (wrap64 a) (wrap64 b) = wrap64 (a + b).
Proof. rewrite add64_wrap_l. apply add64_wrap_r. Qed.

Lemma sub64_wrap_l a b : sub64 (wrap64 a) b = wrap64 (a - b).
Proof.
  unfold sub64. apply wrap64_eq_mod.
  rewrite Zminus_mod, wrap64_cong, <- Zminus_mod. reflexivity.
Qed.

Lemma to_int_id n : Z.of_nat n < 2 ^ 31 -> to_int n = Z.of_nat n.
Proof. intros H. unfold to_int. apply wrap32_id. lia. Qed.

(** One pass of a digit loop, without the intermediate wrap-arounds. *)
Lemma digit_step a c : sub64 (add64 (mul64 a 10) (code c)) 48 = wrap64 (a * 10 + digit_val c).
Proof.
  unfold mul64, digit_val. rewrite add64_wrap_l, sub64_wrap_l.
  f_equal. lia.
Qed.

(** ** Field decoder *)

Lemma is_digit_val c : is_digit c = true -> 0 <= digit_val c <= 9.
Proof.
  unfold is_digit, digit_val. intros H.
  apply andb_prop in H as [H1 H2]. lia.
Qed.

Lemma dec_fold_ge ds a :
  Forall (fun c => is_digit c = true) ds -> 0 <= a ->
  a <= fold_left (fun a c => a * 10 + digit_val c) ds a.
Proof.
  intros Hds. revert a. induction Hds as [|c ds Hc _ IH]; intros a Ha; simpl.
  - lia.
  - apply is_digit_val in Hc.
    etrans; [|apply IH]; lia.
Qed.

Lemma dec_value_nonneg ds :
  Forall (fun c => is_digit c = true) ds -> 0 <= dec_value ds.
Proof. intros Hds. unfold dec_value. by apply dec_fold_ge. Qed.

Lemma integral_loop_digits ds rest start a :
  Forall (fun c => is_digit c = true) ds -> stops rest -> 0 <= a ->
  fold_left (fun a c => a * 10 + digit_val c) ds a < 2 ^ 63 ->
  integral_loop (ds ++ rest) start a =
    ((start + length ds)%nat, fold_left (fun a c => a * 10 + digit_val c) ds a,
     default NUL (head rest)).
Proof.
  intros Hds Hrest. revert start a.
  induction Hds as [|c ds Hc Hds IH]; intros start a Ha Hlt; simpl.
  - rewrite Nat.add_0_r. destruct rest as [|c rest]; simpl in *; [done|].
    by rewrite Hrest.
  - rewrite Hc, digit_step. simpl in Hlt.
    pose proof (is_digit_val _ Hc) as Hv.
    pose proof (dec_fold_ge ds (a * 10 + digit_val c) Hds ltac:(lia)) as Hge.
    rewrite wrap64_id by (unfold in64; lia).
    rewrite IH by (lia || done). do 2 f_equal. lia.
Qed.

Lemma fraction_loop_digits ds rest start a n :
  Forall (fun c => is_digit c = true) ds -> stops rest -> 0 <= a ->
  fold_left (fun a c => a * 10 + digit_val c) ds a < 2 ^ 63 ->
  0 <= n -> n + Z.of_nat (length ds) < 2 ^ 31 ->
  fraction_loop (ds ++ rest) start a n =
    ((start + length ds)%nat, fold_left (fun a c => a * 10 + digit_val c) ds a,
     n + Z.of_nat (length ds)).
Proof.
  intros Hds Hrest. revert start a n.
  induction Hds as [|c ds Hc Hds IH]; intros start a n Ha Hlt Hn Hcount; simpl.
  - rewrite Nat.add_0_r, Z.add_0_r. destruct rest as [|c rest]; simpl in *; [done|].
    by rewrite Hrest.
  - rewrite Hc, digit_step. simpl in Hlt. simpl length in Hcount.
    pose proof (is_digit_val _ Hc) as Hv.
    pose proof (dec_fold_ge ds (a * 10 + digit_val c) Hds ltac:(lia)) as Hge.
    rewrite wrap64_id by (unfold in64; lia).
    rewrite wrap32_id by lia.
    rewrite IH by (lia || done). f_equal; [f_equal|]; lia.
Qed.

Lemma drop_prefix {A} (pre l : list A) : drop (length pre) (pre ++ l) = l.
Proof. by rewrite drop_app_length. Qed.

Lemma peek_app_length pre c rest : peek (pre ++ c :: rest) (length pre) = c.
Proof. unfold peek. by rewrite list_lookup_middle. Qed.

Lemma peek_past mem i : (length mem <= i)%nat -> peek mem i = NUL.
Proof. intros H. unfold peek. by rewrite lookup_ge_None_2. Qed.

Lemma dec_value_app ds fs :
  dec_value (ds ++ fs) = fold_left (fun a c => a * 10 + digit_val c) fs (dec_value ds).
Proof. unfold dec_value. by rewrite fold_left_app. Qed.

Lemma stops_not_dot rest : head rest ≠ Some DOT -> default NUL (head rest) ≠ DOT.
Proof. destruct rest; simpl; [discriminate | congruence]. Qed.

(** A field without a dot: the digits unscaled, one byte skipped. *)
Lemma consume_float_integral pre ds rest :
  all_digits ds -> stops rest -> head rest ≠ Some DOT -> dec_value ds < 2 ^ 63 ->
  consume_float_as_long (pre ++ ds ++ rest) (length pre) =
    (S (length pre + length ds), dec_value ds).
Proof.
  intros Hds Hrest Hdot Hlt. unfold consume_float_as_long.
  rewrite drop_prefix.
  rewrite integral_loop_digits by (done || lia).
  fold (dec_value ds).
  by rewrite bool_decide_eq_false_2 by by apply stops_not_dot.
Qed.

(** A field with a dot: the value of all digits, times ten when exactly one
    digit follows the dot. *)
Lemma consume_float_fraction pre ds fs rest :
  all_digits ds -> all_digits fs -> stops rest ->
  (if decide (length fs = 1%nat) then dec_value (ds ++ fs) * 10
   else dec_value (ds ++ fs)) < 2 ^ 63 ->
  Z.of_nat (length fs) < 2 ^ 31 ->
  (consume_float_as_long (pre ++ ds ++ DOT :: fs ++ rest) (length pre)).2 =
    if decide (length fs = 1%nat) then dec_value (ds ++ fs) * 10
    else dec_value (ds ++ fs).
Proof.
  intros Hds Hfs Hrest Hlt Hlen. unfold consume_float_as_long.
  rewrite drop_prefix.
  pose proof (dec_value_nonneg _ Hds) as Hd0.
  assert (Hall : all_digits (ds ++ fs)) by by apply Forall_app.
  pose proof (dec_value_nonneg _ Hall) as Hv0.
  assert (Hdv : dec_value ds <= dec_value (ds ++ fs)).
  { rewrite dec_value_app. by apply dec_fold_ge. }
  assert (Hmid : dec_value (ds ++ fs) < 2 ^ 63) by (case_decide; lia).
  rewrite integral_loop_digits;
    [|done|reflexivity|lia|change (dec_value ds < 2 ^ 63); lia].
  fold (dec_value ds). simpl head. simpl default.
  rewrite bool_decide_eq_true_2 by done.
  replace (pre ++ ds ++ DOT :: fs ++ rest)
    with ((pre ++ ds ++ [DOT]) ++ fs ++ rest) by by rewrite <- !app_assoc.
  replace (S (length pre + length ds)) with (length (pre ++ ds ++ [DOT]))
    by (rewrite !length_app; simpl; lia).
  rewrite drop_prefix.
  rewrite fraction_loop_digits;
    [|done|done|lia|rewrite <- dec_value_app; lia|lia|lia].
  rewrite <- dec_value_app. simpl.
  destruct (decide (length fs = 1%nat)) as [H1|H1].
  - rewrite bool_decide_eq_true_2 by lia.
    unfold mul64. apply wrap64_id. unfold in64. lia.
  - by rewrite bool_decide_eq_false_2 by lia.
Qed.

(** C6: a field [digits.d] with one fractional digit yields the digits'
    value times ten, a field with two fractional digits the digits' value
    unscaled; [3.5] gives 350 and [1.50] gives 150. *)
Theorem single_fraction_digit_scaled :
  (forall pre ds d rest,
     all_digits ds -> is_digit d = true -> stops rest ->
     (dec_value ds * 10 + digit_val d) * 10 < 2 ^ 63 ->
     (consume_float_as_long (pre ++ ds ++ DOT :: d :: rest) (length pre)).2
       = (dec_value ds * 10 + digit_val d) * 10) /\
  (forall pre ds d1 d2 rest,
     all_digits ds -> is_digit d1 = true -> is_digit d2 = true -> stops rest ->
     dec_value ds * 100 + digit_val d1 * 10 + digit_val d2 < 2 ^ 63 ->
     (consume_float_as_long (pre ++ ds ++ DOT :: d1 :: d2 :: rest) (length pre)).2
       = dec_value ds * 100 + digit_val d1 * 10 + digit_val d2) /\
  (consume_float_as_long (bytes "3.5" ++ [LF]) 0).2 = 350 /\
  (consume_float_as_long (bytes "1.50" ++ [LF]) 0).2 = 150.
Proof.
  split; [|split; [|split; reflexivity]].
  - intros pre ds d rest Hds Hd Hrest Hlt.
    pose proof (consume_float_fraction pre ds [d] rest Hds) as H.
    simpl in H. rewrite H; clear H.
    + rewrite dec_value_app. reflexivity.
    + by repeat constructor.
    + done.
    + rewrite dec_value_app. simpl. lia.
    + lia.
  - intros pre ds d1 d2 rest Hds Hd1 Hd2 Hrest Hlt.
    pose proof (consume_float_fraction pre ds [d1; d2] rest Hds) as H.
    simpl in H. rewrite H; clear H.
    + rewrite dec_value_app. simpl. lia.
    + by repeat constructor.
    + done.
    + rewrite dec_value_app. simpl. lia.
    + lia.
Qed.

Lemma single_fraction_digit_scaled_witness :
  (consume_float_as_long ([] ++ bytes "3" ++ DOT :: "5"%char :: [LF]) 0).2 = 350.
Proof.
  refine (proj1 single_fraction_digit_scaled [] (bytes "3") "5"%char [LF] _ _ _ _).
  - repeat constructor.
  - reflexivity.
  - reflexivity.
  - vm_compute. reflexivity.
Defined.

(** C10: a field of digits without a dot yields the digits' value unscaled
    ([3] gives 3, not 300) and the cursor moves past the digits and one
    more byte only: after [3\r\n] the newline is still unread, whereas the
    fractional branch skips both bytes. *)
Theorem integral_field_unscaled :
  (forall pre ds rest,
     all_digits ds -> stops rest -> head rest ≠ Some DOT -> dec_value ds < 2 ^ 63 ->
     consume_float_as_long (pre ++ ds ++ rest) (length pre) =
       (S (length pre + length ds), dec_value ds)) /\
  consume_float_as_long (bytes "3" ++ [LF]) 0 = (2%nat, 3) /\
  consume_float_as_long (bytes "3" ++ [CR; LF]) 0 = (2%nat, 3) /\
  peek (bytes "3" ++ [CR; LF]) 2 = LF /\
  consume_float_as_long (bytes "3.5" ++ [CR; LF]) 0 = (5%nat, 350).
Proof.
  split; [|repeat split; reflexivity].
  intros. by apply consume_float_integral.
Qed.

Lemma integral_field_unscaled_witness :
  consume_float_as_long ([] ++ bytes "3" ++ [CR; LF]) 0 = (2%nat, 3).
Proof.
  refine (proj1 integral_field_unscaled [] (bytes "3") [CR; LF] _ _ _ _).
  - repeat constructor.
  - reflexivity.
  - simpl. discriminate.
  - vm_compute. reflexivity.
Defined.

(** ** Entity dictionary *)

Lemma find_or_create_hit (m : gmap string Z) k i :
  m !! k = Some i -> find_or_create m k = (i, m).
Proof. intros H. unfold find_or_create. by rewrite H. Qed.

Lemma find_or_create_miss (m : gmap string Z) k :
  m !! k = None -> Z.of_nat (size m) < 2 ^ 31 ->
  find_or_create m k = (Z.of_nat (size m), <[k := Z.of_nat (size m)]> m).
Proof. intros H Hs. unfold find_or_create. by rewrite H, to_int_id. Qed.

Lemma find_or_create_lookup (m : gmap string Z) k :
  (find_or_create m k).2 !! k = Some (find_or_create m k).1.
Proof.
  unfold find_or_create. destruct (m !! k) eqn:E; simpl; [done|].
  by rewrite lookup_insert_eq.
Qed.

Lemma find_or_create_other (m : gmap string Z) k k' :
  k ≠ k' -> (find_or_create m k).2 !! k' = m !! k'.
Proof.
  intros Hne. unfold find_or_create. destruct (m !! k) eqn:E; simpl; [done|].
  by rewrite lookup_insert_ne.
Qed.

Lemma find_or_create_dom (m : gmap string Z) k :
  dom (find_or_create m k).2 = {[k]} ∪ dom m.
Proof.
  unfold find_or_create. destruct (m !! k) eqn:E; simpl.
  - symmetry. apply subseteq_union_1_L, singleton_subseteq_l.
    apply elem_of_dom. eauto.
  - by rewrite dom_insert_L.
Qed.

Lemma dense_empty : dense ∅.
Proof.
  split; [|split].
  - intros k i H. by rewrite lookup_empty in H.
  - intros k1 k2 i H. by rewrite lookup_empty in H.
  - intros i. rewrite map_size_empty. lia.
Qed.

Lemma dense_insert (m : gmap string Z) k :
  dense m -> m !! k = None -> dense (<[k := Z.of_nat (size m)]> m).
Proof.
  intros (Hrange & Hinj & Hsurj) Hk.
  assert (Hsize : size (<[k := Z.of_nat (size m)]> m) = S (size m))
    by by apply map_size_insert_None.
  split; [|split].
  - intros k' i. rewrite Hsize, lookup_insert.
    case_decide; [intros [= <-]; lia|].
    intros Hi. apply Hrange in Hi. lia.
  - intros k1 k2 i. rewrite !lookup_insert.
    repeat case_decide; subst; try done.
    + intros [= <-] Hi. apply Hrange in Hi. lia.
    + intros Hi [= <-]. apply Hrange in Hi. lia.
    + apply Hinj.
  - intros i. rewrite Hsize. intros Hi.
    destruct (decide (i = Z.of_nat (size m))) as [->|Hne].
    + exists k. by rewrite lookup_insert_eq.
    + destruct (Hsurj i) as [k' Hk']; [lia|].
      exists k'. rewrite lookup_insert_ne; [done|]. congruence.
Qed.

Lemma find_or_create_dense (m : gmap string Z) k :
  dense m -> Z.of_nat (size m) < 2 ^ 31 -> dense (find_or_create m k).2.
Proof.
  intros Hd Hs. destruct (m !! k) as [i|] eqn:E.
  - by rewrite (find_or_create_hit _ _ _ E).
  - rewrite (find_or_create_miss _ _ E Hs). by apply dense_insert.
Qed.

Lemma tracks_empty : tracks ∅ [].
Proof.
  split; [constructor|]. split; [done|].
  intros k v. rewrite lookup_empty. split; [done|]. by intros [_ ?].
Qed.

Lemma tracks_elem m seen k : tracks m seen -> k ∈ seen <-> is_Some (m !! k).
Proof.
  intros (Hnd & Hsz & Hm). split.
  - intros [i Hi]%list_elem_of_lookup. exists (Z.of_nat i).
    apply Hm. rewrite Nat2Z.id. split; [lia|done].
  - intros [v [_ Hv]%Hm]. by eapply list_elem_of_lookup_2.
Qed.

Lemma tracks_step m seen k :
  tracks m seen -> Z.of_nat (length seen) < 2 ^ 31 ->
  tracks (find_or_create m k).2
    (if bool_decide (k ∈ seen) then seen else seen ++ [k]).
Proof.
  intros Ht Hlen. pose proof Ht as (Hnd & Hsz & Hm).
  case_bool_decide as Hin.
  - apply (tracks_elem _ _ _ Ht) in Hin as [i Hi].
    by rewrite (find_or_create_hit _ _ _ Hi).
  - assert (Hk : m !! k = None).
    { apply eq_None_not_Some. by rewrite <- (tracks_elem _ _ _ Ht). }
    rewrite (find_or_create_miss _ _ Hk) by lia. simpl.
    split; [|split].
    + apply NoDup_app. split; [done|]. split; [|apply NoDup_singleton].
      intros x Hx ->%list_elem_of_singleton. done.
    + rewrite map_size_insert_None by done. rewrite length_app. simpl. lia.
    + intros k' v. rewrite lookup_insert. case_decide as Hkk.
      * subst k'. split.
        -- intros [= <-]. split; [lia|].
           rewrite Nat2Z.id, Hsz. by rewrite list_lookup_middle.
        -- intros [Hv0 Hv]. f_equal.
           destruct (decide (Z.to_nat v < length seen)%nat) as [Hlt|Hge].
           ++ rewrite lookup_app_l in Hv by done.
              exfalso. apply Hin. by eapply list_elem_of_lookup_2.
           ++ apply lookup_lt_Some in Hv. rewrite length_app in Hv.
              simpl in Hv. lia.
      * rewrite Hm. split.
        -- intros [Hv0 Hv]. split; [done|].
           rewrite lookup_app_l; [done|]. by eapply lookup_lt_Some.
        -- intros [Hv0 Hv]. split; [done|].
           destruct (decide (Z.to_nat v < length seen)%nat) as [Hlt|Hge].
           ++ by rewrite lookup_app_l in Hv.
           ++ rewrite lookup_app_r in Hv by lia.
              destruct (Z.to_nat v - length seen)%nat; simpl in Hv; [|done].
              congruence.
Qed.

Lemma first_seen_length seen ks :
  (length (first_seen seen ks) <= length seen + length ks)%nat.
Proof.
  revert seen. induction ks as [|k ks IH]; intros seen; simpl; [lia|].
  case_bool_decide.
  - specialize (IH seen). lia.
  - specialize (IH (seen ++ [k])). rewrite length_app in IH. simpl in IH. lia.
Qed.

Lemma tracks_intern_all ks m seen :
  tracks m seen -> Z.of_nat (length seen + length ks) < 2 ^ 31 ->
  tracks (intern_all ks m) (first_seen seen ks).
Proof.
  revert m seen. induction ks as [|k ks IH]; intros m seen Ht Hlen; simpl; [done|].
  simpl in Hlen.
  pose proof (tracks_step m seen k Ht ltac:(lia)) as Hstep.
  case_bool_decide.
  - apply IH; [done|lia].
  - apply IH; [done|]. rewrite length_app. simpl. lia.
Qed.

Lemma tracks_dense m seen : tracks m seen -> dense m.
Proof.
  intros (Hnd & Hsz & Hm). split; [|split].
  - intros k i [Hi Hk]%Hm. apply lookup_lt_Some in Hk. lia.
  - intros k1 k2 i [_ H1]%Hm [_ H2]%Hm. congruence.
  - intros i Hi. destruct (lookup_lt_is_Some_2 seen (Z.to_nat i)) as [k Hk]; [lia|].
    exists k. apply Hm. split; [lia|done].
Qed.

(** C7: interning a key twice returns the same identifier and leaves the
    dictionary as the first call left it; a key not yet present gets the
    current size as identifier and the size grows by one, a key present
    leaves the dictionary unchanged; identifiers stay exactly [0, size),
    and after interning a sequence of keys into an empty dictionary a key's
    identifier is its position in first-seen order. *)
Theorem find_or_create_idempotent :
  (forall (m : gmap string Z) k,
     Z.of_nat (size m) < 2 ^ 31 ->
     find_or_create (find_or_create m k).2 k
       = ((find_or_create m k).1, (find_or_create m k).2) /\
     (m !! k = None ->
        (find_or_create m k).1 = Z.of_nat (size m) /\
        size (find_or_create m k).2 = S (size m)) /\
     (forall i, m !! k = Some i -> find_or_create m k = (i, m)) /\
     (dense m -> dense (find_or_create m k).2)) /\
  (forall ks,
     Z.of_nat (length ks) < 2 ^ 31 ->
     dense (intern_all ks ∅) /\
     forall k i, intern_all ks ∅ !! k = Some i <->
                 0 <= i /\ first_seen [] ks !! Z.to_nat i = Some k).
Proof.
  split.
  - intros m k Hs. split; [|split; [|split]].
    + apply find_or_create_hit, find_or_create_lookup.
    + intros Hk. rewrite (find_or_create_miss _ _ Hk Hs). simpl.
      split; [done|]. by apply map_size_insert_None.
    + apply find_or_create_hit.
    + intros Hd. by apply find_or_create_dense.
  - intros ks Hlen.
    pose proof (tracks_intern_all ks ∅ [] tracks_empty Hlen) as Ht.
    split; [by eapply tracks_dense|]. apply Ht.
Qed.

Lemma find_or_create_idempotent_witness :
  find_or_create (find_or_create {["Casablanca"%string := 0]} "Rabat"%string).2 "Rabat"%string
    = (1, <["Rabat"%string := 1]> {["Casablanca"%string := 0]}).
Proof.
  refine (proj1 (proj1 find_or_create_idempotent {["Casablanca"%string := 0]} "Rabat"%string _)).
  vm_compute. reflexivity.
Defined.

(** ** Cursor movement *)

Lemma consume_str_loop_ge rest start s :
  (start <= (consume_str_loop rest start s).1)%nat.
Proof.
  revert start s. induction rest as [|c rest IH]; intros start s; simpl; [lia|].
  destruct (_ && _); simpl; [|lia].
  specialize (IH (S start) (s +:+ String c EmptyString)). lia.
Qed.

Lemma integral_loop_ge rest start a :
  (start <= (integral_loop rest start a).1.1)%nat.
Proof.
  revert start a. induction rest as [|c rest IH]; intros start a; simpl; [lia|].
  destruct (is_digit c); simpl; [|lia].
  specialize (IH (S start) (sub64 (add64 (mul64 a 10) (code c)) 48)). lia.
Qed.

Lemma fraction_loop_ge rest start a n :
  (start <= (fraction_loop rest start a n).1.1)%nat.
Proof.
  revert start a n. induction rest as [|c rest IH]; intros start a n; simpl; [lia|].
  destruct (is_digit c); simpl; [|lia].
  specialize (IH (S start) (sub64 (add64 (mul64 a 10) (code c)) 48) (wrap32 (n + 1))).
  lia.
Qed.

Lemma consume_str_advance mem cur s : (cur < (consume_str mem cur s).1)%nat.
Proof.
  unfold consume_str.
  pose proof (consume_str_loop_ge (drop cur mem) cur s) as H.
  destruct (consume_str_loop (drop cur mem) cur s) as [p s']. simpl in *. lia.
Qed.

Lemma consume_float_advance mem cur :
  (cur < (consume_float_as_long mem cur).1)%nat.
Proof.
  unfold consume_float_as_long.
  pose proof (integral_loop_ge (drop cur mem) cur 0) as H1.
  destruct (integral_loop (drop cur mem) cur 0) as [[p a] c]. simpl in H1.
  case_bool_decide; simpl; [|lia].
  pose proof (fraction_loop_ge (drop (S p) mem) (S p) a 0) as H2.
  destruct (fraction_loop (drop (S p) mem) (S p) a 0) as [[q b] n]. simpl in H2.
  case_bool_decide; simpl; lia.
Qed.

Lemma read_record_advance mem cur : (cur < (read_record mem cur).1)%nat.
Proof.
  unfold read_record.
  pose proof (consume_str_advance mem cur "") as H1.
  destruct (consume_str mem cur "") as [c1 city]. simpl in H1.
  pose proof (consume_str_advance mem c1 "") as H2.
  destruct (consume_str mem c1 "") as [c2 product]. simpl in H2.
  pose proof (consume_float_advance mem c2) as H3.
  destruct (consume_float_as_long mem c2) as [c3 price]. simpl in *. lia.
Qed.

Lemma rawmemchr_ge rest start p : rawmemchr rest start = Some p -> (start <= p)%nat.
Proof.
  revert start. induction rest as [|c rest IH]; intros start; simpl; [done|].
  case_bool_decide as Hc; [intros [= <-]; lia|].
  intros Hp. apply IH in Hp. lia.
Qed.

Lemma realign_gt mem start p : realign mem start = Some p -> (start < p)%nat.
Proof.
  unfold realign. case_bool_decide; simpl.
  - destruct (rawmemchr (drop start mem) start) as [q|] eqn:E; simpl; [|done].
    apply rawmemchr_ge in E. intros [= <-]. lia.
  - intros [= <-]. lia.
Qed.

(** ** The loop of [process_chunk] *)

(** More passes than [end - cur] change nothing: the loop has ended. *)
Lemma process_chunk_loop_fuel f1 f2 r mem cur end_ :
  (end_ - cur <= f1)%nat -> (end_ - cur <= f2)%nat ->
  process_chunk_loop f1 r mem cur end_ = process_chunk_loop f2 r mem cur end_.
Proof.
  revert f2 r cur. induction f1 as [|f1 IH]; intros f2 r cur H1 H2.
  - destruct f2; simpl; [done|]. case_decide; [lia|done].
  - destruct f2 as [|f2]; simpl.
    + case_decide; [lia|done].
    + case_decide; [|done].
      pose proof (read_record_advance mem cur) as Hadv.
      destruct (read_record mem cur) as [cur' rec]. simpl in Hadv.
      destruct (aggregate r rec) as [r'|]; simpl; [|done].
      apply IH; lia.
Qed.

Lemma process_chunk_loop_records fuel r mem cur end_ :
  process_chunk_loop fuel r mem cur end_ =
    fold_opt aggregate r (chunk_records_loop fuel mem cur end_).*2.
Proof.
  revert r cur. induction fuel as [|fuel IH]; intros r cur; simpl; [done|].
  case_decide; [|done].
  destruct (read_record mem cur) as [cur' rec]. simpl.
  destruct (aggregate r rec) as [r'|]; simpl; [|done]. apply IH.
Qed.

Lemma process_chunk_records r mem start end_ :
  is_Some (realign mem start) ->
  process_chunk r mem start end_ =
    fold_opt aggregate r (chunk_records mem start end_).*2.
Proof.
  intros [p Hp]. unfold process_chunk, chunk_records. rewrite Hp. simpl.
  apply process_chunk_loop_records.
Qed.

Lemma chunk_records_loop_starts fuel mem cur end_ p :
  p ∈ (chunk_records_loop fuel mem cur end_).*1 -> (cur <= p < end_)%nat.
Proof.
  revert cur. induction fuel as [|fuel IH]; intros cur; simpl.
  - by intros ?%elem_of_nil.
  - case_decide; [|by intros ?%elem_of_nil].
    pose proof (read_record_advance mem cur) as Hadv.
    destruct (read_record mem cur) as [cur' rec]. simpl in *.
    intros [->|Hin]%elem_of_cons; [lia|].
    apply IH in Hin. lia.
Qed.

(** A chunk only reads records that start strictly inside it. *)
Lemma chunk_records_starts mem start end_ p :
  p ∈ (chunk_records mem start end_).*1 -> (start < p < end_)%nat.
Proof.
  unfold chunk_records. destruct (realign mem start) as [q|] eqn:E.
  - apply realign_gt in E. intros Hp. apply chunk_records_loop_starts in Hp. lia.
  - by intros ?%elem_of_nil.
Qed.

(** ** Chunk partitioner *)

Lemma chunk_jobs_elem n i bs file_size chunks_count job :
  job ∈ chunk_jobs n i bs file_size chunks_count ->
  exists j, i <= j < i + Z.of_nat n /\
    job = (j * bs, if decide (j + 1 = chunks_count) then file_size else (j + 1) * bs).
Proof.
  revert i. induction n as [|n IH]; intros i; simpl.
  - by intros ?%elem_of_nil.
  - case_decide; [by intros ?%elem_of_nil|].
    intros [->|Hin]%elem_of_cons.
    + exists i. split; [lia|done].
    + apply IH in Hin as (j & Hj & ->). exists j. split; [lia|done].
Qed.

Lemma jobs_elem bs file_size job :
  job ∈ jobs bs file_size ->
  exists j, 0 <= j < file_size / bs /\
    job = (j * bs, if decide (j + 1 = file_size / bs) then file_size else (j + 1) * bs).
Proof.
  unfold jobs. intros (j & Hj & ->)%chunk_jobs_elem.
  exists j. split; [lia|done].
Qed.

Lemma jobs_small bs file_size : 0 <= file_size < bs -> jobs bs file_size = [].
Proof. intros H. unfold jobs. by rewrite Z.div_small. Qed.

Lemma jobs_disjoint_lt bs file_size j1 j2 p :
  0 < bs -> 0 <= j1 < j2 -> j2 < file_size / bs ->
  (p < Z.to_nat (if decide (j1 + 1 = file_size / bs) then file_size
                 else (j1 + 1) * bs)%Z)%nat ->
  (Z.to_nat (j2 * bs) < p)%nat -> False.
Proof.
  intros Hbs Hj Hcount Hp1 Hp2.
  rewrite decide_False in Hp1 by lia.
  assert ((j1 + 1) * bs <= j2 * bs) by nia. lia.
Qed.

(** No record is read by two chunks. *)
Lemma chunks_read_disjoint bs mem job1 job2 p :
  0 < bs ->
  job1 ∈ jobs bs (Z.of_nat (length mem)) -> job2 ∈ jobs bs (Z.of_nat (length mem)) ->
  p ∈ (chunk_records mem (Z.to_nat job1.1) (Z.to_nat job1.2)).*1 ->
  p ∈ (chunk_records mem (Z.to_nat job2.1) (Z.to_nat job2.2)).*1 ->
  job1 = job2.
Proof.
  intros Hbs (j1 & Hj1 & ->)%jobs_elem (j2 & Hj2 & ->)%jobs_elem Hp1 Hp2.
  apply chunk_records_starts in Hp1, Hp2. simpl in Hp1, Hp2.
  destruct (Z.lt_total j1 j2) as [Hlt|[->|Hgt]]; [|done|].
  - exfalso.
    apply (jobs_disjoint_lt bs (Z.of_nat (length mem)) j1 j2 p); [done|lia|lia|apply Hp1|lia].
  - exfalso.
    apply (jobs_disjoint_lt bs (Z.of_nat (length mem)) j2 j1 p); [done|lia|lia|apply Hp2|lia].
Qed.

(** A file of one to two blocks is one chunk. *)
Lemma jobs_one_chunk bs file_size :
  0 < bs -> bs <= file_size < 2 * bs -> jobs bs file_size = [(0, file_size)].
Proof.
  intros Hbs Hsize. unfold jobs.
  assert (Hdiv : file_size / bs = 1).
  { symmetry. apply (Z.div_unique file_size bs 1 (file_size - bs)); lia. }
  rewrite Hdiv. simpl.
  rewrite decide_False by lia. done.
Qed.

(** C8: no record is read by two chunks, but a record that starts exactly
    at a chunk boundary [k * bs] is read by no chunk, for whatever block
    size: the chunk before it stops at its end, the chunk after it realigns
    past the record. In [boundary_input] the record [B,X,0.50] starts at
    offset 28; with a block size of 28 it is lost and the report names city
    A, with a block size of 32 it is read and the report names city B. *)
Theorem boundary_record_dropped :
  (forall bs mem k job,
     0 < bs -> 0 < k < Z.of_nat (length mem) / bs ->
     job ∈ jobs bs (Z.of_nat (length mem)) ->
     Z.to_nat (k * bs) ∉ (chunk_records mem (Z.to_nat job.1) (Z.to_nat job.2)).*1) /\
  (forall bs mem job1 job2 p,
     0 < bs ->
     job1 ∈ jobs bs (Z.of_nat (length mem)) -> job2 ∈ jobs bs (Z.of_nat (length mem)) ->
     p ∈ (chunk_records mem (Z.to_nat job1.1) (Z.to_nat job1.2)).*1 ->
     p ∈ (chunk_records mem (Z.to_nat job2.1) (Z.to_nat job2.2)).*1 ->
     job1 = job2) /\
  peek boundary_input 27 = LF /\
  read_record boundary_input 28 = (37%nat, ("B"%string, "X"%string, 50)) /\
  jobs 28 (Z.of_nat (length boundary_input)) = [(0, 28); (28, 64)] /\
  (chunk_records boundary_input 0 28).*2 = [("A"%string, "X"%string, 100)] /\
  (chunk_records boundary_input 28 64).*2 =
    [("A"%string, "Y"%string, 200); ("C"%string, "X"%string, 900);
     ("C"%string, "Y"%string, 900)] /\
  take 1 <$> run_with table_order 28 2 alternate boundary_input
    = Some [("A"%string, 300)] /\
  take 1 <$> run_with table_order 32 2 alternate boundary_input
    = Some [("B"%string, 50)].
Proof.
  split; [|split; [apply chunks_read_disjoint|repeat split; vm_compute; reflexivity]].
  intros bs mem k job Hbs Hk Hjob Hin.
  apply jobs_elem in Hjob as (j & Hj & ->).
  apply chunk_records_starts in Hin. simpl in Hin.
  set (count := Z.of_nat (length mem) / bs) in *.
  assert (Hjk : j < k) by nia.
  case_decide as Hlast; [lia|].
  assert (k * bs < (j + 1) * bs) by lia. nia.
Qed.

Lemma boundary_record_dropped_witness :
  Z.to_nat (1 * 28) ∉ (chunk_records boundary_input (Z.to_nat 28) (Z.to_nat 64)).*1.
Proof.
  refine (proj1 boundary_record_dropped 28 boundary_input 1 (28, 64) _ _ _).
  - lia.
  - vm_compute. split; reflexivity.
  - vm_compute. right. left.
Defined.

(** ** Runs that queue no job *)

Lemma mapM_const {A B} (y : B) (f : A -> option B) (l : list A) :
  (forall x, x ∈ l -> f x = Some y) -> mapM f l = Some (replicate (length l) y).
Proof.
  intros Hf. apply mapM_Some. induction l as [|x l IH]; simpl; [constructor|].
  constructor.
  - apply Hf. left.
  - apply IH. intros x' Hx'. apply Hf. by right.
Qed.

Lemma process_concurrently_small num_threads sched mem :
  Z.of_nat (length mem) < block_size ->
  process_concurrently num_threads sched mem = Some (replicate num_threads new_Result).
Proof.
  intros Hlen. unfold process_concurrently, process_concurrently_with.
  rewrite jobs_small by lia.
  rewrite decide_False by (intros [_ H]; done).
  rewrite (mapM_const new_Result); [by rewrite length_seq|done].
Qed.

Section Order.

Context (iter : gmap string Z -> list (string * Z)).
Context (iter_perm : forall m, iter m ≡ₚ map_to_list m).

Lemma iter_empty : iter ∅ = [].
Proof.
  apply Permutation_nil_r. rewrite iter_perm. by rewrite map_to_list_empty.
Qed.

Lemma merge_result_new mr : merge_result iter mr new_Result = Some mr.
Proof. unfold merge_result. simpl. by rewrite iter_empty. Qed.

Lemma fold_merge_new mr n :
  fold_opt (merge_result iter) mr (replicate n new_Result) = Some mr.
Proof.
  induction n as [|n IH]; simpl; [done|].
  by rewrite merge_result_new.
Qed.

Lemma ans_new : ans iter new_Result = Some no_data_report.
Proof.
  unfold ans, select_city, product_entries. simpl.
  rewrite iter_empty. reflexivity.
Qed.

(** A file shorter than one block: nothing is read, whatever it holds. *)
Lemma run_small num_threads sched mem :
  Z.of_nat (length mem) < block_size ->
  run iter num_threads sched mem = Some no_data_report.
Proof.
  intros Hlen. unfold run, run_with.
  fold process_concurrently. rewrite process_concurrently_small by done.
  simpl. unfold merge. rewrite fold_merge_new. simpl. apply ans_new.
Qed.

End Order.

Lemma table_order_perm (m : gmap string Z) : table_order m ≡ₚ map_to_list m.
Proof. done. Qed.

(** C2: for a file of length [0 < L < block_size] the partitioner computes
    [L / block_size = 0] chunks: no job is queued, every worker's aggregate
    stays empty and the report is the one of an empty aggregate, although
    the file holds records, as the round-trip input does. Only from one
    block on is there a chunk, which covers the whole file up to two
    blocks. *)
Theorem small_file_no_chunk :
  (forall file_size, 0 < file_size < block_size -> jobs block_size file_size = []) /\
  (forall file_size,
     block_size <= file_size < 2 * block_size ->
     jobs block_size file_size = [(0, file_size)]) /\
  (forall num_threads sched mem,
     Z.of_nat (length mem) < block_size ->
     process_concurrently num_threads sched mem
       = Some (replicate num_threads new_Result)) /\
  (chunk_records round_trip_input 0 (length round_trip_input)).*2 =
    [("A"%string, "X"%string, 150); ("A"%string, "Y"%string, 200);
     ("B"%string, "X"%string, 100); ("B"%string, "X"%string, 50)] /\
  run table_order 4 alternate round_trip_input = Some no_data_report.
Proof.
  split; [|split; [|split; [|split]]].
  - intros L HL. apply jobs_small. lia.
  - intros L HL. by apply jobs_one_chunk.
  - apply process_concurrently_small.
  - vm_compute. reflexivity.
  - apply run_small; [apply table_order_perm|]. vm_compute. reflexivity.
Qed.

Lemma small_file_no_chunk_witness :
  jobs block_size (Z.of_nat (length round_trip_input)) = [].
Proof.
  refine (proj1 small_file_no_chunk (Z.of_nat (length round_trip_input)) _).
  vm_compute. split; reflexivity.
Defined.

(** ** Arrays *)

Lemma index_Some i : 0 <= i < Z.of_nat NUM_CITIES -> index i = Some (Z.to_nat i).
Proof. intros H. unfold index. by rewrite decide_True. Qed.

Lemma index_None i : ¬ (0 <= i < Z.of_nat NUM_CITIES) -> index i = None.
Proof. intros H. unfold index. by rewrite decide_False. Qed.

Lemma get1_in a i : 0 <= i < Z.of_nat NUM_CITIES -> get1 a i = a !! Z.to_nat i.
Proof. intros H. unfold get1. by rewrite index_Some. Qed.

Lemma set1_in a i v :
  0 <= i < Z.of_nat NUM_CITIES -> set1 a i v = Some (<[Z.to_nat i := v]> a).
Proof. intros H. unfold set1. by rewrite index_Some. Qed.

Lemma get2_in a i j :
  0 <= i < Z.of_nat NUM_CITIES -> 0 <= j < Z.of_nat NUM_CITIES ->
  get2 a i j = cell a (Z.to_nat i) (Z.to_nat j).
Proof. intros Hi Hj. unfold get2. by rewrite !index_Some. Qed.

Lemma set2_in a i j v row :
  0 <= i < Z.of_nat NUM_CITIES -> 0 <= j < Z.of_nat NUM_CITIES ->
  a !! Z.to_nat i = Some row ->
  set2 a i j v = Some (<[Z.to_nat i := <[Z.to_nat j := v]> row]> a).
Proof. intros Hi Hj Hrow. unfold set2. rewrite !index_Some by done. simpl. by rewrite Hrow. Qed.

Lemma cell_insert pc i j v row i' j' :
  pc !! i = Some row -> (j < length row)%nat ->
  cell (<[i := <[j := v]> row]> pc) i' j' =
    if decide (i' = i /\ j' = j) then Some v else cell pc i' j'.
Proof.
  intros Hrow Hj. unfold cell.
  assert (Hi : (i < length pc)%nat) by by eapply lookup_lt_Some.
  destruct (decide (i' = i)) as [->|Hne].
  - rewrite list_lookup_insert_eq by done. simpl.
    destruct (decide (j' = j)) as [->|Hnj].
    + rewrite decide_True by done. by rewrite list_lookup_insert_eq.
    + rewrite decide_False by (intros [_ ?]; done).
      rewrite list_lookup_insert_ne by done. by rewrite Hrow.
  - rewrite decide_False by (intros [? _]; done).
    by rewrite list_lookup_insert_ne.
Qed.

(** ** Dictionaries inside an aggregate *)

Lemma dense_range m k i : dense m -> m !! k = Some i -> 0 <= i < Z.of_nat (size m).
Proof. intros (H & _ & _). apply H. Qed.

Lemma dense_inj m k1 k2 i : dense m -> m !! k1 = Some i -> m !! k2 = Some i -> k1 = k2.
Proof. intros (_ & H & _). apply H. Qed.

Lemma extends_refl m : extends m m.
Proof.
  split; [done|]. split; [done|]. intros k i H1 H2. congruence.
Qed.

Lemma extends_None m m' k : extends m m' -> m' !! k = None -> m !! k = None.
Proof.
  intros (_ & Hkeep & _) Hk. destruct (m !! k) as [i|] eqn:E; [|done].
  apply Hkeep in E. congruence.
Qed.

(** What [find_or_create] does to a dictionary with room for the key. *)
Lemma find_or_create_ok m k :
  dict_ok m -> (is_Some (m !! k) \/ (size m < NUM_CITIES)%nat) ->
  let id := (find_or_create m k).1 in
  let m' := (find_or_create m k).2 in
  dict_ok m' /\ extends m m' /\ m' !! k = Some id /\
  dom m' = {[k]} ∪ dom m.
Proof.
  intros [Hd Hsz] Hroom. simpl.
  assert (Hs31 : Z.of_nat (size m) < 2 ^ 31).
  { unfold NUM_CITIES in Hsz. lia. }
  split; [|split; [|split]].
  - split; [by apply find_or_create_dense|].
    destruct (m !! k) as [i|] eqn:E.
    + by rewrite (find_or_create_hit _ _ _ E).
    + rewrite (find_or_create_miss _ _ E Hs31). simpl.
      rewrite map_size_insert_None by done.
      destruct Hroom as [[? ?]|?]; [done|lia].
  - destruct (m !! k) as [i|] eqn:E.
    + rewrite (find_or_create_hit _ _ _ E). apply extends_refl.
    + rewrite (find_or_create_miss _ _ E Hs31). simpl.
      split; [rewrite map_size_insert_None by done; lia|]. split.
      * intros k' i Hk'. rewrite lookup_insert_ne; [done|]. congruence.
      * intros k' i. rewrite lookup_insert. case_decide; [|congruence].
        intros [= <-] _. lia.
  - apply find_or_create_lookup.
  - apply find_or_create_dom.
Qed.

(** ** Views are stable when a dictionary grows *)

Lemma totals_extend m m' cc :
  totals_ok m cc -> extends m m' ->
  totals_ok m' cc /\ forall c, total_view m' cc c = total_view m cc c.
Proof.
  intros (Hlen & H64 & Hzero) (Hsz & Hkeep & Hnew). split.
  - split; [done|]. split; [done|].
    intros i v Hv Hi. apply (Hzero i v Hv). lia.
  - intros c. unfold total_view.
    destruct (m' !! c) as [i|] eqn:E'; simpl.
    + destruct (m !! c) as [i0|] eqn:E; simpl.
      * apply Hkeep in E. congruence.
      * specialize (Hnew _ _ E' E).
        unfold get1, index. case_decide; simpl; [|done].
        destruct (cc !! Z.to_nat i) as [v|] eqn:Ev; simpl; [|done].
        apply (Hzero _ _ Ev). lia.
    + by rewrite (extends_None _ _ _ ltac:(split; [exact Hsz|split; [exact Hkeep|exact Hnew]]) E').
Qed.

Lemma get2_fresh mc mp pc i j :
  cells_ok mc mp pc ->
  Z.of_nat (size mc) <= i \/ Z.of_nat (size mp) <= j ->
  default SENTINEL (get2 pc i j) = SENTINEL.
Proof.
  intros (Hlen & Hrows & Hle & Hfresh) Hij.
  destruct (decide (0 <= i < Z.of_nat NUM_CITIES)) as [Hi|Hi];
    [|by unfold get2; rewrite (index_None i)].
  destruct (decide (0 <= j < Z.of_nat NUM_CITIES)) as [Hj|Hj];
    [|by unfold get2; rewrite (index_Some i), (index_None j)].
  rewrite get2_in by done.
  destruct (cell pc (Z.to_nat i) (Z.to_nat j)) as [v|] eqn:Ev; simpl; [|done].
  apply (Hfresh (Z.to_nat i) (Z.to_nat j) v Ev). lia.
Qed.

Lemma cells_extend mc mc' mp mp' pc :
  cells_ok mc mp pc -> extends mc mc' -> extends mp mp' ->
  cells_ok mc' mp' pc /\
  forall c p, min_view mc' mp' pc c p = min_view mc mp pc c p.
Proof.
  intros Hok Hc Hp.
  pose proof Hok as (Hlen & Hrows & Hle & Hfresh).
  pose proof Hc as (Hcsz & Hckeep & Hcnew).
  pose proof Hp as (Hpsz & Hpkeep & Hpnew).
  split.
  - split; [done|]. split; [done|]. split; [done|].
    intros i j v Hv Hij. apply (Hfresh i j v Hv). lia.
  - intros c p. unfold min_view.
    destruct (mc' !! c) as [i|] eqn:Ec'; simpl.
    + destruct (mp' !! p) as [j|] eqn:Ep'; simpl.
      * destruct (mc !! c) as [i0|] eqn:Ec; simpl.
        -- apply Hckeep in Ec. assert (i0 = i) as -> by congruence.
           destruct (mp !! p) as [j0|] eqn:Ep; simpl.
           ++ apply Hpkeep in Ep. congruence.
           ++ specialize (Hpnew _ _ Ep' Ep).
              apply (get2_fresh mc mp); [done|]. by right.
        -- specialize (Hcnew _ _ Ec' Ec).
           apply (get2_fresh mc mp); [done|]. by left.
      * rewrite (extends_None _ _ _ Hp Ep').
        by destruct (mc !! c).
    + by rewrite (extends_None _ _ _ Hc Ec').
Qed.

(** ** Updating a total or a minimum under names the dictionaries hold *)

Lemma dict_ok_index m k i :
  dict_ok m -> m !! k = Some i ->
  0 <= i < Z.of_nat NUM_CITIES /\ (Z.to_nat i < size m)%nat.
Proof.
  intros [Hd Hsz] Hk. pose proof (dense_range _ _ _ Hd Hk). lia.
Qed.

Lemma totals_update m cc k id v' :
  dict_ok m -> totals_ok m cc -> m !! k = Some id -> in64 v' ->
  get1 cc id = Some (total_view m cc k) /\
  set1 cc id v' = Some (<[Z.to_nat id := v']> cc) /\
  totals_ok m (<[Z.to_nat id := v']> cc) /\
  forall c, total_view m (<[Z.to_nat id := v']> cc) c =
            if decide (c = k) then v' else total_view m cc c.
Proof.
  intros Hm (Hlen & H64 & Hzero) Hk Hv'.
  destruct (dict_ok_index _ _ _ Hm Hk) as [Hid Hlt].
  destruct (lookup_lt_is_Some_2 cc (Z.to_nat id)) as [x Hx]; [lia|].
  split; [|split; [|split]].
  - unfold total_view. rewrite Hk. simpl. rewrite get1_in by done. by rewrite Hx.
  - by apply set1_in.
  - split; [by rewrite length_insert|]. split.
    + intros i v. destruct (decide (i = Z.to_nat id)) as [->|Hne].
      * rewrite list_lookup_insert_eq by lia. by intros [= <-].
      * rewrite list_lookup_insert_ne by done. apply H64.
    + intros i v Hv Hi. rewrite list_lookup_insert_ne in Hv by lia.
      by apply (Hzero i).
  - intros c. unfold total_view. case_decide as Hc.
    + subst c. rewrite Hk. simpl. rewrite get1_in by done.
      by rewrite list_lookup_insert_eq by lia.
    + destruct (m !! c) as [i|] eqn:Ec; simpl; [|done].
      destruct (dict_ok_index _ _ _ Hm Ec) as [Hi _].
      rewrite !get1_in by done.
      rewrite list_lookup_insert_ne; [done|].
      intros Heq. apply Hc. destruct Hm as [Hd _].
      apply (dense_inj m c k i Hd Ec). rewrite Hk. f_equal. lia.
Qed.

Lemma cells_update mc mp pc c p i j v' :
  dict_ok mc -> dict_ok mp -> cells_ok mc mp pc ->
  mc !! c = Some i -> mp !! p = Some j -> v' <= SENTINEL ->
  exists pc',
    get2 pc i j = Some (min_view mc mp pc c p) /\
    set2 pc i j v' = Some pc' /\
    cells_ok mc mp pc' /\
    forall c' p', min_view mc mp pc' c' p' =
                  if decide (c' = c /\ p' = p) then v' else min_view mc mp pc c' p'.
Proof.
  intros Hmc Hmp (Hlen & Hrows & Hle & Hfresh) Hc Hp Hv'.
  destruct (dict_ok_index _ _ _ Hmc Hc) as [Hi Hilt].
  destruct (dict_ok_index _ _ _ Hmp Hp) as [Hj Hjlt].
  destruct (lookup_lt_is_Some_2 pc (Z.to_nat i)) as [row Hrow]; [lia|].
  pose proof (Hrows _ _ Hrow) as Hrowlen.
  destruct (lookup_lt_is_Some_2 row (Z.to_nat j)) as [x Hx]; [lia|].
  assert (Hcell : cell pc (Z.to_nat i) (Z.to_nat j) = Some x).
  { unfold cell. rewrite Hrow. simpl. done. }
  exists (<[Z.to_nat i := <[Z.to_nat j := v']> row]> pc).
  split; [|split; [|split]].
  - unfold min_view. rewrite Hc, Hp. simpl. rewrite get2_in by done. by rewrite Hcell.
  - by apply set2_in.
  - split; [by rewrite length_insert|]. split; [|split].
    + intros i' row'. destruct (decide (i' = Z.to_nat i)) as [->|Hne].
      * rewrite list_lookup_insert_eq by lia. intros [= <-].
        by rewrite length_insert.
      * rewrite list_lookup_insert_ne by done. apply Hrows.
    + intros i' j' v. rewrite (cell_insert pc _ _ v' row) by (done || lia).
      case_decide; [by intros [= <-]|apply Hle].
    + intros i' j' v. rewrite (cell_insert pc _ _ v' row) by (done || lia).
      case_decide as Hij; [|apply Hfresh].
      destruct Hij as [-> ->]. lia.
  - intros c' p'. unfold min_view. case_decide as Hcp.
    + destruct Hcp as [-> ->]. rewrite Hc, Hp. simpl.
      rewrite get2_in by done.
      rewrite (cell_insert pc _ _ v' row) by (done || lia).
      by rewrite decide_True.
    + destruct (mc !! c') as [i'|] eqn:Ec'; simpl; [|done].
      destruct (mp !! p') as [j'|] eqn:Ep'; simpl; [|done].
      destruct (dict_ok_index _ _ _ Hmc Ec') as [Hi' _].
      destruct (dict_ok_index _ _ _ Hmp Ep') as [Hj' _].
      rewrite !get2_in by done.
      rewrite (cell_insert pc _ _ v' row) by (done || lia).
      rewrite decide_False; [done|].
      intros [Hii Hjj]. apply Hcp.
      destruct Hmc as [Hdc _], Hmp as [Hdp _]. split.
      * apply (dense_inj mc c' c i' Hdc Ec'). rewrite Hc. f_equal. lia.
      * apply (dense_inj mp p' p j' Hdp Ep'). rewrite Hp. f_equal. lia.
Qed.

Lemma get2_Some pc i j v :
  get2 pc i j = Some v -> cell pc (Z.to_nat i) (Z.to_nat j) = Some v.
Proof.
  destruct (decide (0 <= i < Z.of_nat NUM_CITIES)) as [Hi|Hi];
    [|by unfold get2; rewrite (index_None i)].
  destruct (decide (0 <= j < Z.of_nat NUM_CITIES)) as [Hj|Hj];
    [|by unfold get2; rewrite (index_Some i), (index_None j)].
  by rewrite get2_in.
Qed.

Lemma min_view_le mc mp pc c p :
  cells_ok mc mp pc -> min_view mc mp pc c p <= SENTINEL.
Proof.
  intros (Hlen & Hrows & Hle & Hfresh). unfold min_view.
  destruct (mc !! c) as [i|]; simpl; [|done].
  destruct (mp !! p) as [j|]; simpl; [|done].
  destruct (get2 pc i j) as [v|] eqn:Ev; simpl; [|done].
  apply get2_Some in Ev. by eapply Hle.
Qed.

Lemma total_view_in64 m cc c : totals_ok m cc -> in64 (total_view m cc c).
Proof.
  intros (Hlen & H64 & Hzero). unfold total_view.
  destruct (m !! c) as [i|]; simpl; [|by vm_compute].
  unfold get1, index. case_decide; simpl; [|by vm_compute].
  destruct (cc !! Z.to_nat i) as [v|] eqn:Ev; simpl; [|by vm_compute].
  by eapply H64.
Qed.

Lemma get1_view m cc k id :
  dict_ok m -> totals_ok m cc -> m !! k = Some id ->
  get1 cc id = Some (total_view m cc k).
Proof.
  intros Hm Ht Hk.
  by destruct (totals_update m cc k id 0 Hm Ht Hk ltac:(by vm_compute)) as [H _].
Qed.

Lemma get2_view mc mp pc c p i j :
  dict_ok mc -> dict_ok mp -> cells_ok mc mp pc ->
  mc !! c = Some i -> mp !! p = Some j ->
  get2 pc i j = Some (min_view mc mp pc c p).
Proof.
  intros Hmc Hmp Hok Hc Hp.
  by destruct (cells_update mc mp pc c p i j SENTINEL Hmc Hmp Hok Hc Hp ltac:(done))
    as (pc' & H & _).
Qed.

(** ** One record *)

Lemma room_for (m : gmap string Z) (U : gset string) k :
  dom m ⊆ U -> k ∈ U -> (size U <= NUM_CITIES)%nat ->
  is_Some (m !! k) \/ (size m < NUM_CITIES)%nat.
Proof.
  intros Hsub Hk HU.
  destruct (m !! k) as [i|] eqn:E; [left; eauto|right].
  assert (Hstrict : dom m ⊂ U).
  { split; [done|]. intros Hback. apply Hback in Hk.
    apply elem_of_dom in Hk as [? ?]. congruence. }
  apply subset_size in Hstrict. rewrite size_dom in Hstrict. lia.
Qed.

Lemma aggregate_step r c p x :
  wf r ->
  is_Some (city_id r !! c) \/ (size (city_id r) < NUM_CITIES)%nat ->
  is_Some (product_id r !! p) \/ (size (product_id r) < NUM_CITIES)%nat ->
  exists r',
    aggregate r (c, p, x) = Some r' /\ wf r' /\
    dom (city_id r') = {[c]} ∪ dom (city_id r) /\
    dom (product_id r') = {[p]} ∪ dom (product_id r) /\
    (forall c', vtotal r' c' =
                if decide (c' = c) then add64 (vtotal r c') x else vtotal r c') /\
    (forall c' p', vmin r' c' p' =
                   if decide (c' = c /\ p' = p) then Z.min (vmin r c' p') x
                   else vmin r c' p').
Proof.
  intros (Hc & Hp & Ht & Hcells) Hroomc Hroomp.
  destruct (find_or_create_ok _ c Hc Hroomc) as (Hc' & Hextc & Hcid & Hdomc).
  destruct (find_or_create_ok _ p Hp Hroomp) as (Hp' & Hextp & Hpid & Hdomp).
  unfold aggregate.
  destruct (find_or_create (city_id r) c) as [cid cities].
  destruct (find_or_create (product_id r) p) as [pid products].
  simpl in *.
  destruct (totals_extend _ _ _ Ht Hextc) as [Ht1 Hv1].
  destruct (cells_extend _ _ _ _ _ Hcells Hextc Hextp) as [Hcells1 Hm1].
  remember (min_view cities products (product_cost r) c p) as old eqn:Hold.
  destruct (cells_update cities products (product_cost r) c p cid pid
              (Z.min old x) Hc' Hp' Hcells1 Hcid Hpid) as (pc' & Hget2 & Hset2 & Hcells2 & Hm2).
  { pose proof (min_view_le _ _ _ c p Hcells1). lia. }
  rewrite <- Hold in Hget2.
  remember (total_view cities (city_cost r) c) as total eqn:Htotal.
  destruct (totals_update cities (city_cost r) c cid (add64 total x) Hc' Ht1 Hcid
              (wrap64_in64 _)) as (Hget1 & Hset1 & Ht2 & Hv2).
  rewrite <- Htotal in Hget1.
  rewrite Hget2. simpl. rewrite Hset2. simpl. rewrite Hget1. simpl.
  rewrite Hset1. simpl.
  eexists. split; [done|]. split; [done|]. simpl.
  split; [done|]. split; [done|]. split.
  - intros c'. unfold vtotal. simpl. rewrite Hv2.
    case_decide; [subst c' total; by rewrite Hv1|apply Hv1].
  - intros c' p'. unfold vmin. simpl. rewrite Hm2.
    case_decide as Hcp; [|apply Hm1].
    destruct Hcp as [-> ->]. subst old. by rewrite Hm1.
Qed.

(** ** Sums and minimums over lists of records *)

Lemma sum_list_cons x l : sum_list (x :: l) = x + sum_list l.
Proof. reflexivity. Qed.

Lemma sum_list_app l1 l2 : sum_list (l1 ++ l2) = sum_list l1 + sum_list l2.
Proof. unfold sum_list. induction l1 as [|x l1 IH]; simpl; lia. Qed.

Lemma foldr_min_le d l : d <= SENTINEL -> foldr Z.min d l = Z.min (min_list l) d.
Proof.
  intros Hd. unfold min_list. induction l as [|x l IH]; simpl; lia.
Qed.

Lemma min_list_le l : min_list l <= SENTINEL.
Proof. unfold min_list. induction l as [|x l IH]; simpl; lia. Qed.

Lemma min_list_app l1 l2 : min_list (l1 ++ l2) = Z.min (min_list l1) (min_list l2).
Proof.
  unfold min_list at 1. rewrite foldr_app.
  apply foldr_min_le, min_list_le.
Qed.

Lemma city_prices_app recs1 recs2 c :
  city_prices (recs1 ++ recs2) c = city_prices recs1 c ++ city_prices recs2 c.
Proof. unfold city_prices. by rewrite filter_app, fmap_app. Qed.

Lemma pair_prices_app recs1 recs2 c p :
  pair_prices (recs1 ++ recs2) c p = pair_prices recs1 c p ++ pair_prices recs2 c p.
Proof. unfold pair_prices. by rewrite filter_app, fmap_app. Qed.

Lemma city_prices_one c p x c' :
  city_prices [(c, p, x)] c' = if decide (c' = c) then [x] else [].
Proof.
  unfold city_prices. rewrite filter_cons, filter_nil. simpl.
  unfold rec_city. simpl. repeat case_decide; by subst.
Qed.

Lemma pair_prices_one c p x c' p' :
  pair_prices [(c, p, x)] c' p' = if decide (c' = c /\ p' = p) then [x] else [].
Proof.
  unfold pair_prices. rewrite filter_cons, filter_nil. simpl.
  unfold rec_city, rec_product. simpl.
  destruct (decide (c = c' /\ p = p')) as [[-> ->]|Hne].
  - by rewrite decide_True.
  - rewrite decide_False; [done|]. intros [-> ->]. by apply Hne.
Qed.

Lemma cities_of_app recs1 recs2 :
  cities_of (recs1 ++ recs2) = cities_of recs1 ∪ cities_of recs2.
Proof. unfold cities_of. by rewrite fmap_app, list_to_set_app_L. Qed.

Lemma products_of_app recs1 recs2 :
  products_of (recs1 ++ recs2) = products_of recs1 ∪ products_of recs2.
Proof. unfold products_of. by rewrite fmap_app, list_to_set_app_L. Qed.

Lemma cities_of_one c p x : cities_of [(c, p, x)] = {[c]}.
Proof. unfold cities_of. simpl. by rewrite union_empty_r_L. Qed.

Lemma products_of_one c p x : products_of [(c, p, x)] = {[p]}.
Proof. unfold products_of. simpl. by rewrite union_empty_r_L. Qed.

(** ** A worker's aggregate *)

Lemma cell_new i j v :
  cell (replicate NUM_CITIES (replicate NUM_CITIES SENTINEL)) i j = Some v ->
  v = SENTINEL.
Proof.
  unfold cell.
  destruct (replicate NUM_CITIES (replicate NUM_CITIES SENTINEL) !! i)
    as [row|] eqn:E; simpl; [|done].
  apply lookup_replicate in E as [-> _].
  by intros [-> _]%lookup_replicate.
Qed.

Lemma wf_new : wf new_Result.
Proof.
  assert (Hd : dict_ok ∅).
  { split; [apply dense_empty|]. rewrite map_size_empty. lia. }
  split; [done|]. split; [done|]. split.
  - split; [apply length_replicate|]. split.
    + intros i v [-> _]%lookup_replicate. by vm_compute.
    + by intros i v [-> _]%lookup_replicate.
  - split; [apply length_replicate|]. split; [|split].
    + intros i row [-> _]%lookup_replicate. apply length_replicate.
    + intros i j v Hv. by rewrite (cell_new i j v Hv).
    + intros i j v Hv _. by rewrite (cell_new i j v Hv).
Qed.

Lemma represents_new : represents new_Result [].
Proof.
  split; [apply wf_new|]. split; [apply dom_empty_L|]. split; [apply dom_empty_L|].
  split; intros; reflexivity.
Qed.

Lemma represents_aggregate r recs rec :
  represents r recs ->
  (size (cities_of (recs ++ [rec])) <= NUM_CITIES)%nat ->
  (size (products_of (recs ++ [rec])) <= NUM_CITIES)%nat ->
  exists r', aggregate r rec = Some r' /\ represents r' (recs ++ [rec]).
Proof.
  intros (Hwf & Hdc & Hdp & Hsum & Hmin) Hsc Hsp.
  destruct rec as [[c p] x].
  rewrite cities_of_app, cities_of_one in Hsc.
  rewrite products_of_app, products_of_one in Hsp.
  destruct (aggregate_step r c p x Hwf) as (r' & Hr' & Hwf' & Hdc' & Hdp' & Hv & Hm).
  { apply (room_for _ (cities_of recs ∪ {[c]})); [|set_solver|done].
    rewrite Hdc. set_solver. }
  { apply (room_for _ (products_of recs ∪ {[p]})); [|set_solver|done].
    rewrite Hdp. set_solver. }
  exists r'. split; [done|]. split; [done|].
  split; [|split; [|split]].
  - rewrite Hdc', Hdc, cities_of_app, cities_of_one. set_solver.
  - rewrite Hdp', Hdp, products_of_app, products_of_one. set_solver.
  - intros c'. rewrite Hv, Hsum, city_prices_app, city_prices_one, sum_list_app.
    case_decide.
    + rewrite add64_wrap_l. f_equal. unfold sum_list. simpl. lia.
    + f_equal. unfold sum_list at 3. simpl. lia.
  - intros c' p'. rewrite Hm, Hmin, pair_prices_app, pair_prices_one, min_list_app.
    case_decide.
    + unfold min_list at 3. simpl. unfold SENTINEL.
      pose proof (min_list_le (pair_prices recs c' p')). unfold SENTINEL in *. lia.
    + pose proof (min_list_le (pair_prices recs c' p')).
      unfold min_list at 3. simpl. lia.
Qed.

Lemma cities_of_mono recs1 recs2 :
  (size (cities_of recs1) <= size (cities_of (recs1 ++ recs2)))%nat.
Proof. apply subseteq_size. rewrite cities_of_app. set_solver. Qed.

Lemma products_of_mono recs1 recs2 :
  (size (products_of recs1) <= size (products_of (recs1 ++ recs2)))%nat.
Proof. apply subseteq_size. rewrite products_of_app. set_solver. Qed.

Lemma fold_aggregate_represents recs2 r recs1 :
  represents r recs1 ->
  (size (cities_of (recs1 ++ recs2)) <= NUM_CITIES)%nat ->
  (size (products_of (recs1 ++ recs2)) <= NUM_CITIES)%nat ->
  exists r', fold_opt aggregate r recs2 = Some r' /\ represents r' (recs1 ++ recs2).
Proof.
  revert r recs1. induction recs2 as [|rec recs2 IH]; intros r recs1 Hr Hsc Hsp.
  - exists r. rewrite app_nil_r. by split.
  - rewrite cons_middle, app_assoc in Hsc, Hsp.
    destruct (represents_aggregate r recs1 rec Hr) as (r1 & Hr1 & Hrep1).
    { etrans; [apply cities_of_mono|exact Hsc]. }
    { etrans; [apply products_of_mono|exact Hsp]. }
    destruct (IH r1 _ Hrep1 Hsc Hsp) as (r' & Hr' & Hrep').
    exists r'. simpl. rewrite Hr1. simpl.
    split; [done|]. by rewrite cons_middle, app_assoc.
Qed.

Lemma worker_result_represents recs :
  (size (cities_of recs) <= NUM_CITIES)%nat ->
  (size (products_of recs) <= NUM_CITIES)%nat ->
  exists r, worker_result recs = Some r /\ represents r recs.
Proof.
  intros Hsc Hsp.
  apply (fold_aggregate_represents recs new_Result []); [apply represents_new|done|done].
Qed.

(** ** Merging one worker's aggregate *)

Section Merging.

Context (iter : gmap string Z -> list (string * Z)).
Context (iter_perm : forall m, iter m ≡ₚ map_to_list m).

Lemma iter_lookup m k i : (k, i) ∈ iter m <-> m !! k = Some i.
Proof. rewrite iter_perm. apply elem_of_map_to_list. Qed.

Lemma iter_NoDup m : NoDup (iter m).*1.
Proof. rewrite iter_perm. apply NoDup_fst_map_to_list. Qed.

Lemma iter_dom m : list_to_set (iter m).*1 = dom m.
Proof.
  apply leibniz_equiv. rewrite iter_perm. symmetry. apply dom_alt.
Qed.

Lemma iter_keys m k : k ∈ (iter m).*1 <-> is_Some (m !! k).
Proof.
  rewrite <- (elem_of_dom (D := gset string)), <- iter_dom. by rewrite elem_of_list_to_set.
Qed.

Lemma merge_product_step r mr cname cid ncid pname pid :
  wf mr -> wf r ->
  city_id r !! cname = Some cid -> city_id mr !! cname = Some ncid ->
  product_id r !! pname = Some pid ->
  is_Some (product_id mr !! pname) \/ (size (product_id mr) < NUM_CITIES)%nat ->
  exists mr',
    merge_product r cid ncid mr (pname, pid) = Some mr' /\ wf mr' /\
    city_id mr' = city_id mr /\ city_cost mr' = city_cost mr /\
    dom (product_id mr') = {[pname]} ∪ dom (product_id mr) /\
    forall c p, vmin mr' c p =
                if decide (c = cname /\ p = pname)
                then Z.min (vmin mr c p) (vmin r c p) else vmin mr c p.
Proof.
  intros (Hc & Hp & Ht & Hcells) (Hrc & Hrp & Hrt & Hrcells) Hcid Hncid Hpid Hroom.
  destruct (find_or_create_ok _ pname Hp Hroom) as (Hp' & Hextp & Hnpid & Hdomp).
  unfold merge_product. simpl.
  destruct (find_or_create (product_id mr) pname) as [npid products]. simpl in *.
  destruct (cells_extend _ _ _ _ _ Hcells (extends_refl _) Hextp) as [Hcells1 Hm1].
  remember (min_view (city_id mr) products (product_cost mr) cname pname) as mine eqn:Hmine.
  remember (min_view (city_id r) (product_id r) (product_cost r) cname pname) as theirs
    eqn:Htheirs.
  destruct (cells_update (city_id mr) products (product_cost mr) cname pname ncid npid
              (Z.min mine theirs) Hc Hp' Hcells1 Hncid Hnpid)
    as (pc' & Hget & Hset & Hcells2 & Hm2).
  { pose proof (min_view_le _ _ _ cname pname Hcells1). lia. }
  rewrite <- Hmine in Hget. rewrite Hget. simpl.
  rewrite (get2_view _ _ _ cname pname cid pid Hrc Hrp Hrcells Hcid Hpid). simpl.
  rewrite <- Htheirs. rewrite Hset. simpl.
  eexists. split; [done|]. split; [done|]. simpl.
  split; [done|]. split; [done|]. split; [done|].
  intros c p. unfold vmin. simpl. rewrite Hm2.
  case_decide as Hcp; [|apply Hm1].
  destruct Hcp as [-> ->]. subst mine theirs. by rewrite Hm1.
Qed.

Lemma merge_products_fold r cname cid ncid lp :
  forall mr,
  wf mr -> wf r ->
  city_id r !! cname = Some cid -> city_id mr !! cname = Some ncid ->
  (forall e, e ∈ lp -> product_id r !! e.1 = Some e.2) ->
  (size (dom (product_id mr) ∪ list_to_set lp.*1) <= NUM_CITIES)%nat ->
  exists mr',
    fold_opt (merge_product r cid ncid) mr lp = Some mr' /\ wf mr' /\
    city_id mr' = city_id mr /\ city_cost mr' = city_cost mr /\
    dom (product_id mr') = dom (product_id mr) ∪ list_to_set lp.*1 /\
    forall c p, vmin mr' c p =
                if decide (c = cname /\ p ∈ lp.*1)
                then Z.min (vmin mr c p) (vmin r c p) else vmin mr c p.
Proof.
  induction lp as [|[pname pid] lp IH]; intros mr Hwf Hwfr Hcid Hncid Hin Hsize.
  - exists mr. simpl. split; [done|]. split; [done|]. split; [done|]. split; [done|].
    split; [set_solver|].
    intros c p. rewrite decide_False; [done|]. intros [_ H]. by apply elem_of_nil in H.
  - simpl in Hsize.
    destruct (merge_product_step r mr cname cid ncid pname pid Hwf Hwfr Hcid Hncid)
      as (mr1 & Hstep & Hwf1 & Hc1 & Hcc1 & Hdom1 & Hv1).
    { apply (Hin (pname, pid)). left. }
    { eapply room_for; [|
        |exact Hsize]; set_solver. }
    destruct (IH mr1 Hwf1 Hwfr Hcid) as (mr' & Hfold & Hwf' & Hc' & Hcc' & Hdom' & Hv').
    { by rewrite Hc1. }
    { intros e He. apply Hin. by right. }
    { rewrite Hdom1.
      replace ({[pname]} ∪ dom (product_id mr) ∪ list_to_set lp.*1)
        with (dom (product_id mr) ∪ ({[pname]} ∪ list_to_set lp.*1)) by set_solver.
      exact Hsize. }
    exists mr'. simpl. rewrite Hstep. simpl.
    split; [done|]. split; [done|].
    split; [by rewrite Hc', Hc1|]. split; [by rewrite Hcc', Hcc1|].
    split; [rewrite Hdom', Hdom1; set_solver|].
    intros c p. rewrite Hv', !Hv1.
    destruct (decide (c = cname)) as [->|Hc].
    + destruct (decide (p = pname)) as [->|Hp].
      * rewrite (decide_True (P := cname = cname /\ pname = pname)) by done.
        rewrite (decide_True (P := cname = cname /\ pname ∈ _ :: _)) by (split; [done|left]).
        case_decide; lia.
      * rewrite (decide_False (P := cname = cname /\ p = pname)) by (intros [_ ?]; done).
        destruct (decide (p ∈ lp.*1)) as [Hpl|Hpl].
        -- rewrite decide_True by done.
           rewrite decide_True by (split; [done|by right]). done.
        -- rewrite decide_False by (intros [_ ?]; done).
           rewrite decide_False; [done|].
           intros [_ [?|?]%elem_of_cons]; done.
    + rewrite !decide_False by (intros [? _]; done). done.
Qed.

Lemma vtotal_no_city r c : city_id r !! c = None -> vtotal r c = 0.
Proof. intros H. unfold vtotal, total_view. by rewrite H. Qed.

Lemma vmin_no_city r c p : city_id r !! c = None -> vmin r c p = SENTINEL.
Proof. intros H. unfold vmin, min_view. by rewrite H. Qed.

Lemma vmin_no_product r c p : product_id r !! p = None -> vmin r c p = SENTINEL.
Proof.
  intros H. unfold vmin, min_view. rewrite H. by destruct (city_id r !! c).
Qed.

Lemma vmin_le r c p : wf r -> vmin r c p <= SENTINEL.
Proof. intros (_ & _ & _ & H). by apply min_view_le. Qed.

Lemma vtotal_in64 r c : wf r -> in64 (vtotal r c).
Proof. intros (_ & _ & H & _). by apply total_view_in64. Qed.

Lemma merge_city_step r mr cname cid :
  wf mr -> wf r -> city_id r !! cname = Some cid ->
  (size (dom (city_id mr) ∪ {[cname]}) <= NUM_CITIES)%nat ->
  (size (dom (product_id mr) ∪ dom (product_id r)) <= NUM_CITIES)%nat ->
  exists mr',
    merge_city iter r mr (cname, cid) = Some mr' /\ wf mr' /\
    dom (city_id mr') = {[cname]} ∪ dom (city_id mr) /\
    dom (product_id mr') = dom (product_id mr) ∪ dom (product_id r) /\
    (forall c, vtotal mr' c =
               if decide (c = cname) then add64 (vtotal mr c) (vtotal r c)
               else vtotal mr c) /\
    (forall c p, vmin mr' c p =
                 if decide (c = cname) then Z.min (vmin mr c p) (vmin r c p)
                 else vmin mr c p).
Proof.
  intros Hwf Hwfr Hcid Hsc Hsp.
  pose proof Hwf as (Hc & Hp & Ht & Hcells).
  pose proof Hwfr as (Hrc & Hrp & Hrt & Hrcells).
  destruct (find_or_create_ok _ cname Hc) as (Hc' & Hextc & Hncid & Hdomc).
  { eapply room_for; [| |exact Hsc]; set_solver. }
  unfold merge_city. simpl.
  destruct (find_or_create (city_id mr) cname) as [ncid cities]. simpl in *.
  destruct (totals_extend _ _ _ Ht Hextc) as [Ht1 Hv1].
  destruct (cells_extend _ _ _ _ _ Hcells Hextc (extends_refl _)) as [Hcells1 Hm1].
  remember (total_view cities (city_cost mr) cname) as mine eqn:Hmine.
  remember (total_view (city_id r) (city_cost r) cname) as theirs eqn:Htheirs.
  destruct (totals_update cities (city_cost mr) cname ncid (add64 mine theirs)
              Hc' Ht1 Hncid (wrap64_in64 _)) as (Hget & Hset & Ht2 & Hv2).
  rewrite <- Hmine in Hget. rewrite Hget. simpl.
  rewrite (get1_view _ _ cname cid Hrc Hrt Hcid). simpl.
  rewrite <- Htheirs. rewrite Hset. simpl.
  set (mr0 := {| city_cost := <[Z.to_nat ncid := add64 mine theirs]> (city_cost mr);
                 product_cost := product_cost mr;
                 product_id := product_id mr; city_id := cities |}).
  assert (Hwf0 : wf mr0) by (by split; [|split; [|split]]).
  destruct (merge_products_fold r cname cid ncid (iter (product_id r)) mr0 Hwf0 Hwfr Hcid)
    as (mr' & Hfold & Hwf' & Hc1 & Hcc1 & Hdom1 & Hm2).
  { done. }
  { intros [k i] He. by apply iter_lookup. }
  { by rewrite iter_dom. }
  exists mr'. split; [done|]. split; [done|].
  split; [by rewrite Hc1|]. split; [by rewrite Hdom1, iter_dom|]. split.
  - intros c. unfold vtotal. rewrite Hc1, Hcc1. simpl. rewrite Hv2.
    case_decide; [subst c mine theirs; by rewrite Hv1|apply Hv1].
  - intros c p. rewrite Hm2.
    assert (Hmr0 : vmin mr0 c p = vmin mr c p) by apply Hm1.
    rewrite Hmr0.
    destruct (decide (c = cname)) as [->|Hne].
    + destruct (decide (p ∈ (iter (product_id r)).*1)) as [Hin|Hnin].
      * by rewrite decide_True.
      * rewrite decide_False by (intros [_ ?]; done).
        rewrite iter_keys in Hnin.
        rewrite (vmin_no_product r cname p) by by apply eq_None_not_Some.
        pose proof (vmin_le mr cname p Hwf). lia.
    + by rewrite decide_False by (intros [? _]; done).
Qed.

Lemma merge_cities_fold r lc :
  forall mr,
  wf mr -> wf r -> NoDup lc.*1 ->
  (forall e, e ∈ lc -> city_id r !! e.1 = Some e.2) ->
  (size (dom (city_id mr) ∪ list_to_set lc.*1) <= NUM_CITIES)%nat ->
  (size (dom (product_id mr) ∪ dom (product_id r)) <= NUM_CITIES)%nat ->
  exists mr',
    fold_opt (merge_city iter r) mr lc = Some mr' /\ wf mr' /\
    dom (city_id mr') = dom (city_id mr) ∪ list_to_set lc.*1 /\
    dom (product_id mr') =
      dom (product_id mr) ∪ (if decide (lc = []) then ∅ else dom (product_id r)) /\
    (forall c, vtotal mr' c =
               if decide (c ∈ lc.*1) then add64 (vtotal mr c) (vtotal r c)
               else vtotal mr c) /\
    (forall c p, vmin mr' c p =
                 if decide (c ∈ lc.*1) then Z.min (vmin mr c p) (vmin r c p)
                 else vmin mr c p).
Proof.
  induction lc as [|[cname cid] lc IH]; intros mr Hwf Hwfr Hnd Hin Hsc Hsp.
  - exists mr. split; [done|]. split; [done|].
    split; [set_solver|]. split; [set_solver|].
    split; intros; (case_decide as Hx; [by apply elem_of_nil in Hx|done]).
  - simpl in Hsc, Hnd. apply NoDup_cons in Hnd as [Hfresh Hnd].
    destruct (merge_city_step r mr cname cid Hwf Hwfr)
      as (mr1 & Hstep & Hwf1 & Hdc1 & Hdp1 & Hv1 & Hm1).
    { apply (Hin (cname, cid)). left. }
    { etrans; [|exact Hsc]. apply subseteq_size. set_solver. }
    { done. }
    destruct (IH mr1 Hwf1 Hwfr Hnd) as (mr' & Hfold & Hwf' & Hdc' & Hdp' & Hv' & Hm').
    { intros e He. apply Hin. by right. }
    { rewrite Hdc1.
      replace ({[cname]} ∪ dom (city_id mr) ∪ list_to_set lc.*1)
        with (dom (city_id mr) ∪ ({[cname]} ∪ list_to_set lc.*1)) by set_solver.
      exact Hsc. }
    { rewrite Hdp1.
      replace (dom (product_id mr) ∪ dom (product_id r) ∪ dom (product_id r))
        with (dom (product_id mr) ∪ dom (product_id r)) by set_solver.
      exact Hsp. }
    exists mr'. simpl. rewrite Hstep. simpl.
    split; [done|]. split; [done|].
    split; [rewrite Hdc', Hdc1; set_solver|].
    split; [rewrite Hdp', Hdp1; case_decide; set_solver|].
    split.
    + intros c. rewrite Hv', Hv1.
      destruct (decide (c = cname)) as [->|Hne].
      * rewrite (decide_False (P := cname ∈ lc.*1)) by done.
        by rewrite decide_True by left.
      * destruct (decide (c ∈ lc.*1)) as [Hc|Hc].
        -- by rewrite decide_True by by right.
        -- rewrite decide_False; [done|]. by intros [?|?]%elem_of_cons.
    + intros c p. rewrite Hm', Hm1.
      destruct (decide (c = cname)) as [->|Hne].
      * rewrite (decide_False (P := cname ∈ lc.*1)) by done.
        by rewrite decide_True by left.
      * destruct (decide (c ∈ lc.*1)) as [Hc|Hc].
        -- by rewrite decide_True by by right.
        -- rewrite decide_False; [done|]. by intros [?|?]%elem_of_cons.
Qed.

Lemma cities_of_empty recs : cities_of recs = ∅ -> recs = [].
Proof.
  destruct recs as [|rec recs]; [done|].
  unfold cities_of. simpl. intros H.
  assert (rec_city rec ∈ (∅ : gset string)) by (rewrite <- H; set_solver).
  set_solver.
Qed.

(** Merging an aggregate of the records [B] into one of the records [A]
    gives an aggregate of [A ++ B]. *)
Lemma merge_result_represents mr r A B :
  represents mr A -> represents r B ->
  (size (cities_of (A ++ B)) <= NUM_CITIES)%nat ->
  (size (products_of (A ++ B)) <= NUM_CITIES)%nat ->
  exists mr', merge_result iter mr r = Some mr' /\ represents mr' (A ++ B).
Proof.
  intros (Hwf & Hdc & Hdp & Hsum & Hmin) (Hwfr & Hrdc & Hrdp & Hrsum & Hrmin) Hsc Hsp.
  rewrite cities_of_app in Hsc. rewrite products_of_app in Hsp.
  destruct (merge_cities_fold r (iter (city_id r)) mr Hwf Hwfr)
    as (mr' & Hfold & Hwf' & Hdc' & Hdp' & Hv' & Hm').
  { apply iter_NoDup. }
  { intros [k i] He. by apply iter_lookup. }
  { by rewrite iter_dom, Hdc, Hrdc. }
  { by rewrite Hdp, Hrdp. }
  exists mr'. split; [done|]. split; [done|].
  split; [|split; [|split]].
  - by rewrite Hdc', iter_dom, Hdc, Hrdc, cities_of_app.
  - rewrite Hdp', Hdp, products_of_app. case_decide as Hnil; [|by rewrite Hrdp].
    assert (HB : B = []).
    { apply cities_of_empty. rewrite <- Hrdc, <- iter_dom, Hnil. done. }
    subst B. set_solver.
  - intros c. rewrite Hv', city_prices_app, sum_list_app.
    rewrite <- add64_wrap_both, <- Hsum, <- Hrsum.
    destruct (decide (c ∈ (iter (city_id r)).*1)) as [Hc|Hc]; [done|].
    rewrite iter_keys in Hc.
    rewrite (vtotal_no_city r c) by by apply eq_None_not_Some.
    unfold add64. rewrite Z.add_0_r. symmetry. apply wrap64_id.
    by apply vtotal_in64.
  - intros c p. rewrite Hm', pair_prices_app, min_list_app, <- Hmin, <- Hrmin.
    destruct (decide (c ∈ (iter (city_id r)).*1)) as [Hc|Hc]; [done|].
    rewrite iter_keys in Hc.
    rewrite (vmin_no_city r c p) by by apply eq_None_not_Some.
    pose proof (vmin_le mr c p Hwf). lia.
Qed.

Lemma merge_fold_represents rs recss :
  forall mr A,
  represents mr A -> Forall2 represents rs recss ->
  (size (cities_of (A ++ concat recss)) <= NUM_CITIES)%nat ->
  (size (products_of (A ++ concat recss)) <= NUM_CITIES)%nat ->
  exists mr', fold_opt (merge_result iter) mr rs = Some mr' /\
              represents mr' (A ++ concat recss).
Proof.
  intros mr A Hmr Hall. revert mr A Hmr.
  induction Hall as [|r B rs recss Hr Hall IH]; intros mr A Hmr Hsc Hsp; simpl in *.
  - exists mr. by rewrite app_nil_r.
  - rewrite app_assoc in Hsc, Hsp.
    destruct (merge_result_represents mr r A B Hmr Hr) as (mr1 & Hstep & Hrep1).
    { etrans; [apply cities_of_mono|exact Hsc]. }
    { etrans; [apply products_of_mono|exact Hsp]. }
    destruct (IH mr1 _ Hrep1 Hsc Hsp) as (mr' & Hfold & Hrep').
    exists mr'. rewrite Hstep. simpl. split; [done|]. by rewrite app_assoc.
Qed.

(** The merged aggregate holds the totals and minimums of all records. *)
Lemma merge_represents rs recss :
  Forall2 represents rs recss ->
  (size (cities_of (concat recss)) <= NUM_CITIES)%nat ->
  (size (products_of (concat recss)) <= NUM_CITIES)%nat ->
  exists mr, merge iter rs = Some mr /\ represents mr (concat recss).
Proof.
  intros Hall Hsc Hsp.
  apply (merge_fold_represents rs recss new_Result []); [apply represents_new|done..].
Qed.

End Merging.

(** ** Order on names and on [(price, name)] pairs *)

Lemma ltb_le a b : String.ltb a b = true -> String.le a b.
Proof.
  unfold String.le, String.leb, String.ltb.
  destruct (String.compare a b); done.
Qed.

Lemma not_ltb_le a b : String.ltb a b = false -> String.le b a.
Proof.
  unfold String.le, String.leb, String.ltb.
  rewrite (String.compare_antisym a b).
  destruct (String.compare b a); done.
Qed.

Lemma ltb_irrefl_le a b : String.ltb a b = true -> String.le b a -> False.
Proof.
  unfold String.le, String.leb, String.ltb.
  rewrite (String.compare_antisym a b).
  destruct (String.compare b a); done.
Qed.

Lemma ltb_empty a : String.ltb a EmptyString = false.
Proof. by destruct a. Qed.

Lemma string_le_refl a : String.le a a.
Proof. reflexivity. Qed.

Lemma string_le_trans a b c : String.le a b -> String.le b c -> String.le a c.
Proof. intros. by etrans. Qed.

Lemma string_le_antisym a b : String.le a b -> String.le b a -> a = b.
Proof. intros H1 H2. by apply (anti_symm String.le). Qed.

Lemma pair_le_not_lt a b : pair_le a b <-> ¬ pair_lt b a.
Proof.
  unfold pair_le, pair_lt. split.
  - intros [H|[H1 H2]] [H'|[H1' H2']]; try lia.
    by eapply ltb_irrefl_le.
  - intros H. destruct (Z.lt_total a.1 b.1) as [?|[Heq|?]]; [by left| |].
    + right. split; [done|]. apply not_ltb_le.
      destruct (String.ltb b.2 a.2) eqn:E; [|done].
      exfalso. apply H. right. by split.
    + exfalso. apply H. by left.
Qed.

#[global] Instance pair_le_total : Total pair_le.
Proof.
  intros a b. unfold pair_le.
  destruct (Z.lt_total a.1 b.1) as [?|[Heq|?]]; [by left; left| |by right; left].
  destruct (total String.le a.2 b.2); [left|right]; right; by split.
Qed.

#[global] Instance pair_le_trans : Transitive pair_le.
Proof.
  intros a b c [H1|[H1 H1']] [H2|[H2 H2']]; unfold pair_le.
  - left. lia.
  - left. lia.
  - left. lia.
  - right. split; [lia|]. by etrans.
Qed.

#[global] Instance pair_le_antisym : AntiSymm eq pair_le.
Proof.
  intros [a1 a2] [b1 b2] [H1|[H1 H1']] [H2|[H2 H2']]; simpl in *; try lia.
  f_equal; [done|]. by apply string_le_antisym.
Qed.

Lemma sort_unique l1 l2 :
  l1 ≡ₚ l2 -> merge_sort pair_le l1 = merge_sort pair_le l2.
Proof.
  intros Hp. apply (Sorted_unique pair_le).
  - apply Sorted_merge_sort, _.
  - apply Sorted_merge_sort, _.
  - by rewrite !merge_sort_Permutation.
Qed.

Lemma beats_refl t c : beats t c t c.
Proof. right. split; [done|apply string_le_refl]. Qed.

Lemma beats_antisym t1 c1 t2 c2 :
  beats t1 c1 t2 c2 -> beats t2 c2 t1 c1 -> t1 = t2 /\ c1 = c2.
Proof.
  intros [H1|[H1 H1']] [H2|[H2 H2']]; try lia.
  split; [done|]. by apply string_le_antisym.
Qed.

(** ** Selecting the city *)

Lemma select_step_view r st name id :
  wf r -> city_id r !! name = Some id ->
  select_step r st (name, id) =
    Some (if decide (st.1.1 > vtotal r name) then (vtotal r name, name, id)
          else if bool_decide (vtotal r name = st.1.1) && string_gt st.1.2 name
               then (st.1.1, name, id) else st).
Proof.
  intros (Hc & _ & Ht & _) Hid. destruct st as [[m city] i].
  unfold select_step. simpl.
  rewrite (get1_view _ _ name id Hc Ht Hid). simpl.
  fold (vtotal r name). by repeat case_match.
Qed.

Lemma select_step_inv r l st name id :
  wf r -> city_id r !! name = Some id -> sel_inv r l st ->
  exists st', select_step r st (name, id) = Some st' /\
              sel_inv r (l ++ [(name, id)]) st'.
Proof.
  intros Hwf Hid Hinv. rewrite (select_step_view r st name id Hwf Hid).
  eexists. split; [done|].
  destruct Hinv as [[-> Hall]|(w & idw & -> & Hw & Hlt & Hall)]; simpl.
  - case_decide as Hgt.
    + right. exists name, id. split; [done|].
      split; [apply elem_of_app; right; left|]. split; [lia|].
      intros e [He|He%list_elem_of_singleton]%elem_of_app.
      * left. specialize (Hall e He). lia.
      * subst e. apply beats_refl.
    + unfold string_gt. rewrite ltb_empty, andb_false_r.
      left. split; [done|].
      intros e [He|He%list_elem_of_singleton]%elem_of_app; [by apply Hall|].
      subst e. simpl. lia.
  - case_decide as Hgt.
    + right. exists name, id. split; [done|].
      split; [apply elem_of_app; right; left|]. split; [lia|].
      intros e [He|He%list_elem_of_singleton]%elem_of_app.
      * left. destruct (Hall e He) as [?|[? _]]; lia.
      * subst e. apply beats_refl.
    + unfold string_gt.
      destruct (bool_decide (vtotal r name = vtotal r w) && String.ltb name w) eqn:E.
      * apply andb_prop in E as [Heq%bool_decide_eq_true Hname].
        right. exists name, id. split; [by rewrite Heq|].
        split; [apply elem_of_app; right; left|]. split; [lia|].
        intros e [He|He%list_elem_of_singleton]%elem_of_app.
        -- destruct (Hall e He) as [?|[? Hle]]; [left; lia|].
           right. split; [lia|].
           eapply string_le_trans; [by apply ltb_le|done].
        -- subst e. apply beats_refl.
      * right. exists w, idw. split; [done|].
        split; [apply elem_of_app; by left|]. split; [done|].
        intros e [He|He%list_elem_of_singleton]%elem_of_app; [by apply Hall|].
        subst e. simpl.
        apply andb_false_iff in E as [Hne%bool_decide_eq_false|Hname].
        -- left. lia.
        -- destruct (decide (vtotal r w = vtotal r name)) as [Heq|Hne]; [|left; lia].
           right. split; [done|]. by apply not_ltb_le.
Qed.

Lemma select_fold_inv r l2 :
  forall l1 st,
  wf r -> (forall e, e ∈ l2 -> city_id r !! e.1 = Some e.2) -> sel_inv r l1 st ->
  exists st', fold_opt (select_step r) st l2 = Some st' /\ sel_inv r (l1 ++ l2) st'.
Proof.
  induction l2 as [|[name id] l2 IH]; intros l1 st Hwf Hin Hinv.
  - exists st. by rewrite app_nil_r.
  - destruct (select_step_inv r l1 st name id Hwf) as (st1 & Hstep & Hinv1).
    { apply (Hin (name, id)). left. }
    { done. }
    destruct (IH (l1 ++ [(name, id)]) st1 Hwf) as (st' & Hfold & Hinv').
    { intros e He. apply Hin. by right. }
    { done. }
    exists st'. simpl. rewrite Hstep. simpl. split; [done|].
    by rewrite cons_middle, app_assoc.
Qed.

Section Selection.

Context (iter : gmap string Z -> list (string * Z)).
Context (iter_perm : forall m, iter m ≡ₚ map_to_list m).

Lemma select_city_spec r :
  wf r ->
  exists st, select_city iter r = Some st /\
    ((st = initial_selection /\
      forall c, is_Some (city_id r !! c) -> SENTINEL <= vtotal r c) \/
     (exists w id, st = (vtotal r w, w, id) /\ city_id r !! w = Some id /\
                   is_winner r w)).
Proof.
  intros Hwf.
  destruct (select_fold_inv r (iter (city_id r)) [] initial_selection Hwf)
    as (st & Hfold & Hinv).
  { intros [k i] He. by apply (iter_lookup iter iter_perm). }
  { left. split; [done|]. by intros e ?%elem_of_nil. }
  exists st. split; [done|]. simpl in Hinv.
  destruct Hinv as [[-> Hall]|(w & id & -> & Hw & Hlt & Hall)].
  - left. split; [done|]. intros c [i Hc].
    apply (Hall (c, i)). by apply (iter_lookup iter iter_perm).
  - right. exists w, id. split; [done|].
    apply (iter_lookup iter iter_perm) in Hw. split; [done|].
    split; [eauto|]. split; [done|].
    intros c [i Hc]. apply (Hall (c, i)). by apply (iter_lookup iter iter_perm).
Qed.

End Selection.

Lemma winner_unique r1 r2 w1 w2 :
  (forall c, is_Some (city_id r1 !! c) <-> is_Some (city_id r2 !! c)) ->
  (forall c, vtotal r1 c = vtotal r2 c) ->
  is_winner r1 w1 -> is_winner r2 w2 -> w1 = w2.
Proof.
  intros Hdom Hv (Hin1 & Hlt1 & Hbest1) (Hin2 & Hlt2 & Hbest2).
  pose proof (Hbest1 w2 (proj2 (Hdom w2) Hin2)) as H12.
  pose proof (Hbest2 w1 (proj1 (Hdom w1) Hin1)) as H21.
  rewrite <- !Hv in H21.
  by destruct (beats_antisym _ _ _ _ H12 H21).
Qed.

(** ** The product lines *)

Lemma product_entries_list r w id l :
  wf r -> city_id r !! w = Some id ->
  (forall e, e ∈ l -> product_id r !! e.1 = Some e.2) ->
  mapM (fun pid : string * Z =>
          c ← get2 (product_cost r) id pid.2; Some (c, pid.1)) l
    = Some (entries_of r w l.*1).
Proof.
  intros (Hc & Hp & _ & Hcells) Hw. induction l as [|[p j] l IH]; intros Hin; [done|].
  simpl. rewrite (get2_view _ _ _ w p id j Hc Hp Hcells Hw); [|apply (Hin (p, j)); left].
  simpl. rewrite IH; [done|]. intros e He. apply Hin. by right.
Qed.

Lemma entries_of_ext r1 r2 w l :
  (forall p, vmin r1 w p = vmin r2 w p) -> entries_of r1 w l = entries_of r2 w l.
Proof.
  intros H. unfold entries_of. apply list_fmap_ext. intros _ p _. by rewrite H.
Qed.


Lemma resize5_length l : length (resize5 l) = 5%nat.
Proof.
  unfold resize5. rewrite length_app, length_take, length_replicate. lia.
Qed.

Section Report.

Context (iter : gmap string Z -> list (string * Z)).
Context (iter_perm : forall m, iter m ≡ₚ map_to_list m).

Lemma product_entries_winner r w id :
  wf r -> city_id r !! w = Some id ->
  product_entries iter r id = Some (entries_of r w (iter (product_id r)).*1).
Proof.
  intros Hwf Hw. apply product_entries_list; [done..|].
  intros [k i] He. by apply (iter_lookup iter iter_perm).
Qed.

Lemma iter_nil m : iter m = [] <-> dom m = ∅.
Proof.
  rewrite <- (iter_dom iter iter_perm). split; [by intros ->|].
  destruct (iter m) as [|[k i] l]; [done|]. simpl. set_solver.
Qed.

Lemma product_entries_initial r :
  product_entries iter r (-1) =
    if decide (dom (product_id r) = ∅) then Some [] else None.
Proof.
  unfold product_entries. case_decide as Hd.
  - apply iter_nil in Hd. by rewrite Hd.
  - rewrite <- iter_nil in Hd.
    destruct (iter (product_id r)) as [|e l]; [done|]. reflexivity.
Qed.

(** What [ans] prints: the lines of an empty aggregate when no city is
    below the initial minimum, otherwise the winner, its total and the
    sorted vector cut or filled to five. *)
Lemma ans_spec r :
  wf r ->
  ((forall c, is_Some (city_id r !! c) -> SENTINEL <= vtotal r c) /\
   ans iter r = if decide (dom (product_id r) = ∅) then Some no_data_report else None) \/
  (exists w, is_winner r w /\
     ans iter r =
       Some ((w, vtotal r w)
               :: (swap <$> resize5 (merge_sort pair_le
                                       (entries_of r w (iter (product_id r)).*1))))).
Proof.
  intros Hwf.
  destruct (select_city_spec iter iter_perm r Hwf)
    as (st & Hsel & [[-> Hall]|(w & id & -> & Hw & Hwin)]).
  - left. split; [done|]. unfold ans. rewrite Hsel. simpl.
    rewrite product_entries_initial. by case_decide.
  - right. exists w. split; [done|]. unfold ans. rewrite Hsel. simpl.
    by rewrite (product_entries_winner r w id Hwf Hw).
Qed.

End Report.

Lemma keys_perm iter1 iter2 (m1 m2 : gmap string Z) :
  (forall m, iter1 m ≡ₚ map_to_list m) -> (forall m, iter2 m ≡ₚ map_to_list m) ->
  dom m1 = dom m2 -> (iter1 m1).*1 ≡ₚ (iter2 m2).*1.
Proof.
  intros H1 H2 Hdom. apply NoDup_Permutation.
  - by apply iter_NoDup.
  - by apply iter_NoDup.
  - intros k. rewrite !iter_keys by done.
    by rewrite <- !(elem_of_dom (D := gset string)), Hdom.
Qed.

(** The report only depends on what the aggregate holds under each name,
    not on identifiers or on the order of iteration. *)
Lemma ans_same_view iter1 iter2 r1 r2 :
  (forall m, iter1 m ≡ₚ map_to_list m) -> (forall m, iter2 m ≡ₚ map_to_list m) ->
  wf r1 -> wf r2 ->
  dom (city_id r1) = dom (city_id r2) ->
  dom (product_id r1) = dom (product_id r2) ->
  (forall c, vtotal r1 c = vtotal r2 c) ->
  (forall c p, vmin r1 c p = vmin r2 c p) ->
  ans iter1 r1 = ans iter2 r2.
Proof.
  intros Hi1 Hi2 Hwf1 Hwf2 Hdc Hdp Hv Hm.
  assert (Hdom : forall c, is_Some (city_id r1 !! c) <-> is_Some (city_id r2 !! c)).
  { intros c. by rewrite <- !(elem_of_dom (D := gset string)), Hdc. }
  destruct (ans_spec iter1 Hi1 r1 Hwf1) as [[Hall1 ->]|(w1 & Hw1 & ->)];
    destruct (ans_spec iter2 Hi2 r2 Hwf2) as [[Hall2 ->]|(w2 & Hw2 & ->)].
  - by rewrite Hdp.
  - exfalso. destruct Hw2 as (Hin & Hlt & _).
    apply Hdom in Hin. apply Hall1 in Hin. rewrite Hv in Hin. lia.
  - exfalso. destruct Hw1 as (Hin & Hlt & _).
    apply Hdom in Hin. apply Hall2 in Hin. rewrite <- Hv in Hin. lia.
  - assert (w1 = w2) as <- by by eapply winner_unique.
    rewrite Hv. do 4 f_equal. apply sort_unique.
    rewrite (entries_of_ext r1 r2 w1) by done.
    unfold entries_of.
    by rewrite (keys_perm iter1 iter2 _ _ Hi1 Hi2 Hdp).
Qed.

(** ** From names to optional values *)

Lemma city_total_view r c :
  wf r ->
  city_total r c = if decide (c ∈ dom (city_id r)) then Some (vtotal r c) else None.
Proof.
  intros (Hc & _ & Ht & _). unfold city_total. case_decide as Hin.
  - apply elem_of_dom in Hin as [i Hi]. rewrite Hi. simpl.
    by apply get1_view.
  - apply not_elem_of_dom in Hin. by rewrite Hin.
Qed.

Lemma pair_min_view r c p :
  wf r ->
  pair_min r c p =
    if decide (c ∈ dom (city_id r) /\ p ∈ dom (product_id r))
    then Some (vmin r c p) else None.
Proof.
  intros (Hc & Hp & _ & Hcells). unfold pair_min.
  destruct (city_id r !! c) as [i|] eqn:Ei; simpl.
  - destruct (product_id r !! p) as [j|] eqn:Ej; simpl.
    + rewrite decide_True by (split; apply elem_of_dom; eauto).
      by apply get2_view.
    + rewrite decide_False; [done|]. intros [_ Hin].
      apply elem_of_dom in Hin as [? ?]. congruence.
  - rewrite decide_False; [done|]. intros [Hin _].
    apply elem_of_dom in Hin as [? ?]. congruence.
Qed.

(** ** Records in another order *)

Lemma sum_list_perm l1 l2 : l1 ≡ₚ l2 -> sum_list l1 = sum_list l2.
Proof. unfold sum_list. induction 1; simpl; lia. Qed.

Lemma min_list_perm l1 l2 : l1 ≡ₚ l2 -> min_list l1 = min_list l2.
Proof. unfold min_list. induction 1; simpl; lia. Qed.

Lemma represents_perm r A B : represents r A -> A ≡ₚ B -> represents r B.
Proof.
  intros (Hwf & Hdc & Hdp & Hsum & Hmin) Hperm.
  split; [done|]. split; [|split; [|split]].
  - rewrite Hdc. unfold cities_of. by rewrite Hperm.
  - rewrite Hdp. unfold products_of. by rewrite Hperm.
  - intros c. rewrite Hsum. f_equal. apply sum_list_perm.
    unfold city_prices. by rewrite Hperm.
  - intros c p. rewrite Hmin. apply min_list_perm.
    unfold pair_prices. by rewrite Hperm.
Qed.

Lemma min_list_spec l :
  l ≠ [] -> (forall x, x ∈ l -> x <= SENTINEL) ->
  min_list l ∈ l /\ forall x, x ∈ l -> min_list l <= x.
Proof.
  unfold min_list. induction l as [|y l IH]; [done|]. intros _ Hle.
  destruct l as [|z l].
  - simpl. assert (y <= SENTINEL) by (apply Hle; left).
    rewrite Z.min_l by done. split; [left|].
    intros x ->%list_elem_of_singleton. lia.
  - destruct IH as [Hin Hmin]; [done|intros x Hx; apply Hle; by right|].
    change (foldr Z.min SENTINEL (y :: z :: l))
      with (Z.min y (foldr Z.min SENTINEL (z :: l))).
    split.
    + destruct (Z.min_spec y (foldr Z.min SENTINEL (z :: l))) as [[_ ->]|[_ ->]];
        [left|by right].
    + intros x [->|Hx]%elem_of_cons; [lia|]. specialize (Hmin x Hx). lia.
Qed.

(** ** All workers *)

Lemma cities_of_mono_r recs1 recs2 :
  (size (cities_of recs2) <= size (cities_of (recs1 ++ recs2)))%nat.
Proof. apply subseteq_size. rewrite cities_of_app. set_solver. Qed.

Lemma products_of_mono_r recs1 recs2 :
  (size (products_of recs2) <= size (products_of (recs1 ++ recs2)))%nat.
Proof. apply subseteq_size. rewrite products_of_app. set_solver. Qed.

Lemma workers_represent ws :
  (size (cities_of (concat ws)) <= NUM_CITIES)%nat ->
  (size (products_of (concat ws)) <= NUM_CITIES)%nat ->
  exists rs, mapM worker_result ws = Some rs /\ Forall2 represents rs ws.
Proof.
  induction ws as [|w ws IH]; intros Hsc Hsp.
  - exists []. split; [done|constructor].
  - simpl in Hsc, Hsp.
    destruct (worker_result_represents w) as (r & Hr & Hrep).
    { etrans; [apply cities_of_mono|exact Hsc]. }
    { etrans; [apply products_of_mono|exact Hsp]. }
    destruct IH as (rs & Hrs & Hall).
    { etrans; [apply cities_of_mono_r|exact Hsc]. }
    { etrans; [apply products_of_mono_r|exact Hsp]. }
    exists (r :: rs). split; [|by constructor].
    simpl. rewrite Hr. simpl. by rewrite Hrs.
Qed.

(** Workers and merger together: the merged aggregate of any distribution
    of records over workers holds the totals and minimums of all of them. *)
Lemma pipeline_represents iter ws :
  (forall m, iter m ≡ₚ map_to_list m) ->
  (size (cities_of (concat ws)) <= NUM_CITIES)%nat ->
  (size (products_of (concat ws)) <= NUM_CITIES)%nat ->
  exists rs mr, mapM worker_result ws = Some rs /\ merge iter rs = Some mr /\
                represents mr (concat ws).
Proof.
  intros Hiter Hsc Hsp.
  destruct (workers_represent ws Hsc Hsp) as (rs & Hrs & Hall).
  destruct (merge_represents iter Hiter rs ws Hall Hsc Hsp) as (mr & Hmr & Hrep).
  by exists rs, mr.
Qed.

Lemma ans_defined iter r recs c :
  (forall m, iter m ≡ₚ map_to_list m) -> represents r recs ->
  c ∈ cities_of recs -> wrap64 (sum_list (city_prices recs c)) < SENTINEL ->
  is_Some (ans iter r).
Proof.
  intros Hiter (Hwf & Hdc & _ & Hsum & _) Hc Hlt.
  destruct (ans_spec iter Hiter r Hwf) as [[Hall _]|(w & _ & ->)]; [|eauto].
  exfalso. rewrite <- Hdc in Hc. apply elem_of_dom in Hc.
  apply Hall in Hc. rewrite Hsum in Hc. lia.
Qed.

Lemma reverse_order_perm (m : gmap string Z) : reverse_order m ≡ₚ map_to_list m.
Proof. unfold reverse_order. apply reverse_Permutation. Qed.

(** C9, with the bounds of the arrays: when the records name at most
    [NUM_CITIES] cities and [NUM_CITIES] products, then however they are
    distributed over partial aggregates (how many workers, which records
    each one gets and in which order, in which order the merger meets the
    aggregates and the tables' entries), the workers and the merger
    return, the merged totals and minimums under every name are the same
    and so is the report; the report exists as soon as one city's total is
    below the initial minimum. *)
Theorem report_independent_of_distribution iter1 iter2 (ws1 ws2 : list (list record)) :
  (forall m, iter1 m ≡ₚ map_to_list m) -> (forall m, iter2 m ≡ₚ map_to_list m) ->
  concat ws1 ≡ₚ concat ws2 ->
  (size (cities_of (concat ws1)) <= NUM_CITIES)%nat ->
  (size (products_of (concat ws1)) <= NUM_CITIES)%nat ->
  exists rs1 rs2 mr1 mr2,
    mapM worker_result ws1 = Some rs1 /\ mapM worker_result ws2 = Some rs2 /\
    merge iter1 rs1 = Some mr1 /\ merge iter2 rs2 = Some mr2 /\
    (forall c, city_total mr1 c = city_total mr2 c) /\
    (forall c p, pair_min mr1 c p = pair_min mr2 c p) /\
    ans iter1 mr1 = ans iter2 mr2 /\
    ((exists c, c ∈ cities_of (concat ws1) /\
                wrap64 (sum_list (city_prices (concat ws1) c)) < SENTINEL) ->
     is_Some (ans iter1 mr1)).
Proof.
  intros Hi1 Hi2 Hperm Hsc Hsp.
  destruct (pipeline_represents iter1 ws1 Hi1 Hsc Hsp) as (rs1 & mr1 & Hrs1 & Hmr1 & Hrep1).
  destruct (pipeline_represents iter2 ws2 Hi2) as (rs2 & mr2 & Hrs2 & Hmr2 & Hrep2).
  { unfold cities_of. by rewrite <- Hperm. }
  { unfold products_of. by rewrite <- Hperm. }
  apply (represents_perm _ _ (concat ws1)) in Hrep2; [|done].
  exists rs1, rs2, mr1, mr2. do 4 (split; [done|]).
  pose proof Hrep1 as (Hwf1 & Hdc1 & Hdp1 & Hsum1 & Hmin1).
  pose proof Hrep2 as (Hwf2 & Hdc2 & Hdp2 & Hsum2 & Hmin2).
  split; [|split; [|split]].
  - intros c. rewrite !city_total_view by done.
    by rewrite Hdc1, Hdc2, Hsum1, Hsum2.
  - intros c p. rewrite !pair_min_view by done.
    by rewrite Hdc1, Hdc2, Hdp1, Hdp2, Hmin1, Hmin2.
  - apply ans_same_view; try done.
    + by rewrite Hdc1, Hdc2.
    + by rewrite Hdp1, Hdp2.
    + intros c. by rewrite Hsum1, Hsum2.
    + intros c p. by rewrite Hmin1, Hmin2.
  - intros (c & Hc & Hlt). by eapply ans_defined.
Qed.

Lemma report_independent_of_distribution_witness :
  exists rs1 rs2 mr1 mr2,
    mapM worker_result two_workers = Some rs1 /\
    mapM worker_result three_workers = Some rs2 /\
    merge table_order rs1 = Some mr1 /\ merge reverse_order rs2 = Some mr2 /\
    (forall c, city_total mr1 c = city_total mr2 c) /\
    (forall c p, pair_min mr1 c p = pair_min mr2 c p) /\
    ans table_order mr1 = ans reverse_order mr2 /\
    ((exists c, c ∈ cities_of (concat two_workers) /\
                wrap64 (sum_list (city_prices (concat two_workers) c)) < SENTINEL) ->
     is_Some (ans table_order mr1)).
Proof.
  apply (report_independent_of_distribution table_order reverse_order
           two_workers three_workers).
  - apply table_order_perm.
  - apply reverse_order_perm.
  - apply (bool_decide_unpack _). vm_compute. exact I.
  - vm_compute. lia.
  - vm_compute. lia.
Defined.

(** ** From chunk jobs to records *)

Lemma fold_opt_app {A B} (f : B -> A -> option B) b l1 l2 :
  fold_opt f b (l1 ++ l2) = fold_opt f b l1 ≫= fun b' => fold_opt f b' l2.
Proof.
  revert b. induction l1 as [|x l1 IH]; intros b; simpl; [done|].
  destruct (f b x) as [b'|]; simpl; [apply IH|done].
Qed.

Lemma slot_jobs_elem {A} sched id (js : list A) j :
  j ∈ slot_jobs sched id js -> j ∈ js.
Proof.
  unfold slot_jobs. intros ([i j'] & -> & Hin)%list_elem_of_fmap.
  apply list_elem_of_filter in Hin as [_ Hin].
  apply elem_of_lookup_imap in Hin as (i' & y & [= -> ->] & Hy).
  by eapply list_elem_of_lookup_2.
Qed.

Lemma fold_process_chunk_records mem js r :
  (forall j, j ∈ js -> is_Some (realign mem (Z.to_nat j.1))) ->
  fold_opt (fun r j => process_chunk r mem (Z.to_nat j.1) (Z.to_nat j.2)) r js
    = fold_opt aggregate r (slot_records mem js).
Proof.
  revert r. induction js as [|j js IH]; intros r Hre; [done|].
  unfold slot_records. rewrite bind_cons, fold_opt_app. simpl.
  rewrite process_chunk_records by (apply Hre; left).
  destruct (fold_opt aggregate r _) as [r'|]; simpl; [|done].
  apply IH. intros j' Hj'. apply Hre. by right.
Qed.

Lemma run_slot_records mem js :
  (forall j, j ∈ js -> is_Some (realign mem (Z.to_nat j.1))) ->
  run_slot mem js = worker_result (slot_records mem js).
Proof. apply fold_process_chunk_records. Qed.

Lemma mapM_fmap_compose {A B C} (f : B -> option C) (g : A -> B) (l : list A) :
  mapM f (g <$> l) = mapM (fun x => f (g x)) l.
Proof.
  induction l as [|x l IH]; [done|].
  change (mapM f (g <$> x :: l))
    with (y ← f (g x); k ← mapM f (g <$> l); mret (y :: k)).
  change (mapM (λ x, f (g x)) (x :: l))
    with (y ← f (g x); k ← mapM (λ x, f (g x)) l; mret (y :: k)).
  by rewrite IH.
Qed.

Lemma process_concurrently_records bs num_threads sched mem :
  (0 < num_threads)%nat ->
  (forall j, j ∈ jobs bs (Z.of_nat (length mem)) ->
             is_Some (realign mem (Z.to_nat j.1))) ->
  process_concurrently_with bs num_threads sched mem =
    mapM worker_result
      ((fun id => slot_records mem (slot_jobs sched id (jobs bs (Z.of_nat (length mem)))))
         <$> seq 0 num_threads).
Proof.
  intros Hnt Hre. unfold process_concurrently_with.
  rewrite decide_False by lia.
  rewrite mapM_fmap_compose. apply mapM_ext. intros id.
  apply run_slot_records. intros j Hj%slot_jobs_elem. by apply Hre.
Qed.

Lemma filter_sum_bounds (P : record -> Prop) `{forall x, Decision (P x)} recs :
  (forall rec, rec ∈ recs -> 0 <= rec_price rec) ->
  0 <= sum_list (rec_price <$> filter P recs) <= sum_list (rec_price <$> recs).
Proof.
  induction recs as [|rec recs IH]; intros Hpos; [by vm_compute|].
  assert (0 <= rec_price rec) by (apply Hpos; left).
  destruct IH as [IH1 IH2]; [intros r Hr; apply Hpos; by right|].
  rewrite filter_cons.
  case_decide; rewrite ?fmap_cons, ?sum_list_cons; lia.
Qed.

(** What an aggregate that holds the totals and minimums of a list of
    records gives under a name, when no price is negative or above the
    initial minimum and the prices' sum fits 64 bits: the sum itself, and a
    least price of the pair. *)
Lemma represents_min_sum mr recs :
  represents mr recs ->
  Forall (fun rec => 0 <= rec_price rec <= SENTINEL) recs ->
  sum_list (rec_price <$> recs) < 2 ^ 63 ->
  (forall c, c ∈ cities_of recs ->
             city_total mr c = Some (sum_list (city_prices recs c))) /\
  (forall c p, pair_prices recs c p ≠ [] ->
     exists v, pair_min mr c p = Some v /\ v ∈ pair_prices recs c p /\
               forall x, x ∈ pair_prices recs c p -> v <= x).
Proof.
  intros (Hwf & Hdc & Hdp & Hsum & Hmin) Hprices Htotal.
  rewrite Forall_forall in Hprices. split.
  - intros c Hc. rewrite city_total_view by done.
    rewrite decide_True by by rewrite Hdc.
    rewrite Hsum, wrap64_id; [done|].
    pose proof (filter_sum_bounds (fun rec => rec_city rec = c) recs) as Hb.
    unfold in64, city_prices. split; [|]; destruct Hb as [Hb1 Hb2];
      try (intros rec Hrec; by apply Hprices); lia.
  - intros c p Hne.
    assert (Hall : forall x, x ∈ pair_prices recs c p -> x <= SENTINEL).
    { intros x (rec & -> & Hrec)%list_elem_of_fmap.
      apply list_elem_of_filter in Hrec as [_ Hrec]. by apply Hprices. }
    destruct (min_list_spec _ Hne Hall) as [Hin Hleast].
    exists (min_list (pair_prices recs c p)).
    split; [|by split].
    rewrite pair_min_view by done. rewrite Hmin.
    apply decide_True.
    apply list_elem_of_fmap in Hin as (rec & _ & Hrec).
    apply list_elem_of_filter in Hrec as [[<- <-] Hrec].
    rewrite Hdc, Hdp. unfold cities_of, products_of.
    rewrite !elem_of_list_to_set. split; apply list_elem_of_fmap; eauto.
Qed.

(** The same for the records the workers of a run have read, on any file
    in which every chunk finds a newline to realign on. *)
Lemma min_sum_of_reads iter bs num_threads sched mem :
  let recs := pool_records bs num_threads sched mem in
  (forall m, iter m ≡ₚ map_to_list m) ->
  (0 < num_threads)%nat ->
  Forall (fun j => is_Some (realign mem (Z.to_nat j.1)))
    (jobs bs (Z.of_nat (length mem))) ->
  (size (cities_of recs) <= NUM_CITIES)%nat ->
  (size (products_of recs) <= NUM_CITIES)%nat ->
  Forall (fun rec => 0 <= rec_price rec <= SENTINEL) recs ->
  sum_list (rec_price <$> recs) < 2 ^ 63 ->
  exists results mr,
    process_concurrently_with bs num_threads sched mem = Some results /\
    merge iter results = Some mr /\
    (forall c, c ∈ cities_of recs ->
               city_total mr c = Some (sum_list (city_prices recs c))) /\
    (forall c p, pair_prices recs c p ≠ [] ->
       exists v, pair_min mr c p = Some v /\ v ∈ pair_prices recs c p /\
                 forall x, x ∈ pair_prices recs c p -> v <= x).
Proof.
  intros recs Hiter Hnt Hre Hsc Hsp Hprices Htotal.
  rewrite Forall_forall in Hre.
  destruct (pipeline_represents iter _ Hiter Hsc Hsp)
    as (rs & mr & Hrs & Hmr & Hrep).
  exists rs, mr. split; [by rewrite process_concurrently_records|].
  split; [done|].
  by apply represents_min_sum.
Qed.




(** ** The number of lines *)

Lemma ans_returns iter r :
  (forall m, iter m ≡ₚ map_to_list m) -> wf r ->
  (exists c t, city_total r c = Some t /\ t < SENTINEL) ->
  is_Some (ans iter r).
Proof.
  intros Hiter Hwf (c & t & Hc & Hlt).
  rewrite city_total_view in Hc by done.
  case_decide as Hin; [|done]. injection Hc as <-.
  destruct (ans_spec iter Hiter r Hwf) as [[Hall _]|(w & _ & ->)]; [|eauto].
  apply elem_of_dom in Hin. apply Hall in Hin. lia.
Qed.

Lemma ans_length iter r lines : ans iter r = Some lines -> length lines = 6%nat.
Proof.
  unfold ans. destruct (select_city iter r) as [[[m city] id]|]; simpl; [|done].
  destruct (product_entries iter r id) as [products|]; simpl; [|done].
  intros [= <-]. simpl. by rewrite length_fmap, resize5_length.
Qed.

(** C3, as the code has it: a report exists for every aggregate built by
    workers and merger in which a city's total is below the initial
    minimum, and a report always has one city line followed by exactly five
    product lines, whatever the number of products, since the sorted vector
    is resized to five. For the aggregate of the four records of the
    round-trip input the first two lines are [B 1.50] and [X 0.50]. *)
Theorem report_has_six_lines :
  (forall iter r,
     (forall m, iter m ≡ₚ map_to_list m) -> wf r ->
     (exists c t, city_total r c = Some t /\ t < SENTINEL) ->
     is_Some (ans iter r)) /\
  (forall iter r lines, ans iter r = Some lines -> length lines = 6%nat) /\
  take 2 <$> ans table_order round_trip_result
    = Some [("B"%string, 150); ("X"%string, 50)] /\
  print_line ("B"%string, 150) = ("B 1.50" +:+ nl)%string /\
  print_line ("X"%string, 50) = ("X 0.50" +:+ nl)%string.
Proof.
  split; [intros iter r; apply ans_returns|].
  split; [apply ans_length|].
  repeat split; vm_compute; reflexivity.
Qed.

Lemma report_has_six_lines_witness :
  let lines := ("B"%string, 150)
                 :: (swap <$> resize5 [(50, "X"%string); (SENTINEL, "Y"%string)]) in
  ans table_order round_trip_result = Some lines /\ length lines = 6%nat.
Proof.
  split; [vm_compute; reflexivity|].
  refine (proj1 (proj2 report_has_six_lines) table_order round_trip_result _ _).
  vm_compute. reflexivity.
Defined.

(** C3, as stated, fails: in the round-trip records city B has one product,
    and the report on their aggregate has five product lines: X, then Y
    (never seen in B) with the initial minimum, then three lines with an
    empty name. *)
Lemma round_trip_report_too_long :
  size (products_of (filter (fun rec => rec_city rec = "B"%string) round_trip_records))
    = 1%nat /\
  ans table_order round_trip_result =
    Some [("B"%string, 150); ("X"%string, 50); ("Y"%string, 4000000000000000000);
          (EmptyString, 0); (EmptyString, 0); (EmptyString, 0)].
Proof. split; vm_compute; reflexivity. Qed.

(** ** An input that is only a header line *)

Lemma rawmemchr_first pre rest start :
  LF ∉ pre -> rawmemchr (pre ++ LF :: rest) start = Some (start + length pre)%nat.
Proof.
  revert start. induction pre as [|c pre IH]; intros start Hpre.
  - change (rawmemchr ([] ++ LF :: rest) start)
      with (if bool_decide (LF = LF) then Some start else rawmemchr rest (S start)).
    rewrite bool_decide_eq_true_2 by done. simpl. f_equal. lia.
  - change (rawmemchr ((c :: pre) ++ LF :: rest) start)
      with (if bool_decide (c = LF) then Some start
            else rawmemchr (pre ++ LF :: rest) (S start)).
    rewrite bool_decide_eq_false_2.
    + rewrite IH; [simpl; f_equal; lia|]. intros Hin. apply Hpre. by right.
    + intros ->. apply Hpre. left.
Qed.

Lemma realign_header h start :
  LF ∉ h -> (start <= length h)%nat ->
  realign (h ++ [LF]) start = Some (S (length h)).
Proof.
  intros Hh Hstart. unfold realign.
  assert (Hdrop : drop start (h ++ [LF]) = drop start h ++ [LF]).
  { rewrite drop_app. replace (start - length h)%nat with 0%nat by lia. done. }
  assert (Hrest : LF ∉ drop start h).
  { intros Hin. apply Hh. rewrite <- (take_drop start h).
    apply elem_of_app. by right. }
  case_bool_decide as Hpeek.
  - rewrite Hdrop, rawmemchr_first by done. simpl.
    rewrite length_drop. do 2 f_equal. lia.
  - simpl. do 2 f_equal.
    destruct (decide (start = length h)) as [->|Hne]; [done|].
    exfalso. apply Hh. unfold peek in Hpeek.
    rewrite lookup_app_l in Hpeek by lia.
    destruct (h !! start) as [c|] eqn:E.
    + simpl in Hpeek. subst c. by eapply list_elem_of_lookup_2.
    + apply lookup_ge_None in E. lia.
Qed.

Lemma jobs_range bs file_size job :
  0 < bs -> 0 <= file_size -> job ∈ jobs bs file_size ->
  0 <= job.1 < file_size /\ job.2 <= file_size.
Proof.
  intros Hbs Hsize (j & Hj & ->)%jobs_elem. simpl.
  pose proof (Z.mul_div_le file_size bs Hbs) as Hdiv.
  split; [nia|]. case_decide; [lia|nia].
Qed.

Lemma process_chunk_header r h start end_ :
  LF ∉ h -> (start <= length h)%nat -> (end_ <= S (length h))%nat ->
  process_chunk r (h ++ [LF]) start end_ = Some r.
Proof.
  intros Hh Hstart Hend. unfold process_chunk.
  rewrite realign_header by done. simpl.
  by replace (end_ - S (length h))%nat with 0%nat by lia.
Qed.

Lemma fold_opt_fixed {A B} (f : B -> A -> option B) b l :
  (forall x, x ∈ l -> f b x = Some b) -> fold_opt f b l = Some b.
Proof.
  induction l as [|x l IH]; intros Hf; simpl; [done|].
  rewrite Hf by left. simpl. apply IH. intros y Hy. apply Hf. by right.
Qed.

Lemma process_concurrently_header bs num_threads sched h :
  0 < bs -> (0 < num_threads)%nat -> LF ∉ h ->
  process_concurrently_with bs num_threads sched (h ++ [LF])
    = Some (replicate num_threads new_Result).
Proof.
  intros Hbs Hnt Hh. unfold process_concurrently_with.
  rewrite decide_False by lia.
  rewrite (mapM_const new_Result); [by rewrite length_seq|].
  intros id _. unfold run_slot. apply fold_opt_fixed.
  intros job Hjob%slot_jobs_elem.
  apply jobs_range in Hjob as [H1 H2]; [|done|lia].
  rewrite length_app in H1, H2. simpl in H1, H2.
  apply process_chunk_header; [done|lia..].
Qed.

(** C4, as the code has it: on an input that is only a header line the run
    returns, whatever the block size and the number of workers: no record
    is read and the merged aggregate is empty, and no city of the input is
    named: the report is a city line with an empty name and the initial
    minimum 4e18 as total, followed by five lines with an empty name and
    the amount 0. *)
Theorem header_only_report iter bs num_threads sched h :
  (forall m, iter m ≡ₚ map_to_list m) ->
  0 < bs -> (0 < num_threads)%nat -> LF ∉ h ->
  process_concurrently_with bs num_threads sched (h ++ [LF])
    = Some (replicate num_threads new_Result) /\
  merge iter (replicate num_threads new_Result) = Some new_Result /\
  run_with iter bs num_threads sched (h ++ [LF]) = Some no_data_report.
Proof.
  intros Hiter Hbs Hnt Hh.
  pose proof (process_concurrently_header bs num_threads sched h Hbs Hnt Hh) as Hpc.
  assert (Hmerge : merge iter (replicate num_threads new_Result) = Some new_Result)
    by by apply fold_merge_new.
  split; [done|]. split; [done|].
  unfold run_with. rewrite Hpc. simpl. rewrite Hmerge. simpl.
  by apply ans_new.
Qed.

Lemma header_only_report_witness :
  process_concurrently_with block_size 4 alternate (bytes "city,product,price" ++ [LF])
    = Some (replicate 4 new_Result) /\
  merge table_order (replicate 4 new_Result) = Some new_Result /\
  run_with table_order block_size 4 alternate (bytes "city,product,price" ++ [LF])
    = Some no_data_report.
Proof.
  apply (header_only_report table_order block_size 4 alternate (bytes "city,product,price")).
  - apply table_order_perm.
  - reflexivity.
  - lia.
  - apply (bool_decide_unpack _). vm_compute. exact I.
Defined.

(** C4, as stated, fails: the report for the header-only input is not
    empty and carries the initial minimum as a total. *)
Lemma header_only_report_not_empty :
  run table_order 4 alternate header_only_input =
    Some [(EmptyString, 4000000000000000000); (EmptyString, 0); (EmptyString, 0);
          (EmptyString, 0); (EmptyString, 0); (EmptyString, 0)] /\
  print_line (EmptyString, 4000000000000000000) = (" 40000000000000000.00" +:+ nl)%string.
Proof. split; vm_compute; reflexivity. Qed.

(** * Further properties of the decoder, the partitioner and the pool *)

(** ** Tokens *)

Lemma append_cons a s t : String a s +:+ t = String a (s +:+ t).
Proof. reflexivity. Qed.

Lemma append_snoc s c t : (s +:+ String c EmptyString) +:+ t = s +:+ String c t.
Proof.
  induction s as [|a s IH]; [reflexivity|].
  rewrite !append_cons. f_equal. exact IH.
Qed.

Lemma append_empty_r s : s +:+ EmptyString = s.
Proof.
  induction s as [|a s IH]; [reflexivity|].
  rewrite append_cons. f_equal. exact IH.
Qed.

Lemma not_delim_continue c :
  ¬ is_delim c ->
  bool_decide (c ≠ NUL) && bool_decide (c ≠ COMMA) && bool_decide (c ≠ LF) = true.
Proof.
  intros H. unfold is_delim in H.
  rewrite !bool_decide_eq_true_2; [done|..]; intros Heq; subst c; tauto.
Qed.

Lemma delim_stop c :
  is_delim c ->
  bool_decide (c ≠ NUL) && bool_decide (c ≠ COMMA) && bool_decide (c ≠ LF) = false.
Proof.
  intros [Hc|[Hc|Hc]]; subst c; reflexivity.
Qed.

Lemma is_delim_dec c : is_delim c \/ ¬ is_delim c.
Proof. unfold is_delim. destruct (decide (c = NUL)), (decide (c = COMMA)), (decide (c = LF)); tauto. Qed.

Lemma consume_str_loop_token tok rest start s :
  Forall (fun c => ¬ is_delim c) tok ->
  match rest with [] => True | d :: _ => is_delim d end ->
  consume_str_loop (tok ++ rest) start s = ((start + length tok)%nat, s +:+ text tok).
Proof.
  intros Htok Hrest. revert start s.
  induction Htok as [|c tok Hc _ IH]; intros start s.
  - simpl. rewrite Nat.add_0_r, append_empty_r.
    destruct rest as [|d rest]; [done|]. simpl. by rewrite delim_stop.
  - change (consume_str_loop ((c :: tok) ++ rest) start s)
      with (if bool_decide (c ≠ NUL) && bool_decide (c ≠ COMMA) && bool_decide (c ≠ LF)
            then consume_str_loop (tok ++ rest) (S start) (s +:+ String c EmptyString)
            else (start, s)).
    rewrite not_delim_continue by done. rewrite IH.
    simpl. rewrite append_snoc. f_equal. lia.
Qed.

(** Every list splits into its longest prefix free of delimiters and a rest
    that is empty or starts with a delimiter. *)
Lemma token_split (l : list ascii) :
  exists tok rest, l = tok ++ rest /\ Forall (fun c => ¬ is_delim c) tok /\
                   match rest with [] => True | d :: _ => is_delim d end.
Proof.
  induction l as [|c l (tok & rest & -> & Htok & Hrest)].
  - by exists [], [].
  - destruct (is_delim_dec c) as [Hc|Hc].
    + exists [], (c :: tok ++ rest). by repeat split.
    + exists (c :: tok), rest. split; [done|]. split; [by constructor|done].
Qed.

Lemma peek_drop mem cur n : peek mem (cur + n) = default NUL (drop cur mem !! n).
Proof. unfold peek. by rewrite lookup_drop. Qed.

(** X1: [consume_str], on every file and at every cursor: it appends to the
    caller's buffer the bytes from the cursor up to the first 0, comma or
    newline, none of which it copies, and leaves the cursor one byte behind
    that delimiter; behind the end of the file the delimiter is the byte 0,
    so the buffer is unchanged there and the cursor still moves on. *)
Theorem consume_str_reads_token mem cur acc :
  exists tok,
    consume_str mem cur acc = (S (cur + length tok), acc +:+ text tok) /\
    Forall (fun c => ¬ is_delim c) tok /\
    take (length tok) (drop cur mem) = tok /\
    is_delim (peek mem (cur + length tok)) /\
    ((length mem <= cur)%nat -> tok = []).
Proof.
  destruct (token_split (drop cur mem)) as (tok & rest & Hsplit & Htok & Hrest).
  exists tok. unfold consume_str. rewrite Hsplit.
  rewrite consume_str_loop_token by done.
  split; [done|]. split; [done|]. split; [by rewrite take_app_length|].
  split.
  - rewrite peek_drop, Hsplit, lookup_app_r by lia.
    replace (length tok - length tok)%nat with 0%nat by lia.
    destruct rest as [|d rest]; simpl; [by left|done].
  - intros Hcur. rewrite drop_ge in Hsplit by done.
    symmetry in Hsplit. by apply app_eq_nil in Hsplit as [-> _].
Qed.

(** ** The cursor behind a price *)

Lemma consume_float_fraction_full pre ds fs rest :
  all_digits ds -> all_digits fs -> stops rest ->
  (if decide (length fs = 1%nat) then dec_value (ds ++ fs) * 10
   else dec_value (ds ++ fs)) < 2 ^ 63 ->
  Z.of_nat (length fs) < 2 ^ 31 ->
  consume_float_as_long (pre ++ ds ++ DOT :: fs ++ rest) (length pre) =
    ((if bool_decide (default NUL (rest !! 1%nat) = LF)
      then length pre + length ds + length fs + 3
      else length pre + length ds + length fs + 2)%nat,
     if decide (length fs = 1%nat) then dec_value (ds ++ fs) * 10
     else dec_value (ds ++ fs)).
Proof.
  intros Hds Hfs Hrest Hlt Hlen. unfold consume_float_as_long.
  rewrite drop_prefix.
  pose proof (dec_value_nonneg _ Hds) as Hd0.
  assert (Hall : all_digits (ds ++ fs)) by by apply Forall_app.
  pose proof (dec_value_nonneg _ Hall) as Hv0.
  assert (Hdv : dec_value ds <= dec_value (ds ++ fs)).
  { rewrite dec_value_app. by apply dec_fold_ge. }
  assert (Hmid : dec_value (ds ++ fs) < 2 ^ 63) by (case_decide; lia).
  rewrite integral_loop_digits;
    [|done|reflexivity|lia|change (dec_value ds < 2 ^ 63); lia].
  fold (dec_value ds). simpl head. simpl default.
  rewrite bool_decide_eq_true_2 by done.
  replace (pre ++ ds ++ DOT :: fs ++ rest)
    with ((pre ++ ds ++ [DOT]) ++ fs ++ rest) by by rewrite <- !app_assoc.
  replace (S (length pre + length ds)) with (length (pre ++ ds ++ [DOT]))
    by (rewrite !length_app; simpl; lia).
  rewrite drop_prefix.
  rewrite fraction_loop_digits;
    [|done|done|lia|rewrite <- dec_value_app; lia|lia|lia].
  rewrite <- dec_value_app. cbv zeta.
  replace (S (length (pre ++ ds ++ [DOT]) + length fs))
    with (length ((pre ++ ds ++ [DOT]) ++ fs) + 1)%nat
    by (rewrite !length_app; simpl; lia).
  rewrite (app_assoc _ fs rest), peek_drop, drop_prefix.
  rewrite !length_app. simpl length.
  f_equal.
  - case_bool_decide; lia.
  - destruct (decide (length fs = 1%nat)) as [H1|H1].
    + rewrite bool_decide_eq_true_2 by lia.
      unfold mul64. apply wrap64_id. unfold in64. lia.
    + by rewrite bool_decide_eq_false_2 by lia.
Qed.

(** X2: [consume_float_as_long] behind the digits of a fraction: one byte is
    skipped whatever it is, and a newline directly behind it as well. So
    the cursor ends behind [\n] and behind [\r\n] alike, an empty line
    after the price is swallowed, and at the end of the file the cursor is
    one byte behind the file. *)
Theorem fraction_skips_terminator pre ds fs :
  all_digits ds -> all_digits fs ->
  (if decide (length fs = 1%nat) then dec_value (ds ++ fs) * 10
   else dec_value (ds ++ fs)) < 2 ^ 63 ->
  Z.of_nat (length fs) < 2 ^ 31 ->
  let field := pre ++ ds ++ DOT :: fs in
  (forall t rest, is_digit t = false -> head rest ≠ Some LF ->
     (consume_float_as_long (field ++ t :: rest) (length pre)).1
       = (length field + 1)%nat) /\
  (forall t rest, is_digit t = false ->
     (consume_float_as_long (field ++ t :: LF :: rest) (length pre)).1
       = (length field + 2)%nat) /\
  (consume_float_as_long field (length pre)).1 = (length field + 1)%nat.
Proof.
  intros Hds Hfs Hlt Hlen field.
  assert (Hfield : length field = (length pre + length ds + length fs + 1)%nat).
  { unfold field. rewrite !length_app. simpl. lia. }
  assert (Hshape : forall rest, field ++ rest = pre ++ ds ++ DOT :: fs ++ rest).
  { intros rest. unfold field. by rewrite <- !app_assoc. }
  split; [|split].
  - intros t rest Ht Hrest. rewrite Hshape.
    rewrite consume_float_fraction_full by done. simpl.
    rewrite bool_decide_eq_false_2; [lia|].
    destruct rest as [|c rest]; simpl; [done|]. simpl in Hrest. congruence.
  - intros t rest Ht. rewrite Hshape.
    rewrite consume_float_fraction_full by done. simpl. lia.
  - rewrite <- (app_nil_r field), Hshape.
    rewrite consume_float_fraction_full by done. simpl.
    rewrite !length_app. simpl. rewrite !length_app. simpl. lia.
Qed.

Lemma fraction_skips_terminator_witness :
  (consume_float_as_long (([] ++ bytes "12" ++ DOT :: bytes "50") ++ CR :: LF :: bytes "B,")
     0).1 = 7%nat.
Proof.
  refine (proj1 (proj2 (fraction_skips_terminator [] (bytes "12") (bytes "50") _ _ _ _))
            CR (bytes "B,") _).
  - repeat constructor.
  - repeat constructor.
  - vm_compute. reflexivity.
  - vm_compute. reflexivity.
  - reflexivity.
Defined.

(** ** One record of a formatted line *)

Lemma consume_str_token pre tok d rest acc :
  Forall (fun c => ¬ is_delim c) tok -> is_delim d ->
  consume_str (pre ++ tok ++ d :: rest) (length pre) acc
    = (S (length pre + length tok), acc +:+ text tok).
Proof.
  intros Htok Hd. unfold consume_str. rewrite drop_prefix.
  by rewrite consume_str_loop_token.
Qed.

Lemma read_record_fields pre city product ds fs tail :
  Forall (fun c => ¬ is_delim c) city -> Forall (fun c => ¬ is_delim c) product ->
  all_digits ds -> all_digits fs -> stops tail ->
  (if decide (length fs = 1%nat) then dec_value (ds ++ fs) * 10
   else dec_value (ds ++ fs)) < 2 ^ 63 ->
  Z.of_nat (length fs) < 2 ^ 31 ->
  read_record (pre ++ city ++ COMMA :: product ++ COMMA :: ds ++ DOT :: fs ++ tail)
    (length pre)
  = ((length pre + length city + length product + length ds + length fs +
      if bool_decide (default NUL (tail !! 1%nat) = LF) then 5 else 4)%nat,
     (text city, text product,
      if decide (length fs = 1%nat) then dec_value (ds ++ fs) * 10
      else dec_value (ds ++ fs))).
Proof.
  intros Hcity Hproduct Hds Hfs Htail Hlt Hlen. unfold read_record.
  rewrite consume_str_token by (done || (right; by left)).
  replace (pre ++ city ++ COMMA :: product ++ COMMA :: ds ++ DOT :: fs ++ tail)
    with ((pre ++ city ++ [COMMA]) ++ product ++ COMMA :: ds ++ DOT :: fs ++ tail)
    by by rewrite <- !app_assoc.
  replace (S (length pre + length city)) with (length (pre ++ city ++ [COMMA]))
    by (rewrite !length_app; simpl; lia).
  rewrite consume_str_token by (done || (right; by left)).
  replace ((pre ++ city ++ [COMMA]) ++ product ++ COMMA :: ds ++ DOT :: fs ++ tail)
    with (((pre ++ city ++ [COMMA]) ++ product ++ [COMMA]) ++ ds ++ DOT :: fs ++ tail)
    by by rewrite <- !app_assoc.
  replace (S (length (pre ++ city ++ [COMMA]) + length product))
    with (length ((pre ++ city ++ [COMMA]) ++ product ++ [COMMA]))
    by (rewrite !length_app; simpl; lia).
  rewrite consume_float_fraction_full by done.
  rewrite !length_app. simpl length.
  f_equal. case_bool_decide; lia.
Qed.

Lemma line_end_stops l rest : stops (line_end l ++ rest).
Proof. unfold line_end. by destruct (l_cr l). Qed.

(** X3: the three decoder calls of the loop body, at the first byte of a
    formatted line: they return the line's city, product and price in
    hundredths and leave the cursor on the first byte after the line, be
    the line ended by [\n] or by [\r\n]. After a line ended by a bare [\n]
    this needs the next byte not to be a newline. *)
Theorem read_record_line pre l rest :
  line_ok l -> (l_cr l = false -> head rest ≠ Some LF) ->
  read_record (pre ++ line_bytes l ++ rest) (length pre)
    = ((length pre + length (line_bytes l))%nat, line_record l).
Proof.
  intros (Hcity & Hproduct & Hds & Hfs & Hlt & Hlen) Hrest.
  unfold line_bytes, line_record, line_price in *.
  replace (pre ++ (l_city l ++ COMMA :: l_product l ++ COMMA :: l_int l
                     ++ DOT :: l_frac l ++ line_end l) ++ rest)
    with (pre ++ l_city l ++ COMMA :: l_product l ++ COMMA :: l_int l
            ++ DOT :: l_frac l ++ line_end l ++ rest)
    by (rewrite <- !app_assoc; simpl; do 2 f_equal; rewrite <- !app_assoc; simpl;
        do 2 f_equal; rewrite <- !app_assoc; simpl; by rewrite <- !app_assoc).
  rewrite read_record_fields by (done || apply line_end_stops).
  f_equal. rewrite !length_app. simpl. rewrite !length_app. simpl.
  rewrite !length_app. simpl. unfold line_end in *.
  destruct (l_cr l); simpl; rewrite !length_app; simpl.
  - lia.
  - rewrite bool_decide_eq_false_2; [lia|].
    destruct rest as [|c rest]; [done|]. simpl. intros Hc. subst c. by apply Hrest.
Qed.

Lemma read_record_line_witness :
  read_record (bytes "h" ++ [LF] ++ bytes "A,X,1.5" ++ [CR; LF] ++ bytes "B,Y,2.00" ++ [LF]) 2
    = (11%nat, ("A"%string, "X"%string, 150)).
Proof.
  apply (read_record_line (bytes "h" ++ [LF])
           (mkLine (bytes "A") (bytes "X") (bytes "1") (bytes "5") true)
           (bytes "B,Y,2.00" ++ [LF])).
  - repeat split; try (repeat constructor; intros [H|[H|H]]; discriminate H);
      try (repeat constructor); vm_compute; reflexivity.
  - intros H. discriminate H.
Defined.

(** ** Realignment *)

Lemma rawmemchr_spec rest start :
  match rawmemchr rest start with
  | Some p => (start <= p)%nat /\ rest !! (p - start)%nat = Some LF /\
              forall i, (i < p - start)%nat -> rest !! i ≠ Some LF
  | None => LF ∉ rest
  end.
Proof.
  revert start. induction rest as [|c rest IH]; intros start; simpl.
  - apply not_elem_of_nil.
  - case_bool_decide as Hc.
    + subst c. rewrite Nat.sub_diag. split; [lia|]. split; [done|]. intros i Hi. lia.
    + specialize (IH (S start)). destruct (rawmemchr rest (S start)) as [p|].
      * destruct IH as (Hle & Hp & Hbefore). split; [lia|].
        replace (p - start)%nat with (S (p - S start)) by lia.
        split; [done|]. intros [|i] Hi; simpl; [congruence|].
        apply Hbefore. lia.
      * intros [Heq|Hin]%elem_of_cons; [congruence|done].
Qed.

Lemma peek_LF mem i : peek mem i = LF <-> mem !! i = Some LF.
Proof.
  unfold peek. destruct (mem !! i) as [c|]; simpl; [|done].
  split; [by intros ->|by intros [= ->]].
Qed.

(** X4: the first statements of [process_chunk]: the cursor is put one byte
    behind the first newline at or after the start of the chunk; when no
    newline follows, the scan of [rawmemchr] leaves the file. *)
Theorem realign_first_newline mem start :
  match realign mem start with
  | Some p => (start < p)%nat /\ mem !! (p - 1)%nat = Some LF /\
              forall i, (start <= i < p - 1)%nat -> mem !! i ≠ Some LF
  | None => LF ∉ drop start mem
  end.
Proof.
  unfold realign. case_bool_decide as Hpeek.
  - pose proof (rawmemchr_spec (drop start mem) start) as Hraw.
    destruct (rawmemchr (drop start mem) start) as [p|]; simpl; [|done].
    destruct Hraw as (Hle & Hp & Hbefore).
    rewrite lookup_drop in Hp. split; [lia|]. split.
    + rewrite <- Hp. f_equal. lia.
    + intros i Hi. specialize (Hbefore (i - start)%nat).
      rewrite lookup_drop in Hbefore.
      replace (start + (i - start))%nat with i in Hbefore by lia.
      apply Hbefore. lia.
  - simpl. split; [lia|]. split.
    + apply peek_LF. rewrite Nat.sub_0_r.
      by destruct (decide (peek mem start = LF)).
    + intros i Hi. lia.
Qed.

Lemma realign_before_newline pre mid rest start :
  LF ∉ mid -> (length pre <= start <= length pre + length mid)%nat ->
  realign (pre ++ mid ++ LF :: rest) start = Some (S (length pre + length mid)).
Proof.
  intros Hmid Hstart. unfold realign.
  assert (Hdrop : drop start (pre ++ mid ++ LF :: rest)
                  = drop (start - length pre) mid ++ LF :: rest).
  { rewrite drop_app, drop_ge, app_nil_l by lia.
    rewrite drop_app.
    replace (start - length pre - length mid)%nat with 0%nat by lia. done. }
  assert (Hrest : LF ∉ drop (start - length pre) mid).
  { intros Hin. apply Hmid. rewrite <- (take_drop (start - length pre) mid).
    apply elem_of_app. by right. }
  case_bool_decide as Hpeek.
  - rewrite Hdrop, rawmemchr_first by done. simpl.
    rewrite length_drop. do 2 f_equal. lia.
  - simpl. do 2 f_equal.
    destruct (decide (start = length pre + length mid)%nat) as [Heq|Hne]; [done|].
    exfalso. apply Hrest.
    assert (Hlf : peek (pre ++ mid ++ LF :: rest) start = LF)
      by by destruct (decide (peek (pre ++ mid ++ LF :: rest) start = LF)).
    apply peek_LF in Hlf.
    replace start with (start + 0)%nat in Hlf by lia.
    rewrite <- lookup_drop, Hdrop in Hlf.
    destruct (drop (start - length pre) mid) as [|c tl] eqn:E.
    + apply (f_equal length) in E. rewrite length_drop in E. simpl in E. lia.
    + simpl in Hlf. injection Hlf as ->. left.
Qed.

Lemma chunk_records_empty mem start end_ :
  (end_ <= S start)%nat -> chunk_records mem start end_ = [].
Proof.
  intros Hend. unfold chunk_records.
  destruct (realign mem start) as [p|] eqn:E; [|done].
  apply realign_gt in E.
  by replace (end_ - p)%nat with 0%nat by lia.
Qed.

(** ** The lines a chunk reads *)

Lemma filter_ext_in {A} (P Q : A -> Prop) `{!forall x, Decision (P x)}
    `{!forall x, Decision (Q x)} (l : list A) :
  (forall x, x ∈ l -> P x <-> Q x) -> filter P l = filter Q l.
Proof.
  induction l as [|x l IH]; intros Hext; [done|].
  rewrite !filter_cons.
  rewrite IH by (intros y Hy; apply Hext; by right).
  apply decide_ext, Hext. left.
Qed.

Lemma filter_none {A} (P : A -> Prop) `{!forall x, Decision (P x)} (l : list A) :
  (forall x, x ∈ l -> ¬ P x) -> filter P l = [].
Proof.
  induction l as [|x l IH]; intros Hnone; [done|].
  rewrite filter_cons_False by (apply Hnone; left).
  apply IH. intros y Hy. apply Hnone. by right.
Qed.

Lemma filter_all {A} (P : A -> Prop) `{!forall x, Decision (P x)} (l : list A) :
  (forall x, x ∈ l -> P x) -> filter P l = l.
Proof.
  induction l as [|x l IH]; intros Hall; [done|].
  rewrite filter_cons_True by (apply Hall; left).
  f_equal. apply IH. intros y Hy. apply Hall. by right.
Qed.

Lemma token_no_LF tok : Forall (fun c => ¬ is_delim c) tok -> LF ∉ tok.
Proof.
  intros Htok Hin. rewrite Forall_forall in Htok.
  apply (Htok LF Hin). right. by right.
Qed.

Lemma digits_no_LF ds : all_digits ds -> LF ∉ ds.
Proof.
  intros Hds Hin. unfold all_digits in Hds. rewrite Forall_forall in Hds.
  by specialize (Hds LF Hin).
Qed.

(** A well-formed line holds one newline, its last byte. *)
Lemma line_bytes_split l :
  line_ok l -> exists mid, line_bytes l = mid ++ [LF] /\ LF ∉ mid.
Proof.
  intros (Hcity%token_no_LF & Hproduct%token_no_LF & Hds%digits_no_LF
          & Hfs%digits_no_LF & _).
  exists (l_city l ++ COMMA :: l_product l ++ COMMA :: l_int l ++ DOT :: l_frac l
            ++ if l_cr l then [CR] else []).
  split.
  - unfold line_bytes, line_end. rewrite <- !app_assoc. simpl. do 2 f_equal.
    rewrite <- !app_assoc. simpl. do 2 f_equal.
    rewrite <- !app_assoc. simpl. do 2 f_equal.
    rewrite <- !app_assoc. by destruct (l_cr l).
  - rewrite !elem_of_app, !elem_of_cons, !elem_of_app, !elem_of_cons,
      !elem_of_app, !elem_of_cons, !elem_of_app.
    intros [H|[H|[H|[H|[H|[H|[H|H]]]]]]]; try done.
    destruct (l_cr l); [|by apply elem_of_nil in H].
    apply list_elem_of_singleton in H. done.
Qed.

Lemma body_cons l ls : body (l :: ls) = line_bytes l ++ body ls.
Proof. reflexivity. Qed.

Lemma body_head ls : Forall line_ok ls -> head (body ls) ≠ Some LF.
Proof.
  intros Hls. destruct Hls as [|l ls (Hcity & _) _]; [done|].
  rewrite body_cons. unfold line_bytes.
  destruct Hcity as [|c tok Hc _]; simpl; [done|].
  intros [= ->]. apply Hc. right. by right.
Qed.

Lemma read_record_body pre l ls :
  Forall line_ok (l :: ls) ->
  read_record (pre ++ body (l :: ls)) (length pre)
    = (length (pre ++ line_bytes l), line_record l).
Proof.
  intros Hls. apply Forall_cons in Hls as [Hl Hls].
  pose proof (body_head ls Hls) as Hhead.
  destruct Hl as (Hcity & Hproduct & Hds & Hfs & Hlt & Hlen).
  rewrite body_cons. unfold line_bytes, line_record, line_price in *.
  replace (pre ++ (l_city l ++ COMMA :: l_product l ++ COMMA :: l_int l
                     ++ DOT :: l_frac l ++ line_end l) ++ body ls)
    with (pre ++ l_city l ++ COMMA :: l_product l ++ COMMA :: l_int l
            ++ DOT :: l_frac l ++ line_end l ++ body ls)
    by (rewrite <- !app_assoc; simpl; do 2 f_equal; rewrite <- !app_assoc; simpl;
        do 2 f_equal; rewrite <- !app_assoc; simpl; by rewrite <- !app_assoc).
  rewrite read_record_fields by (done || apply line_end_stops).
  f_equal. rewrite !length_app. simpl. rewrite !length_app. simpl.
  rewrite !length_app. simpl. unfold line_end in *.
  destruct (l_cr l); simpl; rewrite !length_app; simpl.
  - lia.
  - rewrite bool_decide_eq_false_2; [lia|].
    destruct (body ls) as [|c rest]; [done|]. simpl. intros Hc. subst c. done.
Qed.

Lemma layout_cons o l ls :
  layout o (l :: ls) = (o, line_record l) :: layout (o + length (line_bytes l)) ls.
Proof. reflexivity. Qed.

Lemma layout_ge o ls p : p ∈ layout o ls -> (o <= p.1)%nat.
Proof.
  revert o. induction ls as [|l ls IH]; intros o; simpl.
  - by intros ?%elem_of_nil.
  - intros [->|Hin]%elem_of_cons; [done|]. apply IH in Hin. lia.
Qed.

Lemma chunk_records_loop_lines ls pre fuel end_ :
  Forall line_ok ls -> (end_ <= length (pre ++ body ls))%nat ->
  (end_ - length pre <= fuel)%nat ->
  chunk_records_loop fuel (pre ++ body ls) (length pre) end_
    = filter (fun p => (p.1 < end_)%nat) (layout (length pre) ls).
Proof.
  revert pre fuel. induction ls as [|l ls IH]; intros pre fuel Hls Hend Hfuel.
  - rewrite length_app in Hend. simpl in Hend.
    destruct fuel as [|fuel]; [done|]. simpl.
    by rewrite decide_False by lia.
  - destruct (decide (length pre < end_)%nat) as [Hlt|Hge].
    + destruct fuel as [|fuel]; [lia|].
      change (chunk_records_loop (S fuel) (pre ++ body (l :: ls)) (length pre) end_)
        with (if decide (length pre < end_)%nat then
                let '(cur', rec) := read_record (pre ++ body (l :: ls)) (length pre) in
                (length pre, rec) :: chunk_records_loop fuel (pre ++ body (l :: ls)) cur' end_
              else []).
      rewrite decide_True by done. rewrite read_record_body by done.
      simpl layout. rewrite filter_cons_True by done. f_equal.
      apply Forall_cons in Hls as [Hl Hls].
      assert (Hpos : (0 < length (line_bytes l))%nat).
      { destruct (line_bytes_split l Hl) as (mid & -> & _).
        rewrite length_app. simpl. lia. }
      rewrite body_cons, app_assoc in *.
      rewrite <- (length_app pre (line_bytes l)).
      apply IH; [done|done|]. rewrite length_app. lia.
    + rewrite filter_none.
      * destruct fuel as [|fuel]; [done|]. simpl. by rewrite decide_False.
      * intros p Hp%layout_ge. lia.
Qed.

Lemma chunk_records_lines ls pre0 start end_ :
  Forall line_ok ls -> (length pre0 <= start)%nat ->
  (end_ <= length (pre0 ++ LF :: body ls))%nat ->
  chunk_records (pre0 ++ LF :: body ls) start end_
    = filter (fun p => (start < p.1 < end_)%nat) (layout (S (length pre0)) ls).
Proof.
  revert pre0 start. induction ls as [|l ls IH]; intros pre0 start Hls Hstart Hend.
  - rewrite length_app in Hend. simpl in Hend.
    apply chunk_records_empty. lia.
  - pose proof Hls as Hall. apply Forall_cons in Hls as [Hl Hls].
    destruct (line_bytes_split l Hl) as (mid & Hsplit & Hmid).
    assert (Hmem : pre0 ++ LF :: body (l :: ls) = (pre0 ++ LF :: mid) ++ LF :: body ls).
    { rewrite body_cons, Hsplit, <- !app_assoc. simpl. by rewrite <- ?app_assoc. }
    assert (Hnext : (S (length pre0) + length (line_bytes l))%nat
                    = S (length (pre0 ++ LF :: mid))).
    { rewrite Hsplit, !length_app. simpl. lia. }
    destruct (decide (start = length pre0)) as [->|Hne].
    + unfold chunk_records.
      change (pre0 ++ LF :: body (l :: ls)) with (pre0 ++ [] ++ LF :: body (l :: ls)).
      rewrite (realign_before_newline pre0 [] (body (l :: ls)) (length pre0))
        by (simpl; (apply not_elem_of_nil || lia)).
      simpl length. rewrite Nat.add_0_r.
      replace (pre0 ++ [] ++ LF :: body (l :: ls)) with ((pre0 ++ [LF]) ++ body (l :: ls))
        by by rewrite <- app_assoc.
      replace (S (length pre0)) with (length (pre0 ++ [LF]))
        by (rewrite length_app; simpl; lia).
      rewrite chunk_records_loop_lines; [|done| |lia].
      * apply filter_ext_in. intros p Hp%layout_ge.
        rewrite length_app in Hp. simpl in Hp. lia.
      * rewrite <- app_assoc. exact Hend.
    + rewrite layout_cons, Hnext.
      rewrite filter_cons_False by (simpl; lia).
      destruct (decide (length (pre0 ++ LF :: mid) <= start)%nat) as [Hin|Hout].
      * rewrite Hmem. apply IH; [done|done|by rewrite <- Hmem].
      * transitivity (chunk_records (pre0 ++ LF :: body (l :: ls))
                        (length (pre0 ++ LF :: mid)) end_).
        -- unfold chunk_records.
           replace (pre0 ++ LF :: body (l :: ls))
             with ((pre0 ++ [LF]) ++ mid ++ LF :: body ls)
             by (rewrite Hmem, <- !app_assoc; done).
           rewrite !(realign_before_newline (pre0 ++ [LF]) mid (body ls)); try done.
           ++ rewrite !length_app. simpl. lia.
           ++ rewrite !length_app in *. simpl in *. lia.
        -- rewrite Hmem, IH; [|done|done|by rewrite <- Hmem].
           apply filter_ext_in. intros p Hp%layout_ge. simpl in Hp. lia.
Qed.

(** ** The chunks of a file of at least one block *)

Lemma chunk_jobs_exact n i bs file_size chunks_count :
  0 < bs -> chunks_count * bs <= file_size ->
  i + Z.of_nat n = chunks_count ->
  chunk_jobs n i bs file_size chunks_count
    = (fun k => (k * bs, if decide (k + 1 = chunks_count) then file_size
                         else (k + 1) * bs)) <$> seqZ i (Z.of_nat n).
Proof.
  intros Hbs Hsize. revert i. induction n as [|n IH]; intros i Hi.
  - by rewrite seqZ_nil.
  - rewrite seqZ_cons by lia. rewrite fmap_cons. simpl chunk_jobs.
    rewrite decide_False by (case_decide; nia).
    f_equal. rewrite IH by lia. do 2 f_equal; lia.
Qed.

Lemma jobs_exact bs file_size :
  0 < bs -> 0 <= file_size ->
  jobs bs file_size
    = (fun k => (k * bs, if decide (k + 1 = file_size / bs) then file_size
                         else (k + 1) * bs)) <$> seqZ 0 (file_size / bs).
Proof.
  intros Hbs Hsize. unfold jobs.
  pose proof (Z.mul_div_le file_size bs Hbs) as Hdiv.
  pose proof (Z.div_pos file_size bs Hsize Hbs) as Hpos.
  rewrite chunk_jobs_exact by lia.
  by rewrite Z2Nat.id.
Qed.

Lemma jobs_lookup bs file_size (i : nat) :
  0 < bs -> 0 <= file_size -> Z.of_nat i < file_size / bs ->
  jobs bs file_size !! i
    = Some (Z.of_nat i * bs, if decide (Z.of_nat i + 1 = file_size / bs) then file_size
                             else (Z.of_nat i + 1) * bs).
Proof.
  intros Hbs Hsize Hi. rewrite jobs_exact by done.
  rewrite list_lookup_fmap, lookup_seqZ_lt by done. done.
Qed.

Lemma jobs_length bs file_size :
  0 < bs -> 0 <= file_size -> length (jobs bs file_size) = Z.to_nat (file_size / bs).
Proof.
  intros Hbs Hsize. rewrite jobs_exact by done.
  by rewrite length_fmap, length_seqZ.
Qed.

(** X5: the [for] loop of [process_concurrently] on a file of at least one
    block: it queues [file_size / block_size] chunks and never leaves by
    its [break]; the first chunk starts at the first byte, every chunk
    starts where the one before it ends, the last one ends with the file,
    and no chunk is shorter than a block or as long as two. *)
Theorem jobs_tile_file bs file_size :
  0 < bs -> bs <= file_size ->
  let js := jobs bs file_size in
  length js = Z.to_nat (file_size / bs) /\
  head js.*1 = Some 0 /\
  last js.*2 = Some file_size /\
  (forall i j j', js !! i = Some j -> js !! S i = Some j' -> j.2 = j'.1) /\
  (forall j, j ∈ js -> bs <= j.2 - j.1 < 2 * bs).
Proof.
  intros Hbs Hsize js.
  assert (Hcount : 1 <= file_size / bs).
  { apply Z.div_le_lower_bound; lia. }
  pose proof (Z.mul_div_le file_size bs Hbs) as Hlow.
  pose proof (Z.mul_succ_div_gt file_size bs Hbs) as Hhigh.
  assert (Hlen : length js = Z.to_nat (file_size / bs)) by (apply jobs_length; lia).
  split; [done|]. split; [|split; [|split]].
  - rewrite head_lookup, list_lookup_fmap. unfold js.
    rewrite jobs_lookup by lia. done.
  - rewrite last_lookup, list_lookup_fmap, length_fmap, Hlen. unfold js.
    rewrite jobs_lookup by lia. simpl.
    rewrite decide_True by lia. done.
  - intros i j j' Hj Hj'.
    assert (Hi : Z.of_nat (S i) < file_size / bs).
    { apply lookup_lt_Some in Hj'. lia. }
    unfold js in Hj, Hj'. rewrite jobs_lookup in Hj, Hj' by lia.
    injection Hj as <-. injection Hj' as <-. simpl.
    rewrite decide_False by lia. lia.
  - intros j (k & Hk & ->)%jobs_elem. simpl.
    case_decide; nia.
Qed.

Lemma jobs_tile_file_witness :
  let js := jobs 4 10 in
  length js = 2%nat /\ head js.*1 = Some 0 /\ last js.*2 = Some 10 /\
  (forall i j j', js !! i = Some j -> js !! S i = Some j' -> j.2 = j'.1) /\
  (forall j, j ∈ js -> 4 <= j.2 - j.1 < 2 * 4).
Proof. apply (jobs_tile_file 4 10); lia. Defined.

(** ** The lines a run reads *)

Lemma file_ends_newline h ls :
  Forall line_ok ls -> exists init, h ++ LF :: body ls = init ++ [LF].
Proof.
  intros Hls. revert h. induction Hls as [|l ls Hl _ IH]; intros h.
  - by exists h.
  - destruct (line_bytes_split l Hl) as (mid & Hsplit & _).
    destruct (IH (h ++ LF :: mid)) as (init & Hinit).
    exists init. rewrite <- Hinit, body_cons, Hsplit, <- !app_assoc. simpl.
    by rewrite <- ?app_assoc.
Qed.

Lemma realign_some init start :
  (start <= length init)%nat -> is_Some (realign (init ++ [LF]) start).
Proof.
  intros Hstart. unfold realign. case_bool_decide; [|by eexists].
  pose proof (rawmemchr_spec (drop start (init ++ [LF])) start) as Hraw.
  destruct (rawmemchr _ start) as [p|]; [by eexists|].
  exfalso. apply Hraw. rewrite drop_app. apply elem_of_app. right.
  replace (start - length init)%nat with 0%nat by lia. left.
Qed.

Lemma realign_file h ls start :
  Forall line_ok ls -> (start < length (h ++ LF :: body ls))%nat ->
  is_Some (realign (h ++ LF :: body ls) start).
Proof.
  intros Hls Hstart. destruct (file_ends_newline h ls Hls) as (init & Hinit).
  rewrite Hinit in *. apply realign_some.
  rewrite length_app in Hstart. simpl in Hstart. lia.
Qed.

Lemma chunk_records_file h ls start end_ :
  LF ∉ h -> Forall line_ok ls -> (end_ <= length (h ++ LF :: body ls))%nat ->
  chunk_records (h ++ LF :: body ls) start end_
    = filter (fun p => (start < p.1 < end_)%nat) (layout (S (length h)) ls).
Proof.
  intros Hh Hls Hend.
  destruct (decide (length h <= start)%nat) as [Hge|Hlt].
  - by apply chunk_records_lines.
  - transitivity (chunk_records (h ++ LF :: body ls) (length h) end_).
    + unfold chunk_records.
      change (h ++ LF :: body ls) with ([] ++ h ++ LF :: body ls).
      rewrite !(realign_before_newline [] h (body ls)); simpl; try done; lia.
    + rewrite chunk_records_lines by done.
      apply filter_ext_in. intros p Hp%layout_ge. simpl in Hp. lia.
Qed.

(** X6: [process_chunk] on a file made of a header line and formatted lines,
    for any byte range that starts inside the file: it aggregates, in file
    order, exactly the lines whose first byte lies behind the first byte
    of the range and before its end; a line that starts on the first byte
    of the range is left out, a line that starts inside it and ends behind
    it is read to its end. *)
Theorem process_chunk_lines r h ls start end_ :
  LF ∉ h -> Forall line_ok ls ->
  (start < length (h ++ LF :: body ls))%nat ->
  (end_ <= length (h ++ LF :: body ls))%nat ->
  process_chunk r (h ++ LF :: body ls) start end_
    = fold_opt aggregate r
        (filter (fun p => (start < p.1 < end_)%nat) (layout (S (length h)) ls)).*2.
Proof.
  intros Hh Hls Hstart Hend.
  rewrite process_chunk_records by by apply realign_file.
  by rewrite chunk_records_file.
Qed.

Lemma process_chunk_lines_witness :
  process_chunk new_Result (header_bytes ++ LF :: body boundary_lines) 28 46
    = fold_opt aggregate new_Result
        (filter (fun p => (28 < p.1 < 46)%nat)
           (layout (S (length header_bytes)) boundary_lines)).*2.
Proof.
  apply (process_chunk_lines new_Result header_bytes boundary_lines 28 46).
  - apply (bool_decide_unpack _). vm_compute. exact I.
  - apply (bool_decide_unpack _). vm_compute. exact I.
  - vm_compute. lia.
  - vm_compute. lia.
Defined.

Lemma filter_app_sorted {A} (R : A -> A -> Prop) (P Q : A -> Prop)
    `{!forall x, Decision (P x)} `{!forall x, Decision (Q x)} (xs : list A) :
  StronglySorted R xs ->
  (forall x y, P x -> Q y -> R y x -> False) ->
  (forall x, P x -> Q x -> False) ->
  filter P xs ++ filter Q xs = filter (fun x => P x \/ Q x) xs.
Proof.
  intros Hsorted Hord Hdis. induction Hsorted as [|x xs _ IH Hx]; [done|].
  rewrite Forall_forall in Hx.
  rewrite !filter_cons. destruct (decide (P x)) as [HP|HP].
  - rewrite (decide_False (P:=Q x)) by eauto.
    rewrite decide_True by by left.
    simpl. by rewrite IH.
  - destruct (decide (Q x)) as [HQ|HQ].
    + rewrite decide_True by by right.
      assert (Hnone : filter P xs = []).
      { apply filter_none. intros y Hy HPy.
        eapply Hord; [exact HPy|exact HQ|by apply Hx]. }
      rewrite Hnone in *. simpl in *. by rewrite IH.
    + rewrite decide_False by tauto. exact IH.
Qed.

Lemma line_bytes_pos l : line_ok l -> (0 < length (line_bytes l))%nat.
Proof.
  intros Hl. destruct (line_bytes_split l Hl) as (mid & -> & _).
  rewrite length_app. simpl. lia.
Qed.

Lemma layout_sorted o ls :
  Forall line_ok ls ->
  StronglySorted (fun p q : nat * record => (p.1 < q.1)%nat) (layout o ls).
Proof.
  intros Hls. revert o. induction Hls as [|l ls Hl _ IH]; intros o; simpl;
    constructor.
  - apply IH.
  - apply Forall_forall. intros p Hp%layout_ge. simpl.
    pose proof (line_bytes_pos l Hl). lia.
Qed.

Lemma layout_lt o ls p :
  Forall line_ok ls -> p ∈ layout o ls -> (p.1 < o + length (body ls))%nat.
Proof.
  intros Hls. revert o. induction Hls as [|l ls Hl _ IH]; intros o.
  - by intros ?%elem_of_nil.
  - rewrite layout_cons, body_cons, length_app. pose proof (line_bytes_pos l Hl).
    intros [->|Hin]%elem_of_cons; [simpl; lia|].
    apply IH in Hin. lia.
Qed.

Lemma chunk_jobs_sorted n i bs file_size chunks_count :
  0 < bs -> i + Z.of_nat n <= chunks_count ->
  StronglySorted (fun j j' : Z * Z => j.2 <= j'.1)
    (chunk_jobs n i bs file_size chunks_count).
Proof.
  intros Hbs. revert i. induction n as [|n IH]; intros i Hi; simpl; [constructor|].
  destruct (decide (i * bs >= _)); [constructor|].
  constructor; [apply IH; lia|].
  apply Forall_forall. intros j (k & Hk & ->)%chunk_jobs_elem. simpl.
  rewrite decide_False by lia. nia.
Qed.

Lemma jobs_sorted bs file_size :
  0 < bs -> 0 <= file_size ->
  StronglySorted (fun j j' : Z * Z => j.2 <= j'.1) (jobs bs file_size).
Proof.
  intros Hbs Hsize. unfold jobs. apply chunk_jobs_sorted; [done|].
  pose proof (Z.div_pos file_size bs Hsize Hbs). lia.
Qed.

Lemma bind_filter_sorted (js : list (Z * Z)) (xs : list (nat * record)) :
  StronglySorted (fun j j' : Z * Z => j.2 <= j'.1) js ->
  StronglySorted (fun p q : nat * record => (p.1 < q.1)%nat) xs ->
  js ≫= (fun j => filter (fun p => inside j p.1) xs)
    = filter (fun p => Exists (fun j => inside j p.1) js) xs.
Proof.
  intros Hjs Hxs. induction Hjs as [|j js _ IH Hj].
  - simpl. symmetry. apply filter_none. intros p _ H. by apply Exists_nil in H.
  - rewrite bind_cons, IH. rewrite Forall_forall in Hj.
    rewrite (filter_app_sorted _ _ _ _ Hxs).
    + apply filter_ext_in. intros p _. by rewrite Exists_cons.
    + intros p q Hp (j' & Hj' & Hq)%Exists_exists Hlt.
      specialize (Hj j' Hj'). unfold inside in *. simpl in *. lia.
    + intros p Hp (j' & Hj' & Hq)%Exists_exists.
      specialize (Hj j' Hj'). unfold inside in *. lia.
Qed.

Lemma slot_records_file h ls js :
  LF ∉ h -> Forall line_ok ls ->
  (forall j, j ∈ js -> 0 <= j.1 /\ j.2 <= Z.of_nat (length (h ++ LF :: body ls))) ->
  slot_records (h ++ LF :: body ls) js
    = (js ≫= (fun j => filter (fun p => inside j p.1) (layout (S (length h)) ls))).*2.
Proof.
  intros Hh Hls. unfold slot_records.
  induction js as [|j js IH]; intros Hjs; [done|].
  rewrite !bind_cons, fmap_app. f_equal.
  - rewrite chunk_records_file; [|done|done|].
    + f_equal. apply filter_ext_in. intros p _.
      destruct (Hjs j) as [H1 H2]; [left|]. unfold inside. lia.
    + destruct (Hjs j) as [H1 H2]; [left|]. lia.
  - apply IH. intros j' Hj'. apply Hjs. by right.
Qed.

(** An offset inside a file of at least one block lies behind the first
    byte of some chunk and before its end unless it is the first byte of a
    chunk. *)
Lemma inside_jobs bs file_size (o : nat) :
  0 < bs -> bs <= file_size -> 0 < Z.of_nat o < file_size ->
  Exists (fun j => inside j o) (jobs bs file_size)
    <-> Z.of_nat o ∉ (jobs bs file_size).*1.
Proof.
  intros Hbs Hsize Ho.
  assert (Hcount : 1 <= file_size / bs) by (apply Z.div_le_lower_bound; lia).
  pose proof (Z.mul_div_le file_size bs Hbs) as Hlow.
  split.
  - intros (j & Hj & Hin)%Exists_exists (j' & Heq & Hj')%list_elem_of_fmap.
    apply jobs_elem in Hj as (k & Hk & ->). apply jobs_elem in Hj' as (k' & Hk' & ->).
    unfold inside in Hin. simpl in *. rewrite Heq in Hin.
    assert (k < k') by nia.
    destruct (decide (k + 1 = file_size / bs)); [lia|nia].
  - intros Hnot.
    assert (Hq : 0 <= Z.of_nat o / bs) by (apply Z.div_pos; lia).
    pose proof (Z.mul_div_le (Z.of_nat o) bs Hbs) as Hqlow.
    pose proof (Z.mul_succ_div_gt (Z.of_nat o) bs Hbs) as Hqhigh.
    remember (Z.min (Z.of_nat o / bs) (file_size / bs - 1)) as k eqn:Hk.
    assert (Hin : (k * bs, if decide (k + 1 = file_size / bs) then file_size
                           else (k + 1) * bs) ∈ jobs bs file_size).
    { rewrite jobs_exact by lia. apply list_elem_of_fmap. exists k.
      split; [done|]. apply elem_of_seqZ. lia. }
    apply Exists_exists. eexists. split; [exact Hin|].
    assert (Hne : Z.of_nat o ≠ k * bs).
    { intros Heq. apply Hnot. apply list_elem_of_fmap. eexists. split; [|exact Hin].
      done. }
    unfold inside. simpl. split; [nia|].
    case_decide; [lia|]. assert (k = Z.of_nat o / bs) by lia. nia.
Qed.

Lemma filter_app_disjoint {A} (P Q : A -> Prop)
    `{!forall x, Decision (P x)} `{!forall x, Decision (Q x)} (xs : list A) :
  (forall x, P x -> Q x -> False) ->
  filter P xs ++ filter Q xs ≡ₚ filter (fun x => P x \/ Q x) xs.
Proof.
  intros Hdis. induction xs as [|x xs IH]; [done|].
  rewrite !filter_cons. destruct (decide (P x)) as [HP|HP].
  - rewrite (decide_False (P:=Q x)) by eauto.
    rewrite decide_True by by left.
    simpl. by rewrite IH.
  - destruct (decide (Q x)) as [HQ|HQ].
    + rewrite decide_True by by right.
      rewrite <- Permutation_middle. by rewrite IH.
    + rewrite decide_False by tauto. exact IH.
Qed.

Lemma concat_slots {A} (sched : A -> nat) (xs : list A) num_threads :
  concat ((fun id => filter (fun p => sched p = id) xs) <$> seq 0 num_threads)
    ≡ₚ filter (fun p => (sched p < num_threads)%nat) xs.
Proof.
  induction num_threads as [|n IH].
  - simpl. symmetry. rewrite filter_none; [done|]. intros x _. lia.
  - rewrite seq_S, fmap_app, concat_app. simpl. rewrite app_nil_r, IH.
    rewrite filter_app_disjoint by (intros x; lia).
    erewrite list_filter_iff; [done|]. intros x. simpl. lia.
Qed.

Lemma concat_hom {A B C} (f : list B -> list C) (g : A -> list B) (ids : list A) :
  f [] = [] -> (forall l1 l2, f (l1 ++ l2) = f l1 ++ f l2) ->
  concat ((fun id => f (g id)) <$> ids) = f (concat (g <$> ids)).
Proof.
  intros Hnil Happ. induction ids as [|id ids IH]; [done|].
  rewrite !fmap_cons. change (concat (?x :: ?l)) with (x ++ concat l).
  by rewrite IH, Happ.
Qed.

Lemma imap_pair_snd {A} (js : list A) : (imap (fun i j => (i, j)) js).*2 = js.
Proof.
  apply list_eq. intros i.
  rewrite list_lookup_fmap, list_lookup_imap.
  by destruct (js !! i).
Qed.

(** Every queued job is taken by one worker. *)
Lemma slot_jobs_partition {A} (sched : nat -> nat) num_threads (js : list A) :
  (forall i, (i < length js)%nat -> (sched i < num_threads)%nat) ->
  concat ((fun id => slot_jobs sched id js) <$> seq 0 num_threads) ≡ₚ js.
Proof.
  intros Hsched. unfold slot_jobs.
  rewrite (concat_hom (fmap snd)
             (fun id => filter (fun p : nat * A => sched p.1 = id)
                          (imap (fun i j => (i, j)) js)));
    [|done|intros; apply fmap_app].
  rewrite (concat_slots (fun p : nat * A => sched p.1)).
  rewrite <- (imap_pair_snd js) at 2. f_equiv.
  rewrite filter_all; [done|]. intros [i j] Hin.
  apply elem_of_lookup_imap in Hin as (i' & y & [= -> ->] & Hy).
  apply Hsched. by eapply lookup_lt_Some.
Qed.

Lemma pool_records_perm bs num_threads sched mem :
  (forall i, (i < length (jobs bs (Z.of_nat (length mem))))%nat ->
             (sched i < num_threads)%nat) ->
  pool_records bs num_threads sched mem
    ≡ₚ slot_records mem (jobs bs (Z.of_nat (length mem))).
Proof.
  intros Hsched. unfold pool_records.
  rewrite (concat_hom (slot_records mem)
             (fun id => slot_jobs sched id (jobs bs (Z.of_nat (length mem)))));
    [|done|intros; apply bind_app].
  unfold slot_records. by rewrite slot_jobs_partition.
Qed.

Lemma slot_records_off_starts bs h ls :
  let mem := h ++ LF :: body ls in
  let js := jobs bs (Z.of_nat (length mem)) in
  0 < bs <= Z.of_nat (length mem) -> LF ∉ h -> Forall line_ok ls ->
  slot_records mem js
    = (filter (fun p => Z.of_nat p.1 ∉ js.*1) (layout (S (length h)) ls)).*2.
Proof.
  intros mem js Hbs Hh Hls.
  unfold mem at 1. rewrite slot_records_file; [|done|done|].
  - f_equal. rewrite bind_filter_sorted;
      [|apply jobs_sorted; lia|by apply layout_sorted].
    apply filter_ext_in. intros p Hp. apply inside_jobs; [lia..|].
    pose proof (layout_ge _ _ _ Hp). pose proof (layout_lt _ _ _ Hls Hp) as Hlt.
    unfold mem. rewrite length_app. simpl length. lia.
  - intros j Hj. apply jobs_range in Hj; [|lia..]. fold mem. lia.
Qed.

(** X7: the records a run reads from a file of at least one block made of a
    header line and formatted lines, however the jobs are handed to the
    workers: every line once, except the lines whose first byte is the
    first byte of a chunk, which no worker reads. *)
Theorem pool_reads_lines_off_chunk_starts bs num_threads sched h ls :
  let mem := h ++ LF :: body ls in
  let js := jobs bs (Z.of_nat (length mem)) in
  0 < bs <= Z.of_nat (length mem) ->
  (forall i, (i < length js)%nat -> (sched i < num_threads)%nat) ->
  LF ∉ h -> Forall line_ok ls ->
  pool_records bs num_threads sched mem
    ≡ₚ (filter (fun p => Z.of_nat p.1 ∉ js.*1) (layout (S (length h)) ls)).*2.
Proof.
  intros mem js Hbs Hsched Hh Hls. subst js mem.
  rewrite pool_records_perm by done.
  by rewrite (slot_records_off_starts bs h ls Hbs Hh Hls).
Qed.

Lemma pool_reads_lines_off_chunk_starts_witness :
  pool_records 28 2 alternate (header_bytes ++ LF :: body boundary_lines)
    ≡ₚ (filter (fun p => Z.of_nat p.1 ∉
                  (jobs 28 (Z.of_nat (length (header_bytes ++ LF :: body boundary_lines)))).*1)
          (layout (S (length header_bytes)) boundary_lines)).*2.
Proof.
  apply (pool_reads_lines_off_chunk_starts 28 2 alternate header_bytes boundary_lines).
  - vm_compute. split; [reflexivity|discriminate].
  - intros i _. apply Nat.mod_upper_bound. lia.
  - apply (bool_decide_unpack _). vm_compute. exact I.
  - apply (bool_decide_unpack _). vm_compute. exact I.
Defined.

(** X8: the whole run up to the merged aggregate, on a file of at least one
    block made of a header line and formatted lines: when the lines that do
    not start on the first byte of a chunk name at most [NUM_CITIES] cities
    and products, the pool and the merger return, and the merged aggregate
    holds the totals and minimums of exactly these lines, for every
    assignment of jobs to workers and every iteration order of the
    tables. *)
Theorem file_aggregate iter bs num_threads sched h ls :
  let mem := h ++ LF :: body ls in
  let js := jobs bs (Z.of_nat (length mem)) in
  let kept := (filter (fun p => Z.of_nat p.1 ∉ js.*1) (layout (S (length h)) ls)).*2 in
  (forall m, iter m ≡ₚ map_to_list m) ->
  0 < bs <= Z.of_nat (length mem) ->
  (forall i, (i < length js)%nat -> (sched i < num_threads)%nat) ->
  LF ∉ h -> Forall line_ok ls ->
  (size (cities_of kept) <= NUM_CITIES)%nat ->
  (size (products_of kept) <= NUM_CITIES)%nat ->
  exists results mr,
    process_concurrently_with bs num_threads sched mem = Some results /\
    merge iter results = Some mr /\
    represents mr kept.
Proof.
  intros mem js kept Hiter Hbs Hsched Hh Hls Hsc Hsp. subst kept js.
  remember (h ++ LF :: body ls) as mem' eqn:Hmem. subst mem.
  remember (filter (fun p : nat * record => Z.of_nat p.1 ∉ (jobs bs (Z.of_nat (length mem'))).*1)
              (layout (S (length h)) ls)).*2 as kept eqn:Hkept.
  assert (Hperm : pool_records bs num_threads sched mem' ≡ₚ kept).
  { rewrite pool_records_perm by done. subst mem' kept.
    by rewrite (slot_records_off_starts bs h ls Hbs Hh Hls). }
  assert (Hnt : (0 < num_threads)%nat).
  { assert (0 < length (jobs bs (Z.of_nat (length mem'))))%nat as Hlen;
      [|specialize (Hsched 0%nat Hlen); lia].
    rewrite jobs_length by lia.
    assert (1 <= Z.of_nat (length mem') / bs) by (apply Z.div_le_lower_bound; lia).
    lia. }
  unfold pool_records in Hperm.
  destruct (pipeline_represents iter
              ((fun id => slot_records mem'
                            (slot_jobs sched id (jobs bs (Z.of_nat (length mem')))))
                 <$> seq 0 num_threads)
              Hiter) as (rs & mr & Hrs & Hmr & Hrep).
  { unfold cities_of. by rewrite Hperm. }
  { unfold products_of. by rewrite Hperm. }
  exists rs, mr. split; [|split; [done|]].
  - rewrite process_concurrently_records; [done|done|].
    intros j Hj. apply jobs_range in Hj as [Hj _]; [|lia..].
    subst mem'. apply realign_file; [done|]. lia.
  - eapply represents_perm; [exact Hrep|exact Hperm].
Qed.

Lemma file_aggregate_witness :
  let mem := header_bytes ++ LF :: body boundary_lines in
  let kept := (filter (fun p => Z.of_nat p.1 ∉ (jobs 28 (Z.of_nat (length mem))).*1)
                 (layout (S (length header_bytes)) boundary_lines)).*2 in
  exists results mr,
    process_concurrently_with 28 2 alternate mem = Some results /\
    merge table_order results = Some mr /\
    represents mr kept.
Proof.
  apply (file_aggregate table_order 28 2 alternate header_bytes boundary_lines).
  - apply table_order_perm.
  - vm_compute. split; [reflexivity|discriminate].
  - intros i _. apply Nat.mod_upper_bound. lia.
  - apply (bool_decide_unpack _). vm_compute. exact I.
  - apply (bool_decide_unpack _). vm_compute. exact I.
  - vm_compute. lia.
  - vm_compute. lia.
Defined.

(** ** The first line, the capacity of an aggregate, idle workers *)

(** X9: no chunk decodes the first line of the file, be it a header or not:
    every record a chunk reads starts behind the first newline of the file,
    whatever bytes follow it and whatever the byte range of the chunk. *)
Theorem first_line_never_read h rest start end_ p :
  LF ∉ h -> p ∈ (chunk_records (h ++ LF :: rest) start end_).*1 ->
  (length h < p)%nat.
Proof.
  intros Hh Hp. destruct (decide (length h < start)%nat) as [Hlt|Hge].
  - apply chunk_records_starts in Hp. lia.
  - unfold chunk_records in Hp.
    change (h ++ LF :: rest) with ([] ++ h ++ LF :: rest) in Hp.
    rewrite (realign_before_newline [] h rest) in Hp by (simpl; (done || lia)).
    apply chunk_records_loop_starts in Hp. simpl in Hp. lia.
Qed.

Lemma first_line_never_read_witness :
  (length (bytes "A,X,1.00") < 9)%nat.
Proof.
  apply (first_line_never_read (bytes "A,X,1.00") (bytes "B,Y,2.00" ++ [LF]) 0 18 9).
  - apply (bool_decide_unpack _). vm_compute. exact I.
  - apply (bool_decide_unpack _). vm_compute. exact I.
Defined.

(** X10: an aggregate has room for [NUM_CITIES] cities and [NUM_CITIES] products
    and no more: the statements that end the loop body of [process_chunk]
    stay inside the arrays exactly when the record's city is known or fewer
    than [NUM_CITIES] cities are, and the same holds for its product. *)
Theorem aggregate_capacity r c p x :
  wf r ->
  is_Some (aggregate r (c, p, x)) <->
    (is_Some (city_id r !! c) \/ (size (city_id r) < NUM_CITIES)%nat) /\
    (is_Some (product_id r !! p) \/ (size (product_id r) < NUM_CITIES)%nat).
Proof.
  intros Hwf. split.
  - intros [r' Hr']. destruct Hwf as ([_ Hsc] & [_ Hsp] & _).
    unfold NUM_CITIES in Hsc, Hsp. split.
    + destruct (city_id r !! c) as [i|] eqn:Ec; [left; eauto|right].
      destruct (decide (size (city_id r) < NUM_CITIES)%nat) as [|Hfull]; [done|exfalso].
      unfold aggregate in Hr'.
      rewrite (find_or_create_miss _ _ Ec) in Hr' by lia.
      destruct (find_or_create (product_id r) p) as [pid products].
      unfold get2 in Hr'.
      rewrite (index_None (Z.of_nat (size (city_id r)))) in Hr'
        by (unfold NUM_CITIES in *; lia).
      done.
    + destruct (product_id r !! p) as [i|] eqn:Ep; [left; eauto|right].
      destruct (decide (size (product_id r) < NUM_CITIES)%nat) as [|Hfull]; [done|exfalso].
      unfold aggregate in Hr'.
      destruct (find_or_create (city_id r) c) as [cid cities].
      rewrite (find_or_create_miss _ _ Ep) in Hr' by lia.
      unfold get2 in Hr'. destruct (index cid); simpl in Hr'; [|done].
      rewrite (index_None (Z.of_nat (size (product_id r)))) in Hr'
        by (unfold NUM_CITIES in *; lia).
      done.
  - intros [Hc Hp].
    destruct (aggregate_step r c p x Hwf Hc Hp) as (r' & Hr' & _). eauto.
Qed.

Lemma aggregate_capacity_witness :
  is_Some (aggregate new_Result ("A"%string, "X"%string, 150)) <->
    (is_Some (city_id new_Result !! "A"%string)
     \/ (size (city_id new_Result) < NUM_CITIES)%nat) /\
    (is_Some (product_id new_Result !! "X"%string)
     \/ (size (product_id new_Result) < NUM_CITIES)%nat).
Proof. apply (aggregate_capacity new_Result "A" "X" 150). apply wf_new. Defined.

(** X11: workers that took no job leave the merged aggregate as it is: [merge]
    gives the same result with and without the untouched aggregates of
    idle workers, wherever they stand in the vector. *)
Theorem merge_ignores_idle_workers iter rs1 rs2 n :
  (forall m, iter m ≡ₚ map_to_list m) ->
  merge iter (rs1 ++ replicate n new_Result ++ rs2) = merge iter (rs1 ++ rs2).
Proof.
  intros Hiter. unfold merge. rewrite !fold_opt_app.
  destruct (fold_opt (merge_result iter) new_Result rs1) as [mr|]; simpl; [|done].
  by rewrite fold_opt_app, (fold_merge_new iter Hiter).
Qed.

Lemma merge_ignores_idle_workers_witness :
  merge table_order ([round_trip_result] ++ replicate 3 new_Result ++ [])
    = merge table_order ([round_trip_result] ++ []).
Proof.
  apply (merge_ignores_idle_workers table_order [round_trip_result] [] 3).
  apply table_order_perm.
Defined.

(** ** The thread pool *)

Lemma slot_jobs_snoc {A} sched id (l : list A) j :
  slot_jobs sched id (l ++ [j])
    = slot_jobs sched id l ++ (if decide (sched (length l) = id) then [j] else []).
Proof.
  unfold slot_jobs. rewrite imap_app, filter_app, fmap_app. f_equal.
  simpl. rewrite Nat.add_0_r, filter_cons. simpl.
  by case_decide.
Qed.

Lemma slot_jobs_ext {A} sched sched' id (l : list A) :
  (forall i, (i < length l)%nat -> sched i = sched' i) ->
  slot_jobs sched id l = slot_jobs sched' id l.
Proof.
  intros Hext. unfold slot_jobs. f_equal. apply filter_ext_in.
  intros [i j] Hin. apply elem_of_lookup_imap in Hin as (i' & y & [= -> ->] & Hy).
  simpl. rewrite Hext; [done|]. by eapply lookup_lt_Some.
Qed.

Lemma slot_jobs_take {A} owner id (js : list A) j id' :
  js !! length owner = Some j ->
  slot_jobs (sched_of (owner ++ [id])) id' (take (length (owner ++ [id])) js)
    = slot_jobs (sched_of owner) id' (take (length owner) js)
        ++ (if decide (id = id') then [j] else []).
Proof.
  intros Hj. rewrite length_app. simpl length.
  replace (length owner + 1)%nat with (S (length owner)) by lia.
  rewrite (take_S_r _ _ _ Hj), slot_jobs_snoc.
  assert (Hlen : length (take (length owner) js) = length owner).
  { rewrite length_take. apply lookup_lt_Some in Hj. lia. }
  rewrite Hlen. f_equal.
  - apply slot_jobs_ext. intros i Hi. unfold sched_of.
    rewrite lookup_app_l; [done|lia].
  - unfold sched_of. rewrite lookup_app_r, Nat.sub_diag by lia. done.
Qed.

Lemma run_slot_snoc mem before j :
  run_slot mem (before ++ [j])
    = run_slot mem before ≫= (fun r => process_chunk r mem (Z.to_nat j.1) (Z.to_nat j.2)).
Proof.
  unfold run_slot. rewrite fold_opt_app.
  destruct (fold_opt _ new_Result before) as [r|]; simpl; [|done].
  by destruct (process_chunk r mem _ _).
Qed.

Lemma insert_not_elem {A} (l : list A) i x y : y ∉ l -> y ≠ x -> y ∉ <[i := x]> l.
Proof.
  intros Hl Hx Hin. apply list_elem_of_lookup in Hin as [k Hk].
  destruct (decide (i = k)) as [->|Hne].
  - destruct (decide (k < length l)%nat).
    + rewrite list_lookup_insert_eq in Hk by done. congruence.
    + rewrite list_insert_ge in Hk by lia. apply Hl. by eapply list_elem_of_lookup_2.
  - rewrite list_lookup_insert_ne in Hk by done.
    apply Hl. by eapply list_elem_of_lookup_2.
Qed.

Lemma pool_inv_start mem num_threads js :
  pool_inv mem num_threads js [] (pool_start num_threads js).
Proof.
  unfold pool_inv, pool_start, main_ok. simpl.
  rewrite take_0, !length_replicate. repeat split; try done; try lia.
  - intros id w [-> Hid]%lookup_replicate.
    exists (Some new_Result). split; [by apply lookup_replicate|]. done.
  - intros _ [? _]%elem_of_replicate. done.
Qed.

Lemma pool_inv_step mem num_threads js owner st st' :
  pool_inv mem num_threads js owner st -> pool_step mem st st' ->
  exists owner', pool_inv mem num_threads js owner' st'.
Proof.
  intros (Hjs & Hlen & Hown & Hnt & Hnr & Hws & Hmain & Hret) Hstep.
  unfold main_ok in Hmain.
  destruct Hstep as [j todo q t ws rs | q t ws rs | j q t ws rs | t ws rs | q t ws rs
                    | i q t ws rs Hi | q t ws rs | id j q pc ws rs Hid
                    | id q pc ws rs Hid | id j q t pc ws rs r Hid Hr];
    simpl in *.
  - exists owner. unfold pool_inv. simpl. split_and!; try done.
    by rewrite <- app_assoc.
  - exists owner. unfold pool_inv. simpl. split_and!; done.
  - exists owner. unfold pool_inv. simpl. split_and!; done.
  - exists owner. unfold pool_inv. simpl. split_and!; done.
  - destruct Hmain as [_ ->].
    exists owner. unfold pool_inv. simpl. split_and!; try done.
    unfold main_ok. simpl. split_and!; try done. intros id Hid. lia.
  - destruct Hmain as (-> & -> & Hjoined).
    exists owner. unfold pool_inv. simpl. split_and!; try done.
    unfold main_ok. simpl. split_and!; try done.
    intros id Hid. destruct (decide (id = i)) as [->|Hne]; [done|].
    apply Hjoined. lia.
  - destruct Hmain as (-> & -> & Hjoined).
    exists owner. unfold pool_inv. simpl. split_and!; try done.
    unfold main_ok. simpl. split_and!; try done.
    apply Forall_lookup. intros k w Hk.
    rewrite Hjoined in Hk by (by eapply lookup_lt_Some). congruence.
  - assert (Hj : js !! length owner = Some j).
    { rewrite Hjs, lookup_app_r by (rewrite length_take; lia).
      rewrite length_take, Nat.min_l, Nat.sub_diag by lia. done. }
    assert (Hlt : (id < length ws)%nat) by by eapply lookup_lt_Some.
    exists (owner ++ [id]). unfold pool_inv. simpl. split_and!.
    + rewrite length_app. simpl length.
      replace (length owner + 1)%nat with (S (length owner)) by lia.
      rewrite (take_S_r _ _ _ Hj), <- app_assoc. exact Hjs.
    + apply lookup_lt_Some in Hj. rewrite length_app. simpl. lia.
    + apply Forall_app. split; [done|]. apply Forall_singleton. lia.
    + by rewrite length_insert.
    + done.
    + intros id' w Hw. rewrite (slot_jobs_take _ _ _ _ _ Hj).
      destruct (decide (id = id')) as [<-|Hne].
      * rewrite list_lookup_insert_eq in Hw by done. injection Hw as <-.
        destruct (Hws id Waiting Hid) as (r & Hr & Hok).
        exists r. split; [done|]. simpl. eexists. split; [done|]. exact Hok.
      * rewrite list_lookup_insert_ne in Hw by done. rewrite app_nil_r.
        by apply Hws.
    + unfold main_ok. destruct pc; simpl in *; destruct_and?; done.
    + intros _. apply insert_not_elem; [by apply Hret|done].
  - assert (Hlt : (id < length ws)%nat) by by eapply lookup_lt_Some.
    exists owner. unfold pool_inv. simpl. split_and!; try done.
    + by rewrite length_insert.
    + intros id' w Hw. destruct (decide (id = id')) as [<-|Hne].
      * rewrite list_lookup_insert_eq in Hw by done. injection Hw as <-.
        by apply (Hws id Waiting).
      * rewrite list_lookup_insert_ne in Hw by done. by apply Hws.
    + unfold main_ok. destruct pc; simpl in *; destruct_and?; try done.
      * split_and!; try done. intros id' Hid'.
        destruct (decide (id = id')) as [<-|Hne].
        -- by rewrite list_lookup_insert_eq.
        -- rewrite list_lookup_insert_ne by done. auto.
      * split_and!; try done. by apply Forall_insert.
  - assert (Hlt : (id < length ws)%nat) by by eapply lookup_lt_Some.
    assert (Hltr : (id < length rs)%nat) by by eapply lookup_lt_Some.
    exists owner. unfold pool_inv. simpl. split_and!; try done.
    + by rewrite length_insert.
    + by rewrite length_insert.
    + intros id' w Hw. destruct (decide (id = id')) as [<-|Hne].
      * rewrite list_lookup_insert_eq in Hw by done. injection Hw as <-.
        destruct (Hws id (Running j) Hid) as (r0 & Hr0 & before & Hmine & Hrun).
        rewrite Hr in Hr0. injection Hr0 as <-.
        eexists. split; [by apply list_lookup_insert_eq|].
        simpl. by rewrite Hmine, run_slot_snoc, <- Hrun.
      * rewrite list_lookup_insert_ne in Hw by done.
        destruct (Hws id' w Hw) as (r0 & Hr0 & Hok).
        exists r0. split; [by rewrite list_lookup_insert_ne|done].
    + unfold main_ok. destruct pc; simpl in *; destruct_and?; try done.
      * split_and!; try done. intros id' Hid'.
        destruct (decide (id = id')) as [<-|Hne].
        -- assert (ws !! id = Some Returned) by auto. congruence.
        -- rewrite list_lookup_insert_ne by done. auto.
      * exfalso.
        assert (Returned = Running j) by by eapply Forall_lookup_1.
        done.
    + intros Ht. apply insert_not_elem; [by apply Hret|done].
Qed.

Lemma pool_reachable_inv mem num_threads js st :
  pool_reachable mem num_threads js st ->
  exists owner, pool_inv mem num_threads js owner st.
Proof.
  unfold pool_reachable. revert st. apply rtc_ind_r.
  - exists []. apply pool_inv_start.
  - intros y z _ Hstep [owner Hinv]. by eapply pool_inv_step.
Qed.

Lemma pool_inv_finished mem num_threads js owner st :
  pool_inv mem num_threads js owner st -> p_main st = Finished ->
  length owner = length js /\
  p_results st
    = (fun id => run_slot mem (slot_jobs (sched_of owner) id js)) <$> seq 0 num_threads.
Proof.
  intros (Hjs & Hlen & Hown & Hnt & Hnr & Hws & Hmain & Hret) Hfin.
  unfold main_ok in Hmain. rewrite Hfin in *. destruct Hmain as (Ht & Hq & Hall).
  rewrite Hq in Hjs. simpl in Hjs. rewrite app_nil_r in Hjs.
  assert (Hd : length owner = length js).
  { apply (f_equal length) in Hjs. rewrite length_take in Hjs. lia. }
  split; [done|].
  rewrite Hd, firstn_all in Hws.
  apply list_eq. intros id. rewrite list_lookup_fmap.
  destruct (decide (id < num_threads)%nat) as [Hid|Hid].
  - rewrite lookup_seq_lt by done. simpl.
    destruct (lookup_lt_is_Some_2 (p_threads st) id) as [w Hw]; [lia|].
    destruct (Hws id w Hw) as (r & Hr & Hok).
    assert (Returned = w) by by eapply Forall_lookup_1. subst w.
    simpl in Hok. by rewrite Hr, Hok.
  - rewrite lookup_seq_ge by lia. simpl. apply lookup_ge_None. lia.
Qed.

Lemma sched_of_bound owner num_threads i :
  Forall (fun id => (id < num_threads)%nat) owner -> (i < length owner)%nat ->
  (sched_of owner i < num_threads)%nat.
Proof.
  intros Hown Hi. unfold sched_of.
  destruct (lookup_lt_is_Some_2 owner i Hi) as [id Hid]. rewrite Hid. simpl.
  exact (Forall_lookup_1 _ _ _ _ Hown Hid).
Qed.

(** X12: a run of the pool that reaches the end of [process_concurrently]: every
    queued chunk has been taken by one worker, each worker has processed
    the chunks it has taken in the order of the queue, and the vector of
    results is the one [process_concurrently_with] gives for that
    assignment of chunks to workers; no chunk is lost when [stop] sets the
    flag. *)
Theorem pool_run_is_a_schedule mem num_threads js st :
  pool_reachable mem num_threads js st -> p_main st = Finished ->
  exists sched,
    (forall i, (i < length js)%nat -> (sched i < num_threads)%nat) /\
    p_results st
      = (fun id => run_slot mem (slot_jobs sched id js)) <$> seq 0 num_threads /\
    (forall bs, js = jobs bs (Z.of_nat (length mem)) ->
       mapM id (p_results st) = process_concurrently_with bs num_threads sched mem).
Proof.
  intros [owner Hinv]%pool_reachable_inv Hfin.
  destruct (pool_inv_finished _ _ _ _ _ Hinv Hfin) as [Hlen Hres].
  destruct Hinv as (_ & _ & Hown & _).
  assert (Hsched : forall i, (i < length js)%nat -> (sched_of owner i < num_threads)%nat).
  { intros i Hi. apply sched_of_bound; [done|lia]. }
  exists (sched_of owner). split; [done|]. split; [done|].
  intros bs ->. unfold process_concurrently_with.
  rewrite decide_False.
  - by rewrite Hres, mapM_fmap_compose.
  - intros [-> Hne]. destruct (jobs bs _) as [|j js']; [done|].
    specialize (Hsched 0%nat). simpl in Hsched. lia.
Qed.

(** X13: without workers a queued chunk is never taken: the run does not reach
    the end of [process_concurrently]. *)
Theorem pool_without_workers_never_finishes mem js st :
  js ≠ [] -> pool_reachable mem 0 js st -> p_main st ≠ Finished.
Proof.
  intros Hjs [owner Hinv]%pool_reachable_inv Hfin.
  destruct (pool_inv_finished _ _ _ _ _ Hinv Hfin) as [Hlen _].
  destruct Hinv as (_ & _ & Hown & _).
  destruct owner as [|id owner].
  - destruct js; [done|discriminate Hlen].
  - apply Forall_cons in Hown as [Hid _]. lia.
Qed.

Lemma pool_without_workers_never_finishes_witness :
  p_main (pool_start 0 [(0, 55)]) ≠ Finished.
Proof.
  apply (pool_without_workers_never_finishes round_trip_input [(0, 55)]).
  - discriminate.
  - apply rtc_refl.
Defined.

Lemma one_worker_run :
  pool_reachable round_trip_input 1 [(0, 55)] one_worker_end.
Proof.
  unfold pool_reachable, pool_start, one_worker_end.
  eapply rtc_l; [apply step_queue_job|].
  eapply rtc_l; [apply step_queued|].
  eapply rtc_l; [apply (step_take _ 0%nat); reflexivity|].
  eapply rtc_l; [apply (step_run _ 0%nat (0, 55)); reflexivity|].
  eapply rtc_l; [apply step_idle|].
  eapply rtc_l; [apply step_stop|].
  eapply rtc_l; [apply (step_return _ 0%nat); reflexivity|].
  eapply rtc_l; [apply (step_join _ 0%nat); reflexivity|].
  eapply rtc_l; [apply (step_joined _ _ _ [Returned])|].
  apply rtc_refl.
Qed.

Lemma pool_run_is_a_schedule_witness :
  exists sched,
    (forall i, (i < length [(0, 55)])%nat -> (sched i < 1)%nat) /\
    p_results one_worker_end
      = (fun id => run_slot round_trip_input (slot_jobs sched id [(0, 55)])) <$> seq 0 1 /\
    (forall bs, [(0, 55)] = jobs bs (Z.of_nat (length round_trip_input)) ->
       mapM id (p_results one_worker_end)
         = process_concurrently_with bs 1 sched round_trip_input).
Proof.
  apply (pool_run_is_a_schedule round_trip_input 1 [(0, 55)] one_worker_end).
  - apply one_worker_run.
  - reflexivity.
Defined.

Lemma sum_list_with_insert {A} (f : A -> nat) (l : list A) i x y :
  l !! i = Some x ->
  (sum_list_with f (<[i := y]> l) + f x = sum_list_with f l + f y)%nat.
Proof.
  revert i. induction l as [|a l IH]; intros [|i] Hx; simplify_eq/=; [lia|].
  specialize (IH i Hx). lia.
Qed.

Lemma workers_cases (ws : list worker) :
  (exists id j, ws !! id = Some (Running j)) \/
  Forall (fun w => w = Waiting \/ w = Returned) ws.
Proof.
  induction ws as [|w ws [(id & j & Hid)|IH]].
  - right. constructor.
  - left. by exists (S id), j.
  - destruct w as [|j|].
    + right. constructor; [by left|done].
    + left. by exists 0%nat, j.
    + right. constructor; [by right|done].
Qed.

(** In every state of a run but the last some thread can take a step
    that brings the run nearer to its end. *)
Lemma pool_progress mem num_threads js owner st :
  pool_inv mem num_threads js owner st ->
  (0 < num_threads)%nat \/ js = [] ->
  p_main st ≠ Finished ->
  exists st', pool_step mem st st' /\ (pool_weight st' < pool_weight st)%nat.
Proof.
  intros (Hjs & Hlen & Hown & Hnt & Hnr & Hws & Hmain & Hret) Hworkers Hfin.
  unfold main_ok in Hmain. destruct st as [pc q t ws rs]. simpl in *.
  destruct (workers_cases ws) as [(id & j & Hid)|Hnone].
  - destruct (Hws id _ Hid) as (r & Hr & _).
    eexists. split; [by eapply (step_run _ id j)|].
    unfold pool_weight. simpl. rewrite length_insert.
    pose proof (sum_list_with_insert worker_weight ws id _ Waiting Hid) as Hsum.
    simpl in Hsum. lia.
  - destruct pc as [[|j todo]| | |i|]; [| | | | |done].
    + eexists. split; [apply step_queued|]. unfold pool_weight. simpl. lia.
    + eexists. split; [apply step_queue_job|].
      unfold pool_weight. simpl. rewrite length_app. simpl. lia.
    + subst t. destruct q as [|j q].
      * eexists. split; [apply step_idle|]. unfold pool_weight. simpl. lia.
      * assert (Hpos : (0 < length ws)%nat).
        { destruct Hworkers as [?|Hnil]; [lia|].
          rewrite Hnil in Hjs. by destruct (take (length owner) []). }
        destruct (lookup_lt_is_Some_2 ws 0%nat Hpos) as [w Hw].
        assert (Hwait : w = Waiting).
        { destruct (Forall_lookup_1 _ _ _ _ Hnone Hw) as [Hw1|Hw1]; [done|].
          subst w. exfalso. apply Hret; [done|]. by eapply list_elem_of_lookup_2. }
        subst w. eexists. split; [by apply (step_take _ 0%nat)|].
        unfold pool_weight. simpl. rewrite length_insert.
        pose proof (sum_list_with_insert worker_weight ws 0%nat _ (Running j) Hw) as Hsum.
        simpl in Hsum. lia.
    + eexists. split; [apply step_stop|]. unfold pool_weight. simpl. lia.
    + destruct Hmain as (-> & -> & Hjoined).
      destruct (decide (i < length ws)%nat) as [Hi|Hi].
      * destruct (lookup_lt_is_Some_2 ws i Hi) as [w Hw].
        destruct (Forall_lookup_1 _ _ _ _ Hnone Hw) as [Hw1|Hw1]; subst w.
        -- eexists. split; [by apply (step_return _ i)|].
           unfold pool_weight. simpl. rewrite length_insert.
           pose proof (sum_list_with_insert worker_weight ws i _ Returned Hw) as Hsum.
           simpl in Hsum. lia.
        -- eexists. split; [by apply step_join|].
           unfold pool_weight. simpl. lia.
      * assert (i = length ws) as ->.
        { destruct (decide (i = length ws)) as [|Hne]; [done|exfalso].
          assert (ws !! length ws = Some Returned) as Hget by (apply Hjoined; lia).
          apply lookup_lt_Some in Hget. lia. }
        eexists. split; [apply step_joined|].
        unfold pool_weight. simpl. lia.
Qed.

Lemma pool_inv_can_finish mem num_threads js n : forall owner st,
  (pool_weight st < n)%nat ->
  pool_inv mem num_threads js owner st ->
  (0 < num_threads)%nat \/ js = [] ->
  exists st', rtc (pool_step mem) st st' /\ p_main st' = Finished.
Proof.
  induction n as [|n IH]; intros owner st Hn Hinv Hworkers; [lia|].
  assert (p_main st = Finished \/ p_main st ≠ Finished) as [Hfin|Hfin]
    by (destruct (p_main st); (by left) || (by right)).
  - exists st. split; [apply rtc_refl|done].
  - destruct (pool_progress _ _ _ _ _ Hinv Hworkers Hfin) as (st1 & Hstep & Hless).
    destruct (pool_inv_step _ _ _ _ _ _ Hinv Hstep) as [owner1 Hinv1].
    destruct (IH owner1 st1) as (st' & Hrun & Hend); [lia|done|done|].
    exists st'. split; [|done]. by eapply rtc_l.
Qed.

(** X14: with at least one worker, or with nothing to queue, the pool cannot get
    stuck: from every state of a run the end of [process_concurrently] can
    still be reached. *)
Theorem pool_can_finish mem num_threads js st :
  (0 < num_threads)%nat \/ js = [] ->
  pool_reachable mem num_threads js st ->
  exists st', rtc (pool_step mem) st st' /\ p_main st' = Finished.
Proof.
  intros Hworkers [owner Hinv]%pool_reachable_inv.
  by apply (pool_inv_can_finish mem num_threads js (S (pool_weight st)) owner st);
    [lia|..].
Qed.

Lemma pool_can_finish_witness :
  exists st', rtc (pool_step round_trip_input) (pool_start 2 [(0, 55)]) st'
              /\ p_main st' = Finished.
Proof.
  apply (pool_can_finish round_trip_input 2 [(0, 55)]).
  - left. lia.
  - apply rtc_refl.
Defined.

(** * The aggregate of a file whose records are all processed *)






(** C9 without a bound on the names does not hold:
    the 103 records of [many_cities_records] in one partial aggregate
    overrun the arrays of the worker; split in 52 and 51 both workers
    return, and the merger gives the 103rd city the identifier 102: no
    distribution of these records has a report. *)
Lemma many_cities_split_overrun :
  concat many_cities_split = many_cities_records /\
  is_Some (mapM worker_result many_cities_split) /\
  mapM worker_result many_cities_split ≫= merge table_order = None /\
  mapM worker_result [many_cities_records] = None.
Proof.
  split; [vm_compute; reflexivity|].
  split; [apply (bool_decide_unpack _); vm_compute; exact I|].
  split; vm_compute; reflexivity.
Qed.

(** ** The printed amounts *)

(** The amounts of the examples are printed as written; an amount of 2^53 + 1
    hundredths is not a [double], and its last digit is lost on the way. *)
Lemma two_decimals_examples :
  two_decimals 150 = "1.50"%string /\
  two_decimals 4000000000000000000 = "40000000000000000.00"%string /\
  two_decimals 9007199254740993 = "90071992547409.92"%string.
Proof. repeat split; vm_compute; reflexivity. Qed.
